(** * Snarl decomposition manager and net graph of vg (src/snarls.cpp)

    A shallow embedding of the snarl manager ([SnarlManager]), of the chain
    helpers and iterators, and of the net graph ([NetGraph]: its
    constructors and [follow_edges]), with the properties of the
    decomposition stated over it; and of the reader of the table of
    haplotype transcripts of the subcommand sim (src/subcommand/sim_main.cpp). *)

From Stdlib Require Import ZArith Lia Sorted Ascii.
From stdpp Require Import base option list gmap sets fin_maps.

Set Warnings "-register-all".

(** ** Messages

    Modelled from the spec: the message types [Visit] and [Snarl] are
    declared in vg.proto, which is not among the sources.  The fields are the
    ones snarls.cpp reads and writes: a [Visit] has [node_id] (0 for a snarl
    visit), an optional [snarl] and [backward]; a [Snarl] has [type], the two
    boundary visits [start] and [end], an optional [parent] and the three
    connectivity summaries.  A message field that is not set reads as the
    default message. *)

Abbreviation id_t := Z (only parsing).

Inductive SnarlType : Type := UNCLASSIFIED | ULTRABUBBLE | UNARY.

Inductive Visit : Type := Build_Visit {
  node_id : id_t;
  snarl_field : option Snarl;
  backward : bool }
with Snarl : Type := Build_Snarl {
  type : SnarlType;
  start : Visit;
  end_ : Visit;
  parent_field : option Snarl;
  start_self_reachable : bool;
  end_self_reachable : bool;
  start_end_reachable : bool }.

(** The default-constructed messages ([Visit to_return;]). *)
Definition default_Visit : Visit :=
  {| node_id := 0; snarl_field := None; backward := false |}.

Definition default_Snarl : Snarl :=
  {| type := UNCLASSIFIED; start := default_Visit; end_ := default_Visit;
     parent_field := None; start_self_reachable := false;
     end_self_reachable := false; start_end_reachable := false |}.

Definition has_snarl (v : Visit) : bool :=
  match snarl_field v with Some _ => true | None => false end.

(** [visit.snarl()]: the default snarl when the field is not set. *)
Definition snarl (v : Visit) : Snarl := default (default_Snarl) (snarl_field v).

Definition has_parent (s : Snarl) : bool :=
  match parent_field s with Some _ => true | None => false end.

(** [snarl.parent()]: the default snarl when the field is not set. *)
Definition Snarl_parent (s : Snarl) : Snarl :=
  default (default_Snarl) (parent_field s).

Definition set_backward (b : bool) (v : Visit) : Visit :=
  {| node_id := node_id v; snarl_field := snarl_field v; backward := b |}.

Definition set_node_id (n : id_t) (v : Visit) : Visit :=
  {| node_id := n; snarl_field := snarl_field v; backward := backward v |}.

Definition set_start (v : Visit) (s : Snarl) : Snarl :=
  {| type := type s; start := v; end_ := end_ s; parent_field := parent_field s;
     start_self_reachable := start_self_reachable s;
     end_self_reachable := end_self_reachable s;
     start_end_reachable := start_end_reachable s |}.

Definition set_end (v : Visit) (s : Snarl) : Snarl :=
  {| type := type s; start := start s; end_ := v; parent_field := parent_field s;
     start_self_reachable := start_self_reachable s;
     end_self_reachable := end_self_reachable s;
     start_end_reachable := start_end_reachable s |}.

(** A node visit and a snarl record with set boundaries, for examples. *)
Definition node_visit (n : id_t) (b : bool) : Visit :=
  {| node_id := n; snarl_field := None; backward := b |}.

Definition mk_snarl (t : SnarlType) (s e : Visit) (p : option Snarl) : Snarl :=
  {| type := t; start := s; end_ := e; parent_field := p;
     start_self_reachable := false; end_self_reachable := false;
     start_end_reachable := true |}.

(** ** Boundary algebra

    Modelled from the spec: [reverse] and [transfer_boundary_info] are inline
    functions of snarls.hpp, which is not among the sources.  [reverse]
    negates [backward]; the boundary fields stay where they are, so that the
    reversed visit still names the same snarl and leaves it through the
    boundary it entered by.  [transfer_boundary_info] copies the two boundary
    visits of a snarl record into another snarl message. *)
Definition reverse (v : Visit) : Visit := set_backward (negb (backward v)) v.

Definition transfer_boundary_info (from to : Snarl) : Snarl :=
  set_end (end_ from) (set_start (start from) to).

(** [transfer_boundary_info] into the snarl message of a visit, which
    [mutable_snarl()] creates when the field is not set. *)
Definition transfer_to_visit (from : Snarl) (v : Visit) : Visit :=
  {| node_id := node_id v;
     snarl_field := Some (transfer_boundary_info from (snarl v));
     backward := backward v |}.

(** ** Outcomes of fallible code *)

(** What a call can end in besides a value: the exceptions the source throws,
    a failed [assert], undefined behaviour of C++ (an invalid pointer,
    [front()] of an empty chain), the end of a non-void function reached
    without a [return] (the local [to_return] built so far is recorded), and
    the bound of a loop model being used up. *)
Inductive error : Type :=
| out_of_range
| runtime_error
| assertion_failed
| undefined_behaviour
| missing_return (to_return : Visit)
| out_of_fuel.

Inductive result (A : Type) : Type :=
| Ok (a : A)
| Err (e : error).
Arguments Ok {A} a.
Arguments Err {A} e.

#[global] Instance result_ret : MRet result := λ A a, Ok a.
#[global] Instance result_bind : MBind result := λ A B f r,
  match r with Ok a => f a | Err e => Err e end.
#[global] Instance result_fmap : FMap result := λ A B f r,
  match r with Ok a => Ok (f a) | Err e => Err e end.

Definition is_Ok {A} (r : result A) : bool :=
  match r with Ok _ => true | Err _ => false end.

(** [assert(c)]. *)
Definition assert (c : bool) : result unit :=
  if c then Ok tt else Err assertion_failed.

(** ** Pointers and chains

    A [const Snarl*] handed out by the manager points into the vector
    [snarls]; it is modelled by the position of the record, [nullptr] by
    [None].  A chain is a vector of such pointers. *)
Abbreviation ptr := nat (only parsing).
Abbreviation Chain := (list nat) (only parsing).
Abbreviation side_t := (Z * bool)%type (only parsing).
Abbreviation key_t := ((Z * bool) * (Z * bool))%type (only parsing).

(** Dereferencing a pointer in the store [mem]. *)
Definition deref (mem : list Snarl) (p : ptr) : result Snarl :=
  match mem !! p with Some s => Ok s | None => Err undefined_behaviour end.

(** [front()] and [back()] of a vector; undefined on an empty one. *)
Definition front {A} (l : list A) : result A :=
  match l with x :: _ => Ok x | [] => Err undefined_behaviour end.

Definition back {A} (l : list A) : result A :=
  match last l with Some x => Ok x | None => Err undefined_behaviour end.

(** The element after [chain.begin()] and the one after [chain.rbegin()]:
    the second and the next-to-last element. *)
Definition second {A} (l : list A) : result A :=
  match l !! 1 with Some x => Ok x | None => Err undefined_behaviour end.

Definition next_to_last {A} (l : list A) : result A :=
  match rev l !! 1 with Some x => Ok x | None => Err undefined_behaviour end.

(** ** Chain boundary helpers (snarls.cpp, lines 13-35) *)

Definition start_backward (mem : list Snarl) (chain : Chain) : result bool :=
  if decide (1 < length chain) then
    f ← front chain ≫= deref mem;
    s ← second chain ≫= deref mem;
    Ok (bool_decide (node_id (start f) = node_id (start s))
        || bool_decide (node_id (start f) = node_id (end_ s)))
  else Ok false.

Definition end_backward (mem : list Snarl) (chain : Chain) : result bool :=
  if decide (1 < length chain) then
    b ← back chain ≫= deref mem;
    p ← next_to_last chain ≫= deref mem;
    Ok (bool_decide (node_id (end_ b) = node_id (start p))
        || bool_decide (node_id (end_ b) = node_id (end_ p)))
  else Ok false.

Definition get_start (mem : list Snarl) (chain : Chain) : result Visit :=
  sb ← start_backward mem chain;
  f ← front chain ≫= deref mem;
  Ok (if sb : bool then reverse (end_ f) else start f).

Definition get_end (mem : list Snarl) (chain : Chain) : result Visit :=
  eb ← end_backward mem chain;
  f ← front chain ≫= deref mem;
  Ok (if eb : bool then reverse (start f) else end_ f).


(** ** Chain iterators (snarls.cpp, lines 37-151)

    The three iterators of a [ChainIterator] point into the vector of the
    chain; they are modelled by positions in it, [chain.begin()] by 0 and
    [chain.end()] by the length.  Dereferencing [pos] reads the chain, which
    the operations take as an argument. *)

(** [*pos] for a position in a chain. *)
Definition element (chain : Chain) (pos : nat) : result nat :=
  match chain !! pos with Some p => Ok p | None => Err undefined_behaviour end.

Module ChainIterator.

Record t : Type := Build {
  go_left : bool;
  backward : bool;
  pos : nat;
  chain_start : nat;
  chain_end : nat;
  is_rend : bool }.

(** [operator==]: the six members, compared as a tuple. *)
Definition equal (a b : t) : bool :=
  Bool.eqb (go_left a) (go_left b) && Bool.eqb (backward a) (backward b)
  && Nat.eqb (pos a) (pos b) && Nat.eqb (chain_start a) (chain_start b)
  && Nat.eqb (chain_end a) (chain_end b) && Bool.eqb (is_rend a) (is_rend b).

(** [operator++]. *)
Definition increment (mem : list Snarl) (chain : Chain) (it : t) : result t :=
  here ← element chain (pos it) ≫= deref mem;
  let last_leading_node :=
    if xorb (go_left it) (backward it)
    then node_id (start here) else node_id (end_ here) in
  if go_left it then
    if decide (pos it = chain_start it) then
      Ok (Build (go_left it) false (pos it) (chain_start it) (chain_end it) true)
    else
      let pos' := pred (pos it) in
      next ← element chain pos' ≫= deref mem;
      let next_trailing_node := node_id (end_ next) in
      Ok (Build (go_left it) (bool_decide (next_trailing_node ≠ last_leading_node))
                pos' (chain_start it) (chain_end it) (is_rend it))
  else
    let pos' := S (pos it) in
    if decide (pos' = chain_end it) then
      Ok (Build (go_left it) false pos' (chain_start it) (chain_end it)
                (is_rend it))
    else
      next ← element chain pos' ≫= deref mem;
      let next_trailing_node := node_id (start next) in
      Ok (Build (go_left it) (bool_decide (next_trailing_node ≠ last_leading_node))
                pos' (chain_start it) (chain_end it) (is_rend it)).

(** [operator*]. *)
Definition star (chain : Chain) (it : t) : result (nat * bool) :=
  p ← element chain (pos it); Ok (p, backward it).

End ChainIterator.

Definition chain_begin (mem : list Snarl) (chain : Chain) :
    result ChainIterator.t :=
  sb ← start_backward mem chain;
  Ok (ChainIterator.Build false sb 0 0 (length chain) false).

Definition chain_end (chain : Chain) : ChainIterator.t :=
  ChainIterator.Build false false (length chain) 0 (length chain) false.

Definition chain_rend (chain : Chain) : ChainIterator.t :=
  ChainIterator.Build true false 0 0 (length chain) true.

Definition chain_rbegin (mem : list Snarl) (chain : Chain) :
    result ChainIterator.t :=
  match chain with
  | [] => Ok (chain_rend chain)
  | _ =>
      eb ← end_backward mem chain;
      Ok (ChainIterator.Build true eb (pred (length chain)) 0 (length chain)
            false)
  end.

(** The loop [for (auto it = first; it != stop; ++it)] over a chain, as
    [add_chain_child] writes it: [body] gets the pair the iterator stands
    for and says whether to [break]; [fuel] bounds the rounds. *)
Fixpoint chain_for {A} (mem : list Snarl) (chain : Chain)
    (stop : ChainIterator.t) (body : nat * bool → A → result (A * bool))
    (fuel : nat) (it : ChainIterator.t) (acc : A) : result A :=
  if ChainIterator.equal it stop then Ok acc
  else
    match fuel with
    | 0 => Err out_of_fuel
    | S fuel' =>
        x ← ChainIterator.star chain it;
        '(acc', stop_now) ← body x acc;
        if stop_now : bool then Ok acc'
        else
          it' ← ChainIterator.increment mem chain it;
          chain_for mem chain stop body fuel' it' acc'
    end.

(** The oriented snarls a loop from [chain_begin] to [chain_end] goes
    through, and those of a loop from [chain_rbegin] to [chain_rend]; a
    chain has a round for each of its snarls. *)
Definition collect (x : nat * bool) (seen : list (nat * bool)) :
    result (list (nat * bool) * bool) :=
  Ok (seen ++ [x], false).

Definition forward_items (mem : list Snarl) (chain : Chain) :
    result (list (nat * bool)) :=
  first ← chain_begin mem chain;
  chain_for mem chain (chain_end chain) collect (length chain) first [].

Definition reverse_items (mem : list Snarl) (chain : Chain) :
    result (list (nat * bool)) :=
  first ← chain_rbegin mem chain;
  chain_for mem chain (chain_rend chain) collect (length chain) first [].

(** The first loop of [add_chain_child], from the left: a turnaround from
    the left, and whether the chain can be crossed. *)
Definition from_left (mem : list Snarl) (x : nat * bool) (acc : bool * bool) :
    result (bool * bool * bool) :=
  child ← deref mem x.1;
  let start_self := if x.2 then end_self_reachable child
                    else start_self_reachable child in
  let connected_left_left := acc.1 || start_self in
  if negb (start_end_reachable child)
  then Ok ((connected_left_left, false), true)
  else Ok ((connected_left_left, acc.2), false).

(** The second loop, from the right: a turnaround from the right. *)
Definition from_right (mem : list Snarl) (x : nat * bool) (acc : bool) :
    result (bool * bool) :=
  child ← deref mem x.1;
  let end_self := if x.2 then start_self_reachable child
                  else end_self_reachable child in
  if end_self then Ok (true, true)
  else if negb (start_end_reachable child) then Ok (acc, true)
  else Ok (acc, false).

(** The connectivity [add_chain_child] works out for a chain when internal
    connectivity is used: (left-left, right-right, left-right). *)
Definition chain_connectivity (mem : list Snarl) (chain : Chain) :
    result (bool * bool * bool) :=
  first ← chain_begin mem chain;
  '(connected_left_left, connected_left_right) ←
    chain_for mem chain (chain_end chain) (from_left mem) (length chain)
      first (false, true);
  rfirst ← chain_rbegin mem chain;
  connected_right_right ←
    chain_for mem chain (chain_rend chain) (from_right mem) (length chain)
      rfirst false;
  Ok (connected_left_left, connected_right_right, connected_left_right).

(** The boundaries of a snarl record, under names that stay free. *)
Abbreviation Snarl_start := start (only parsing).
Abbreviation Snarl_end := end_ (only parsing).

(** ** The backing graph of the content queries

    Modelled from the spec: the class [VG] is not among the sources.  The
    manager uses [get_node], which finds the node of an id and throws when
    there is none, and [edges_of_node], which lists the edges attached to a
    node; an edge has the fields [from], [to], [from_start] and [to_end]. *)
Record Edge : Type := Build_Edge {
  from : id_t;
  to : id_t;
  from_start : bool;
  to_end : bool }.

#[global] Instance Edge_eq_dec : EqDecision Edge.
Proof. solve_decision. Defined.

#[global] Program Instance Edge_countable : Countable Edge :=
  inj_countable' (λ e, (from e, to e, from_start e, to_end e))
                 (λ q, Build_Edge q.1.1.1 q.1.1.2 q.1.2 q.2) _.
Next Obligation. by intros []. Qed.

Record VG : Type := Build_VG {
  node_by_id : gset Z;
  edge_list : list Edge }.

Definition get_node (graph : VG) (id : id_t) : result id_t :=
  if decide (id ∈ node_by_id graph) then Ok id else Err runtime_error.

Definition edges_of_node (graph : VG) (node : id_t) : list Edge :=
  filter (λ e, from e = node ∨ to e = node) (edge_list graph).

(** ** The snarl manager (snarls.cpp, lines 156-766) *)

Module SnarlManager.

(** The members of the class: the store [snarls], the top-level snarls
    [roots], and the four indexes.  [parent] maps a key to a possibly null
    pointer. *)
Record t : Type := Build {
  snarls : list Snarl;
  roots : list nat;
  children : gmap ((Z * bool) * (Z * bool)) (list nat);
  parent : gmap ((Z * bool) * (Z * bool)) (option nat);
  snarl_into : gmap (Z * bool) nat;
  index_of : gmap ((Z * bool) * (Z * bool)) nat }.

Definition key_form (snarl : Snarl) : key_t :=
  ((node_id (start snarl), backward (start snarl)),
   (node_id (end_ snarl), backward (end_ snarl))).

(** The two keys under which [build_indexes] files a record in
    [snarl_into]. *)
Definition start_key (snarl : Snarl) : side_t :=
  (node_id (start snarl), backward (start snarl)).

Definition end_key (snarl : Snarl) : side_t :=
  (node_id (end_ snarl), negb (backward (end_ snarl))).

(** *** build_indexes *)

(** The body of the first loop, for the record [snarl] at position [i]. *)
Definition index_record (m : t) (i : nat) (snarl : Snarl) : t :=
  let index_of' := <[key_form snarl := i]> (index_of m) in
  let '(children', roots', parent') :=
    if has_parent snarl then
      let pk := key_form (Snarl_parent snarl) in
      (match children m !! pk with
       | None => <[pk := [i]]> (children m)
       | Some cs => <[pk := cs ++ [i]]> (children m)
       end, roots m, parent m)
    else (children m, roots m ++ [i], <[key_form snarl := None]> (parent m)) in
  let snarl_into' :=
    <[end_key snarl := i]> (<[start_key snarl := i]> (snarl_into m)) in
  Build (snarls m) roots' children' parent' snarl_into' index_of'.

Fixpoint first_pass (i : nat) (todo : list Snarl) (m : t) : t :=
  match todo with
  | [] => m
  | snarl :: todo' => first_pass (S i) todo' (index_record m i snarl)
  end.

(** The body of the second loop. *)
Definition mark_parent (mem : list Snarl) (i : nat)
    (par : gmap ((Z * bool) * (Z * bool)) (option nat)) (child : nat) :
    gmap ((Z * bool) * (Z * bool)) (option nat) :=
  match mem !! child with
  | Some c => <[key_form c := Some i]> par
  | None => par
  end.

Definition link_record (m : t) (i : nat) (snarl : Snarl) : t :=
  match children m !! key_form snarl with
  | Some cs =>
      Build (snarls m) (roots m) (children m)
            (foldl (mark_parent (snarls m) i) (parent m) cs)
            (snarl_into m) (index_of m)
  | None =>
      Build (snarls m) (roots m) (<[key_form snarl := []]> (children m))
            (parent m) (snarl_into m) (index_of m)
  end.

Fixpoint second_pass (i : nat) (todo : list Snarl) (m : t) : t :=
  match todo with
  | [] => m
  | snarl :: todo' => second_pass (S i) todo' (link_record m i snarl)
  end.

Definition build_indexes (m : t) : t :=
  second_pass 0 (snarls m) (first_pass 0 (snarls m) m).

(** The constructor: the records of the stream, then [build_indexes]. *)
Definition make (records : list Snarl) : t :=
  build_indexes (Build records [] ∅ ∅ ∅ ∅).

(** *** Tree queries *)

Definition children_of (m : t) (snarl : option ptr) : result (list ptr) :=
  match snarl with
  | None => Ok (roots m)
  | Some p =>
      s ← deref (snarls m) p;
      match children m !! key_form s with
      | Some cs => Ok cs
      | None => Err out_of_range
      end
  end.

Definition parent_of (m : t) (snarl : ptr) : result (option ptr) :=
  s ← deref (snarls m) snarl;
  match parent m !! key_form s with
  | Some p => Ok p
  | None => Err out_of_range
  end.

Definition top_level_snarls (m : t) : list ptr := roots m.

(** *** Lookup *)

Definition into_which_snarl (m : t) (id : id_t) (reverse : bool) : option ptr :=
  snarl_into m !! (id, reverse).

Definition manage (m : t) (not_owned : Snarl) : result ptr :=
  match index_of m !! key_form not_owned with
  | None => Err runtime_error
  | Some i =>
      match snarls m !! i with
      | Some _ => Ok i
      | None => Err out_of_range
      end
  end.

(** *** Chain walking *)

Definition snarl_sharing_start (m : t) (here : ptr) : result (option ptr) :=
  h ← deref (snarls m) here;
  let next := into_which_snarl m (node_id (start h)) (negb (backward (start h))) in
  Ok (if decide (next = Some here) then None else next).

Definition snarl_sharing_end (m : t) (here : ptr) : result (option ptr) :=
  h ← deref (snarls m) here;
  let next := into_which_snarl m (node_id (end_ h)) (backward (end_ h)) in
  Ok (if decide (next = Some here) then None else next).


(** The neighbour a visit leaves towards. *)
Definition out_neighbor (m : t) (here_snarl : ptr) (here_backward : bool) :
    result (option ptr) :=
  if here_backward then snarl_sharing_start m here_snarl
  else snarl_sharing_end m here_snarl.

(** The value of the local [to_return] once both of its fields are set. *)
Definition visit_to_next (here_backward : bool) (here_snarl next : Snarl) : Visit :=
  let to_return := transfer_to_visit next default_Visit in
  if here_backward then
    set_backward (bool_decide (node_id (end_ next) = node_id (start here_snarl)))
                 to_return
  else
    set_backward (negb (bool_decide (node_id (start next) = node_id (end_ here_snarl))))
                 to_return.

(** [next_in_chain]: the branch for a null neighbour returns [to_return];
    the other branch fills [to_return] in and ends at the closing brace of
    the function, with no [return]. *)
Definition next_in_chain (m : t) (here : Visit) : result Visit :=
  _ ← assert (bool_decide (node_id here = 0%Z));
  here_snarl ← manage m (snarl here);
  h ← deref (snarls m) here_snarl;
  next ← out_neighbor m here_snarl (backward here);
  match next with
  | None => Ok default_Visit
  | Some n =>
      nx ← deref (snarls m) n;
      Err (missing_return (visit_to_next (backward here) h nx))
  end.

Definition prev_in_chain (m : t) (here : Visit) : result Visit :=
  reverse <$> next_in_chain m (reverse here).

(** *** chains_of

    The two walks of [chains_of] are loops on a visit; [fuel] bounds the
    number of times their bodies run. *)
Fixpoint walk_left (m : t) (fuel : nat) (walk : Visit)
    (chain : list nat) (seen : gset nat) : result (list nat * gset nat) :=
  if has_snarl walk then
    match fuel with
    | 0 => Err out_of_fuel
    | S fuel' =>
        p ← manage m (snarl walk);
        next ← prev_in_chain m walk;
        walk_left m fuel' next (p :: chain) ({[p]} ∪ seen)
    end
  else Ok (chain, seen).

Fixpoint walk_right (m : t) (fuel : nat) (walk : Visit)
    (chain : list nat) (seen : gset nat) : result (list nat * gset nat) :=
  if has_snarl walk then
    match fuel with
    | 0 => Err out_of_fuel
    | S fuel' =>
        p ← manage m (snarl walk);
        next ← next_in_chain m walk;
        walk_right m fuel' next (chain ++ [p]) ({[p]} ∪ seen)
    end
  else Ok (chain, seen).

(** The body of the loop over the children, for a child not yet seen. *)
Definition chain_from (m : t) (fuel : nat) (child : ptr) (seen : gset nat) :
    result (list nat * gset nat) :=
  c ← deref (snarls m) child;
  let here := transfer_to_visit c default_Visit in
  first_left ← prev_in_chain m here;
  '(chain, seen) ← walk_left m fuel first_left [child] ({[child]} ∪ seen);
  first_right ← next_in_chain m here;
  walk_right m fuel first_right chain seen.

Fixpoint chains_loop (m : t) (fuel : nat) (todo : list nat) (seen : gset nat)
    (to_return : list (list nat)) : result (list (list nat)) :=
  match todo with
  | [] => Ok to_return
  | child :: todo' =>
      if decide (child ∈ seen) then chains_loop m fuel todo' seen to_return
      else
        '(chain, seen') ← chain_from m fuel child seen;
        chains_loop m fuel todo' seen' (to_return ++ [chain])
  end.

Definition chains_of (m : t) (fuel : nat) (snarl : option ptr) :
    result (list (list nat)) :=
  cs ← children_of m snarl;
  chains_loop m fuel cs ∅ [].

(** *** flip *)

(** [m[k]] on a map: the mapped value, which is value-initialised and
    inserted when the key is absent. *)
Definition subscript {K V} `{Countable K} (d : V) (k : K) (m : gmap K V) :
    V * gmap K V :=
  match m !! k with
  | Some v => (v, m)
  | None => (d, <[k := d]> m)
  end.

(** [m[new_key] = m[old_key]; m.erase(old_key);] *)
Definition rekey {K V} `{Countable K} (d : V) (old_key new_key : K)
    (m : gmap K V) : gmap K V :=
  let '(v, m1) := subscript d old_key m in
  let '(_, m2) := subscript d new_key m1 in
  delete old_key (<[new_key := v]> m2).

(** The record with its start and end swapped and reversed. *)
Definition flipped (to_flip : Snarl) : Snarl :=
  let start_id := node_id (start to_flip) in
  let start_orientation := backward (start to_flip) in
  let to_flip :=
    set_start (set_backward (negb (backward (end_ to_flip)))
                 (set_node_id (node_id (end_ to_flip)) (start to_flip)))
              to_flip in
  set_end (set_backward (negb start_orientation)
             (set_node_id start_id (end_ to_flip)))
          to_flip.

(** A pointer is its record's position, so the alignment test of the source
    always passes; a pointer outside the store has no record to flip. *)
Definition flip (m : t) (snarl : ptr) : result t :=
  to_flip ← deref (snarls m) snarl;
  let old_key := key_form to_flip in
  let new_key := key_form (flipped to_flip) in
  Ok (Build (<[snarl := flipped to_flip]> (snarls m))
            (roots m)
            (rekey [] old_key new_key (children m))
            (rekey None old_key new_key (parent m))
            (snarl_into m)
            (rekey 0 old_key new_key (index_of m))).

(** *** Contents of a snarl (snarls.cpp, lines 465-745)

    The state of the depth-first search: the stack, the nodes already
    stacked, and the two sets being returned.  A [Node*] of the graph is
    modelled by the id of its node. *)
Record search : Type := Build_search {
  stack : list Z;
  already_stacked : gset Z;
  nodes : gset Z;
  edges : gset Edge }.

Definition push_new (node : Z) (st : search) : search :=
  if decide (node ∈ already_stacked st) then st
  else Build_search (node :: stack st) ({[node]} ∪ already_stacked st)
                    (nodes st) (edges st).

Definition insert_edge (edge : Edge) (st : search) : search :=
  Build_search (stack st) (already_stacked st) (nodes st) ({[edge]} ∪ edges st).

Definition insert_node (node : Z) (st : search) : search :=
  Build_search (stack st) (already_stacked st) ({[node]} ∪ nodes st) (edges st).

Definition pop (st : search) : search :=
  Build_search (tail (stack st)) (already_stacked st) (nodes st) (edges st).

(** A loop over a vector whose body may throw. *)
Fixpoint for_each {A S} (body : A → S → result S) (l : list A) (st : S) :
    result S :=
  match l with
  | [] => Ok st
  | x :: l' => st' ← body x st; for_each body l' st'
  end.

(** The far end of an edge that points into the snarl is stacked unless already seen, and the
    edge is added to the result. *)
Definition take_edge (graph : VG) (far : id_t) (edge : Edge) (st : search) :
    result search :=
  node ← get_node graph far;
  Ok (insert_edge edge (push_new node st)).

Definition from_start_boundary (graph : VG) (snarl : Snarl) (edge : Edge)
    (st : search) : result search :=
  if bool_decide (from edge = node_id (start snarl))
     && bool_decide (from_start edge = backward (start snarl))
  then take_edge graph (to edge) edge st
  else if bool_decide (to edge = node_id (start snarl))
          && bool_decide (to_end edge ≠ backward (start snarl))
  then take_edge graph (from edge) edge st
  else Ok st.

Definition from_end_boundary (graph : VG) (snarl : Snarl) (edge : Edge)
    (st : search) : result search :=
  if bool_decide (from edge = node_id (end_ snarl))
     && bool_decide (from_start edge ≠ backward (end_ snarl))
  then take_edge graph (to edge) edge st
  else if bool_decide (to edge = node_id (end_ snarl))
          && bool_decide (to_end edge = backward (end_ snarl))
  then take_edge graph (from edge) edge st
  else Ok st.

(** Everything before the search loop, which is the same in both
    functions. *)
Definition seed (graph : VG) (snarl : Snarl) (include_boundary_nodes : bool) :
    result search :=
  start_node ← get_node graph (node_id (start snarl));
  end_node ← get_node graph (node_id (end_ snarl));
  let st := Build_search [] ({[end_node]} ∪ ({[start_node]} ∪ ∅)) ∅ ∅ in
  let st := if include_boundary_nodes
            then insert_node end_node (insert_node start_node st) else st in
  st ← for_each (from_start_boundary graph snarl) (edges_of_node graph start_node) st;
  for_each (from_end_boundary graph snarl) (edges_of_node graph end_node) st.

(** The search loop: [visit] is its body after the pop. *)
Fixpoint dfs (visit : Z → search → result search) (fuel : nat) (st : search) :
    result search :=
  match stack st with
  | [] => Ok st
  | node :: _ =>
      match fuel with
      | 0 => Err out_of_fuel
      | S fuel' => st' ← visit node (pop st); dfs visit fuel' st'
      end
  end.

(** Stacking the node on the other side of a child snarl. *)
Definition stack_opposite (m : t) (graph : VG) (node : Z) (forward : bool)
    (child : option nat) (st : search) : result search :=
  match child with
  | None => Ok st
  | Some c =>
      cs ← deref (snarls m) c;
      let other_id :=
        if forward then
          if bool_decide (node_id (start cs) = node)
          then node_id (end_ cs) else node_id (start cs)
        else
          if bool_decide (node_id (end_ cs) = node)
          then node_id (start cs) else node_id (end_ cs) in
      opposite_node ← get_node graph other_id;
      Ok (push_new opposite_node st)
  end.

Definition shallow_edge (graph : VG) (node : Z)
    (forward_snarl backward_snarl : option nat) (edge : Edge) (st : search) :
    result search :=
  if bool_decide (from edge = node) then
    if (from_start edge && bool_decide (backward_snarl = None))
       || (negb (from_start edge) && bool_decide (forward_snarl = None))
    then
      let st := insert_edge edge st in
      next_node ← get_node graph (to edge);
      Ok (push_new next_node st)
    else Ok st
  else
    if (to_end edge && bool_decide (forward_snarl = None))
       || (negb (to_end edge) && bool_decide (backward_snarl = None))
    then
      let st := insert_edge edge st in
      next_node ← get_node graph (from edge);
      Ok (push_new next_node st)
    else Ok st.

Definition shallow_visit (m : t) (graph : VG) (node : Z) (st : search) :
    result search :=
  let st := insert_node node st in
  let forward_snarl := into_which_snarl m node false in
  let backward_snarl := into_which_snarl m node true in
  st ← stack_opposite m graph node true forward_snarl st;
  st ← stack_opposite m graph node false backward_snarl st;
  for_each (shallow_edge graph node forward_snarl backward_snarl)
           (edges_of_node graph node) st.

Definition deep_edge (graph : VG) (node : Z) (edge : Edge) (st : search) :
    result search :=
  let st := insert_edge edge st in
  next_node ← (if bool_decide (from edge = node) then get_node graph (to edge)
               else get_node graph (from edge));
  Ok (push_new next_node st).

Definition deep_visit (graph : VG) (node : Z) (st : search) : result search :=
  let st := insert_node node st in
  for_each (deep_edge graph node) (edges_of_node graph node) st.

(** The loop runs once for each node that is ever stacked, and a node is
    stacked at most once, so that as many rounds as the graph has nodes are
    enough (see [contents_terminate]). *)
Definition shallow_contents (m : t) (snarl : ptr) (graph : VG)
    (include_boundary_nodes : bool) : result (gset Z * gset Edge) :=
  s ← deref (snarls m) snarl;
  st ← seed graph s include_boundary_nodes;
  st ← dfs (shallow_visit m graph) (size (node_by_id graph)) st;
  Ok (nodes st, edges st).

Definition deep_contents (m : t) (snarl : ptr) (graph : VG)
    (include_boundary_nodes : bool) : result (gset Z * gset Edge) :=
  s ← deref (snarls m) snarl;
  st ← seed graph s include_boundary_nodes;
  st ← dfs (deep_visit graph) (size (node_by_id graph)) st;
  Ok (nodes st, edges st).

(** *** More queries (snarls.cpp, lines 285-291 and 376-399) *)

Definition is_leaf (m : t) (snarl : ptr) : result bool :=
  s ← deref (snarls m) snarl;
  match children m !! key_form s with
  | Some cs => Ok (bool_decide (length cs = 0))
  | None => Err out_of_range
  end.

Definition is_root (m : t) (snarl : ptr) : result bool :=
  s ← deref (snarls m) snarl;
  match parent m !! key_form s with
  | Some p => Ok (bool_decide (p = None))
  | None => Err out_of_range
  end.

(** The three boundary indexes made on demand: a loop over the store that
    files each record under its keys. *)
Fixpoint boundary_index_from (i : nat) (todo : list Snarl)
    (index : gmap (Z * bool) nat) : gmap (Z * bool) nat :=
  match todo with
  | [] => index
  | snarl :: todo' =>
      boundary_index_from (S i) todo'
        (<[end_key snarl := i]> (<[start_key snarl := i]> index))
  end.

Definition snarl_boundary_index (m : t) : gmap (Z * bool) nat :=
  boundary_index_from 0 (snarls m) ∅.

Fixpoint end_index_from (i : nat) (todo : list Snarl)
    (index : gmap (Z * bool) nat) : gmap (Z * bool) nat :=
  match todo with
  | [] => index
  | snarl :: todo' => end_index_from (S i) todo' (<[end_key snarl := i]> index)
  end.

Definition snarl_end_index (m : t) : gmap (Z * bool) nat :=
  end_index_from 0 (snarls m) ∅.

Fixpoint start_index_from (i : nat) (todo : list Snarl)
    (index : gmap (Z * bool) nat) : gmap (Z * bool) nat :=
  match todo with
  | [] => index
  | snarl :: todo' =>
      start_index_from (S i) todo' (<[start_key snarl := i]> index)
  end.

Definition snarl_start_index (m : t) : gmap (Z * bool) nat :=
  start_index_from 0 (snarls m) ∅.

(** *** Preorder traversal (snarls.cpp, lines 304-323)

    The list of the snarls the lambda is called on, in order.  The
    recursion of [process] follows the children index; [fuel] bounds its
    depth. *)
Fixpoint process (m : t) (fuel : nat) (parent : ptr) : result (list nat) :=
  match fuel with
  | 0 => Err out_of_fuel
  | S fuel' =>
      cs ← children_of m (Some parent);
      below ← for_each (λ child called,
                 sub ← process m fuel' child; Ok (called ++ sub)) cs [];
      Ok (parent :: below)
  end.

Definition for_each_top_level_snarl (m : t)
    (lambda : ptr → list nat → result (list nat)) : result (list nat) :=
  for_each lambda (roots m) [].

Definition for_each_snarl_preorder (m : t) (fuel : nat) : result (list nat) :=
  for_each_top_level_snarl m (λ root called,
    sub ← process m fuel root; Ok (called ++ sub)).

End SnarlManager.

(** ** Scenarios *)

(** Two siblings [A] = 1 -> 2 and [B] = 2 -> 3 in the snarl [P] = 0 -> 4. *)
Definition snarl_P : Snarl :=
  mk_snarl ULTRABUBBLE (node_visit 0 false) (node_visit 4 false) None.
Definition snarl_A : Snarl :=
  mk_snarl ULTRABUBBLE (node_visit 1 false) (node_visit 2 false) (Some snarl_P).
Definition snarl_B : Snarl :=
  mk_snarl ULTRABUBBLE (node_visit 2 false) (node_visit 3 false) (Some snarl_P).
Definition two_siblings : SnarlManager.t :=
  SnarlManager.make [snarl_P; snarl_A; snarl_B].

(** A single top-level unary snarl on node 1. *)
Definition snarl_U : Snarl :=
  mk_snarl UNARY (node_visit 1 false) (node_visit 1 true) None.
Definition one_unary : SnarlManager.t := SnarlManager.make [snarl_U].

Definition snarl_visit (s : Snarl) (b : bool) : Visit :=
  set_backward b (transfer_to_visit s default_Visit).

(** ** The net graph's edge iteration (snarls.cpp, lines 1082-1421) *)

(** Modelled from the spec: the interface [HandleGraph] of the backing graph
    is not among the sources.  A graph converts between handles and ids with
    orientations, flips a handle, and its [follow_edges] calls a visitor on
    each adjacent handle, stops when the visitor returns false, and returns
    false iff it stopped early.  [adjacent] lists the handles in the order
    the graph visits them. *)
Module HandleGraph.
Record t (handle_t : Type) : Type := Build {
  get_handle : id_t → bool → handle_t;
  get_id : handle_t → id_t;
  get_is_reverse : handle_t → bool;
  flip : handle_t → handle_t;
  adjacent : handle_t → bool → list handle_t }.
Arguments get_handle {handle_t} _ _ _.
Arguments get_id {handle_t} _ _.
Arguments get_is_reverse {handle_t} _ _.
Arguments flip {handle_t} _ _.
Arguments adjacent {handle_t} _ _ _.
End HandleGraph.

(** A visitor [bool(const handle_t&)] that may keep state of type [S]. *)
Fixpoint visit_until {A S} (visitor : A → S → bool * S) (l : list A) (s : S) :
    bool * S :=
  match l with
  | [] => (true, s)
  | x :: l' =>
      let '(go_on, s') := visitor x s in
      if go_on : bool then visit_until visitor l' s' else (false, s')
  end.

(** [graph->follow_edges(handle, go_left, visitor)]. *)
Definition graph_follow_edges {handle_t S} (graph : HandleGraph.t handle_t)
    (handle : handle_t) (go_left : bool) (visitor : handle_t → S → bool * S)
    (s : S) : bool * S :=
  visit_until visitor (HandleGraph.adjacent graph handle go_left) s.

Module NetGraph.
Section net_graph.
Context {handle_t : Type} `{Countable handle_t}.

Record t : Type := Build {
  graph : HandleGraph.t handle_t;
  start : handle_t;
  end_ : handle_t;
  use_internal_connectivity : bool;
  unary_boundaries : gset handle_t;
  chain_ends_by_start : gmap handle_t handle_t;
  chain_end_rewrites : gmap handle_t handle_t;
  connectivity : gmap Z (bool * bool * bool) }.

(** The handle an edge is reported as: the start of a chain instead of its
    end. *)
Definition real_handle (ng : t) (other : handle_t) : handle_t :=
  match chain_end_rewrites ng !! other with
  | Some chain_start => chain_start
  | None =>
      match chain_end_rewrites ng !! HandleGraph.flip (graph ng) other with
      | Some chain_start => HandleGraph.flip (graph ng) chain_start
      | None => other
      end
  end.

Section follow_edges.
Context {S : Type} (iteratee : handle_t → S → bool * S).

(** The second half of both lambdas; the state is the set [seen] and the
    state of the iteratee. *)
Definition report (real : handle_t) (st : gset handle_t * S) :
    bool * (gset handle_t * S) :=
  if decide (real ∈ st.1) then (true, st)
  else
    let '(go_on, s') := iteratee real st.2 in
    (go_on, ({[real]} ∪ st.1, s')).

Definition handle_edge (ng : t) (other : handle_t) :
    gset handle_t * S → bool * (gset handle_t * S) :=
  report (real_handle ng other).

Definition flip_and_handle_edge (ng : t) (other : handle_t) :
    gset handle_t * S → bool * (gset handle_t * S) :=
  report (HandleGraph.flip (graph ng) (real_handle ng other)).

(** [if (c) { if (!call) return false; }] followed by [rest]. *)
Definition guarded {St} (c : bool) (call rest : St → bool * St) (st : St) :
    bool * St :=
  if c then
    let '(go_on, st') := call st in
    if go_on : bool then rest st' else (false, st')
  else rest st.

Definition return_true {St} (st : St) : bool * St := (true, st).

Definition at_bound (ng : t) (handle : handle_t) (go_left : bool) : bool :=
  (bool_decide (handle = end_ ng) && negb go_left)
  || (bool_decide (handle = HandleGraph.flip (graph ng) (end_ ng)) && go_left)
  || (bool_decide (handle = HandleGraph.flip (graph ng) (start ng)) && negb go_left)
  || (bool_decide (handle = start ng) && go_left).

(** The case of a chain: [forward] when the handle is the start of the
    chain, and not when the flipped handle is; [chain_end] is what
    [chain_ends_by_start] has for that start. *)
Definition chain_edges (ng : t) (handle : handle_t) (go_left : bool)
    (forward : bool) (chain_end : handle_t) (conn : bool * bool * bool) :
    gset handle_t * S → bool * (gset handle_t * S) :=
  let '(connected_start_start, connected_end_end, connected_start_end) := conn in
  let g := graph ng in
  if forward then
      if go_left then
        guarded connected_end_end
          (graph_follow_edges g chain_end false (flip_and_handle_edge ng))
          (guarded connected_start_end
             (graph_follow_edges g handle true (handle_edge ng))
             return_true)
      else
        guarded connected_start_start
          (graph_follow_edges g handle true (flip_and_handle_edge ng))
          (guarded connected_start_end
             (graph_follow_edges g chain_end false (handle_edge ng))
             return_true)
  else
      if go_left then
        guarded connected_start_start
          (graph_follow_edges g handle false (flip_and_handle_edge ng))
          (guarded connected_start_end
             (graph_follow_edges g chain_end false (flip_and_handle_edge ng))
             return_true)
      else
        guarded connected_end_end
          (graph_follow_edges g chain_end false (handle_edge ng))
          (guarded connected_start_end
             (graph_follow_edges g handle false (handle_edge ng))
             return_true).

(** The case of a unary child. *)
Definition unary_edges (ng : t) (handle : handle_t) (go_left : bool)
    (conn : bool * bool * bool) :
    gset handle_t * S → bool * (gset handle_t * S) :=
  let '(connected_start_start, connected_end_end, connected_start_end) := conn in
  let g := graph ng in
  let any := connected_start_start || connected_end_end || connected_start_end in
  if decide (handle ∈ unary_boundaries ng) then
    if go_left then
      guarded (negb (use_internal_connectivity ng))
        (graph_follow_edges g handle true (handle_edge ng)) return_true
    else
      guarded any
        (graph_follow_edges g handle true (flip_and_handle_edge ng)) return_true
  else
    if go_left then
      guarded any
        (graph_follow_edges g handle false (handle_edge ng)) return_true
    else
      guarded (negb (use_internal_connectivity ng))
        (graph_follow_edges g handle false (flip_and_handle_edge ng)) return_true.

(** [connectivity.at(id)]. *)
Definition connectivity_at (ng : t) (id : id_t) : result (bool * bool * bool) :=
  match connectivity ng !! id with
  | Some conn => Ok conn
  | None => Err out_of_range
  end.

(** The set [seen] starts empty and is dropped at the end of the call. *)
Definition run (body : gset handle_t * S → bool * (gset handle_t * S)) (s : S) :
    bool * S :=
  let '(go_on, st) := body (∅, s) in (go_on, st.2).

Definition follow_edges (ng : t) (handle : handle_t) (go_left : bool) (s : S) :
    result (bool * S) :=
  let g := graph ng in
  if at_bound ng handle go_left then Ok (true, s)
  else
    match chain_ends_by_start ng !! handle,
          chain_ends_by_start ng !! HandleGraph.flip g handle with
    | Some chain_end, _ =>
        conn ← connectivity_at ng (HandleGraph.get_id g handle);
        Ok (run (chain_edges ng handle go_left true chain_end conn) s)
    | None, Some chain_end =>
        conn ← connectivity_at ng (HandleGraph.get_id g handle);
        Ok (run (chain_edges ng handle go_left false chain_end conn) s)
    | None, None =>
        if decide (handle ∈ unary_boundaries ng
                   ∨ HandleGraph.flip g handle ∈ unary_boundaries ng) then
          conn ← connectivity_at ng (HandleGraph.get_id g handle);
          Ok (run (unary_edges ng handle go_left conn) s)
        else
          Ok (run (graph_follow_edges g handle go_left (handle_edge ng)) s)
    end.

End follow_edges.

(** An iteratee that also writes down each handle it is called on and what
    it answers, most recent first. *)
Definition logged {S} (iteratee : handle_t → S → bool * S) (h : handle_t)
    (st : S * list (handle_t * bool)) : bool * (S * list (handle_t * bool)) :=
  let '(go_on, s') := iteratee h st.1 in
  (go_on, (s', (h, go_on) :: st.2)).

(** *** Construction (snarls.cpp, lines 890-1048) *)

(** Modelled from the spec: [HandleGraph::get_handle(const Visit&)] is
    declared in handle.hpp, which is not among the sources; it is the
    handle of the node of a node visit, in the orientation of the visit. *)
Definition get_handle_of_visit (g : HandleGraph.t handle_t) (visit : Visit) :
    handle_t :=
  HandleGraph.get_handle g (node_id visit) (backward visit).

(** The constructor without children. *)
Definition create (start_visit end_visit : Visit) (g : HandleGraph.t handle_t)
    (use_connectivity : bool) : t :=
  Build g (get_handle_of_visit g start_visit) (get_handle_of_visit g end_visit)
        use_connectivity ∅ ∅ ∅ ∅.

Definition add_unary_child (ng : t) (unary : Snarl) : result t :=
  let snarl_bound :=
    HandleGraph.get_handle (graph ng) (node_id (Snarl_start unary))
                           (backward (Snarl_start unary)) in
  let snarl_id := node_id (Snarl_start unary) in
  _ ← assert (bool_decide (node_id (Snarl_end unary) = snarl_id));
  _ ← assert (bool_decide (backward (Snarl_end unary)
                           = negb (backward (Snarl_start unary))));
  Ok (Build (graph ng) (start ng) (end_ ng) (use_internal_connectivity ng)
            ({[snarl_bound]} ∪ unary_boundaries ng)
            (chain_ends_by_start ng) (chain_end_rewrites ng)
            (<[snarl_id :=
                 if use_internal_connectivity ng
                 then (start_self_reachable unary, end_self_reachable unary,
                       start_end_reachable unary)
                 else (false, false, false)]> (connectivity ng))).

Definition add_chain_child (mem : list Snarl) (ng : t) (chain : Chain) :
    result t :=
  chain_start_handle ← get_handle_of_visit (graph ng) <$> get_start mem chain;
  chain_end_handle ← get_handle_of_visit (graph ng) <$> get_end mem chain;
  conn ← (if use_internal_connectivity ng then chain_connectivity mem chain
          else Ok (false, false, true));
  Ok (Build (graph ng) (start ng) (end_ ng) (use_internal_connectivity ng)
            (unary_boundaries ng)
            (<[chain_start_handle := chain_end_handle]> (chain_ends_by_start ng))
            (<[HandleGraph.flip (graph ng) chain_end_handle :=
                 HandleGraph.flip (graph ng) chain_start_handle]>
               (chain_end_rewrites ng))
            (<[HandleGraph.get_id (graph ng) chain_start_handle := conn]>
               (connectivity ng))).

(** The body of the loop of the constructor that takes the children mixed:
    a chain of one unary snarl is a unary child. *)
Definition add_child (mem : list Snarl) (chain : Chain) (ng : t) : result t :=
  match chain with
  | [only] =>
      f ← deref mem only;
      match type f with
      | UNARY => add_unary_child ng f
      | _ => add_chain_child mem ng chain
      end
  | _ => add_chain_child mem ng chain
  end.

Definition of_mixed_children (mem : list Snarl) (start_visit end_visit : Visit)
    (child_chains_mixed : list Chain) (g : HandleGraph.t handle_t)
    (use_connectivity : bool) : result t :=
  SnarlManager.for_each (add_child mem) child_chains_mixed
    (create start_visit end_visit g use_connectivity).

(** The constructor that takes the chains and the unary snarls apart. *)
Definition of_children (mem : list Snarl) (start_visit end_visit : Visit)
    (child_chains : list Chain) (child_unary_snarls : list nat)
    (g : HandleGraph.t handle_t) (use_connectivity : bool) : result t :=
  ng ← SnarlManager.for_each
         (λ unary ng, u ← deref mem unary; add_unary_child ng u)
         child_unary_snarls (create start_visit end_visit g use_connectivity);
  SnarlManager.for_each (λ chain ng, add_chain_child mem ng chain)
    child_chains ng.

End net_graph.
End NetGraph.

(** ** Tables read by the subcommand sim (subcommand/sim_main.cpp) *)

Module Sim.

(** A [std::string], and an input stream as the characters still to read. *)
Abbreviation text := (list ascii).

Definition tab : ascii := "009"%char.
Definition newline : ascii := "010"%char.
Definition comma : ascii := ","%char.

(** How a call ends: the function returns, or the process exits with a
    status after the message that names the number of columns found. *)
Inductive run (A : Type) : Type :=
  | Returns (a : A)
  | Exits (status : Z) (columns : nat)
  | Out_of_fuel.
Arguments Returns {A} a.
Arguments Exits {A} status columns.
Arguments Out_of_fuel {A}.

(** The characters up to the delimiter, and the stream after it. *)
Fixpoint read_until (delim : ascii) (strm : text) : text * text :=
  match strm with
  | [] => ([], [])
  | c :: strm' =>
      if Ascii.eqb c delim then ([], strm')
      else let '(token, rest) := read_until delim strm' in (c :: token, rest)
  end.

(** [getline(strm, token, delim)]: the token and the stream after it, or
    nothing when no character could be extracted, which fails the stream. *)
Definition getline (delim : ascii) (strm : text) : option (text * text) :=
  match strm with
  | [] => None
  | _ => Some (read_until delim strm)
  end.

(** [while (getline(strm, token, '\t')) tokens.push_back(token)]. *)
Fixpoint tokens_loop (fuel : nat) (strm : text) (tokens : list text) :
    run (list text) :=
  match getline tab strm with
  | None => Returns tokens
  | Some (token, strm') =>
      match fuel with
      | 0 => Out_of_fuel
      | S fuel' => tokens_loop fuel' strm' (tokens ++ [token])
      end
  end.

(** The loop over the lines after the header. *)
Fixpoint lines_loop (fuel : nat) (haplo_tx_in : text)
    (return_val : list (text * text * nat)) : run (list (text * text * nat)) :=
  match getline newline haplo_tx_in with
  | None => Returns return_val
  | Some (line, haplo_tx_in') =>
      match fuel with
      | 0 => Out_of_fuel
      | S fuel' =>
          match tokens_loop fuel line [] with
          | Returns tokens =>
              if decide (length tokens ≠ 5) then Exits 1 (length tokens)
              else
                let haplo_count :=
                  1 + count_occ ascii_dec (nth 4 tokens []) comma in
                lines_loop fuel' haplo_tx_in'
                  (return_val ++ [(nth 0 tokens [], nth 2 tokens [], haplo_count)])
          | Exits status columns => Exits status columns
          | Out_of_fuel => Out_of_fuel
          end
      end
  end.

Definition parse_haplotype_transcript_file (fuel : nat) (haplo_tx_in : text) :
    run (list (text * text * nat)) :=
  let after_header :=
    match getline newline haplo_tx_in with
    | Some (_, haplo_tx_in') => haplo_tx_in'
    | None => haplo_tx_in
    end in
  lines_loop fuel after_header [].

End Sim.

(** ** Vocabulary of the statements *)

(** The positions of the records without a parent, counted from [i]. *)
Fixpoint top_level_from (i : nat) (records : list Snarl) : list nat :=
  match records with
  | [] => []
  | s :: records' =>
      (if has_parent s then [] else [i]) ++ top_level_from (S i) records'
  end.

(** The position of the last record that satisfies [P], counted from [i],
    or [acc] when there is none: what a map holds under a key after a loop
    in which every record satisfying [P] has written its position there. *)
Fixpoint last_writer (P : Snarl → bool) (i : nat) (records : list Snarl)
    (acc : option nat) : option nat :=
  match records with
  | [] => acc
  | s :: records' =>
      last_writer P (S i) records' (if P s then Some i else acc)
  end.

(** The entries of [snarl_into] whose value is the pointer [p]. *)
Definition entries_into (m : SnarlManager.t) (p : nat) : gmap (Z * bool) nat :=
  filter (λ kv, kv.2 = p) (SnarlManager.snarl_into m).

(** A record whose two [snarl_into] keys are one key: it starts and ends on
    the same node, entered in the same orientation. *)
Definition same_entry (s : Snarl) : Prop :=
  SnarlManager.start_key s = SnarlManager.end_key s.

(** A record [s] keeps its entry [k] of [snarl_into] when no later record
    writes to [k]. *)
Definition writes_to (k : Z * bool) (s : Snarl) : bool :=
  bool_decide (SnarlManager.start_key s = k)
  || bool_decide (SnarlManager.end_key s = k).

(** Two outcomes of the content queries that differ by the boundary nodes
    only: equal edges, and nodes that differ by [extra]; or the same
    failure. *)
Definition differ_by_nodes (extra : gset Z)
    (without with_ : result (gset Z * gset Edge)) : Prop :=
  match without, with_ with
  | Ok (n0, e0), Ok (n1, e1) => e1 = e0 ∧ n1 = n0 ∪ extra
  | Err e0, Err e1 => e0 = e1
  | _, _ => False
  end.

(** A search state with the nodes [extra] added to the nodes found. *)
Definition with_nodes (extra : gset Z) (st : SnarlManager.search) :
    SnarlManager.search :=
  SnarlManager.Build_search (SnarlManager.stack st)
    (SnarlManager.already_stacked st) (SnarlManager.nodes st ∪ extra)
    (SnarlManager.edges st).

(** A step of the search that does not look at the nodes found so far. *)
Definition ignores_nodes
    (step : SnarlManager.search → result SnarlManager.search) : Prop :=
  ∀ extra st, step (with_nodes extra st) = with_nodes extra <$> step st.

(** The rounds the search loop can still make: one for each node on the
    stack and one for each node of the graph that was never stacked. *)
Definition rounds_left (graph : VG) (st : SnarlManager.search) : nat :=
  size (node_by_id graph ∖ SnarlManager.already_stacked st)
  + length (SnarlManager.stack st).

(** A step of the search that does not add to the rounds left, and that
    fails, when it does, with something else than a used-up bound. *)
Definition steady (graph : VG)
    (step : SnarlManager.search → result SnarlManager.search) : Prop :=
  ∀ st, match step st with
        | Ok st' => rounds_left graph st' ≤ rounds_left graph st
        | Err e => e ≠ out_of_fuel
        end.

(** A graph for the queries on the two siblings: the nodes 0 to 4 in a row,
    and a second way from 1 to 2 through node 5, inside [A]. *)
Definition row_graph : VG :=
  Build_VG {[0; 1; 2; 3; 4; 5]}%Z
    [Build_Edge 0 1 false false; Build_Edge 1 2 false false;
     Build_Edge 1 5 false false; Build_Edge 5 2 false false;
     Build_Edge 2 3 false false; Build_Edge 3 4 false false]%Z.

(** The state of one call of [follow_edges] on a logged iteratee: the set
    [seen], the state of the iteratee, and the log. *)
Abbreviation log_state handle_t S :=
  (gset handle_t * (S * list (handle_t * bool)))%type.

Section log_vocabulary.
Context {handle_t : Type} `{Countable handle_t} {S : Type}.

(** What holds of the set [seen] and of the log of a logged iteratee after
    a step of [follow_edges] that answered [go_on]: no handle was reported
    twice, every reported handle is in [seen], and every call answered
    true, but for the last one when the step answered false. *)
Definition reported (go_on : bool) (st : log_state handle_t S) : Prop :=
  NoDup (st.2.2.*1)
  ∧ (∀ h, h ∈ st.2.2.*1 → h ∈ st.1)
  ∧ if go_on then Forall (λ c, c.2 = true) st.2.2
    else ∃ h rest, st.2.2 = (h, false) :: rest ∧ Forall (λ c, c.2 = true) rest.

Definition keeps_log
    (step : log_state handle_t S → bool * log_state handle_t S) : Prop :=
  ∀ st, reported true st → reported (step st).1 (step st).2.

(** What a whole call has reported, read off the log, most recent call
    first: no handle twice, every call but the last answered true, and the
    call returns the last answer, or true when there was no call. *)
Definition call_reported (r : bool * (S * list (handle_t * bool))) : Prop :=
  NoDup (r.2.2.*1)
  ∧ (∀ c, c ∈ tail r.2.2 → c.2 = true)
  ∧ r.1 = match r.2.2 with c :: _ => c.2 | [] => true end.

(** A state without its log, and a step on logged states that does what a
    step on plain states does. *)
Definition erase_log (st : log_state handle_t S) : gset handle_t * S :=
  (st.1, st.2.1).

Definition same_step
    (step : gset handle_t * S → bool * (gset handle_t * S))
    (step' : log_state handle_t S → bool * log_state handle_t S) : Prop :=
  ∀ st, (step' st).1 = (step (erase_log st)).1
        ∧ erase_log (step' st).2 = (step (erase_log st)).2.

(** The constructors file the connectivity of a child under the id of its
    start handle, so that [follow_edges] finds it for the handle of a chain
    or of a unary child, in either orientation. *)
Definition connectivity_indexed (ng : @NetGraph.t handle_t _ _) : Prop :=
  ∀ h : handle_t,
    is_Some (NetGraph.chain_ends_by_start ng !! h)
    ∨ is_Some (NetGraph.chain_ends_by_start ng
               !! HandleGraph.flip (NetGraph.graph ng) h)
    ∨ h ∈ NetGraph.unary_boundaries ng
    ∨ HandleGraph.flip (NetGraph.graph ng) h ∈ NetGraph.unary_boundaries ng →
    is_Some (NetGraph.connectivity ng
             !! HandleGraph.get_id (NetGraph.graph ng) h).

(** The outcome of a call on an iteratee, and of the same call on the
    logged iteratee: the same answer and the same state of the iteratee, or
    the same exception. *)
Definition same_call (r : result (bool * S))
    (r' : result (bool * (S * list (handle_t * bool)))) : Prop :=
  match r, r' with
  | Ok x, Ok x' => x.1 = x'.1 ∧ x.2 = x'.2.1
  | Err e, Err e' => e = e'
  | _, _ => False
  end.

End log_vocabulary.

(** The positions, counted from [i], of the records whose parent has the
    key [k]. *)
Fixpoint children_from (k : (Z * bool) * (Z * bool)) (i : nat)
    (records : list Snarl) : list nat :=
  match records with
  | [] => []
  | s :: records' =>
      (if has_parent s
          && bool_decide (SnarlManager.key_form (Snarl_parent s) = k)
       then [i] else [])
      ++ children_from k (S i) records'
  end.

(** A record of the store at one of the positions [cs] has the key [k]. *)
Definition names_key (mem : list Snarl) (k : (Z * bool) * (Z * bool))
    (cs : list nat) : bool :=
  bool_decide (Exists (λ c, SnarlManager.key_form <$> mem !! c = Some k) cs).

(** The node through which a snarl, read from left to right in the
    orientation [b], is entered, and the one through which it is left. *)
Definition entering (s : Snarl) (b : bool) : Z :=
  if b then node_id (end_ s) else node_id (start s).

Definition leaving (s : Snarl) (b : bool) : Z :=
  if b then node_id (start s) else node_id (end_ s).

(** The snarls [rest] to the right of a snarl left through the node
    [shared], each with the orientation an iterator walking right gives
    it. *)
Fixpoint orient_right (mem : list Snarl) (shared : Z) (rest : list nat) :
    list (nat * bool) :=
  match rest with
  | [] => []
  | q :: rest' =>
      match mem !! q with
      | Some sq =>
          let b := bool_decide (node_id (start sq) ≠ shared) in
          (q, b) :: orient_right mem (leaving sq b) rest'
      | None => []
      end
  end.

(** The snarls [rest], nearest first, to the left of a snarl entered
    through the node [shared], each with the orientation an iterator walking
    left gives it. *)
Fixpoint orient_left (mem : list Snarl) (shared : Z) (rest : list nat) :
    list (nat * bool) :=
  match rest with
  | [] => []
  | p :: rest' =>
      match mem !! p with
      | Some sp =>
          let b := bool_decide (node_id (end_ sp) ≠ shared) in
          (p, b) :: orient_left mem (entering sp b) rest'
      | None => []
      end
  end.

Definition forward_list (mem : list Snarl) (chain : list nat) :
    list (nat * bool) :=
  match chain with
  | [] => []
  | p :: rest =>
      match mem !! p, start_backward mem chain with
      | Some sp, Ok sb => (p, sb) :: orient_right mem (leaving sp sb) rest
      | _, _ => []
      end
  end.

Definition reverse_list (mem : list Snarl) (chain : list nat) :
    list (nat * bool) :=
  match rev chain with
  | [] => []
  | q :: rest =>
      match mem !! q, end_backward mem chain with
      | Some sq, Ok eb => (q, eb) :: orient_left mem (entering sq eb) rest
      | _, _ => []
      end
  end.

(** A loop with [break] over a list. *)
Fixpoint fold_break {A B} (body : B → A → result (A * bool)) (l : list B)
    (acc : A) : result A :=
  match l with
  | [] => Ok acc
  | x :: l' =>
      '(acc', stop_now) ← body x acc;
      if stop_now : bool then Ok acc' else fold_break body l' acc'
  end.

(** Two oriented snarls, one after the other from left to right, meet in
    the node they share: when a boundary of the right one is the node the
    left one is left through, the right one is entered through it. *)
Definition meet (mem : list Snarl) (x y : nat * bool) : Prop :=
  ∀ sx sy, mem !! x.1 = Some sx → mem !! y.1 = Some sy →
    node_id (start sy) = leaving sx x.2 ∨ node_id (end_ sy) = leaving sx x.2 →
    entering sy y.2 = leaving sx x.2.

(** The same for a walk to the left: when a boundary of the left one is
    the node the right one is entered through, the left one is left through
    it. *)
Definition meet_left (mem : list Snarl) (y x : nat * bool) : Prop :=
  ∀ sx sy, mem !! x.1 = Some sx → mem !! y.1 = Some sy →
    node_id (start sx) = entering sy y.2 ∨ node_id (end_ sx) = entering sy y.2 →
    leaving sx x.2 = entering sy y.2.

(** Each element of a list stands to the next in the relation [R]. *)
Definition chained {A} (R : A → A → Prop) (l : list A) : Prop :=
  ∀ i x y, l !! i = Some x → l !! S i = Some y → R x y.

(** Whether the snarl at a position of the store can be crossed from start
    to end, and whether one can turn around in it. *)
Definition through (mem : list Snarl) (p : nat) : bool :=
  match mem !! p with Some s => start_end_reachable s | None => false end.

Definition turnaround (mem : list Snarl) (p : nat) : bool :=
  match mem !! p with
  | Some s => start_self_reachable s || end_self_reachable s
  | None => false
  end.

(** A handle graph whose handles are pairs of an id and an orientation. *)
Definition pair_graph (adjacent : Z * bool → bool → list (Z * bool)) :
    HandleGraph.t (Z * bool) :=
  HandleGraph.Build (Z * bool) (λ id is_reverse, (id, is_reverse)) fst snd
    (λ h, (h.1, negb h.2)) adjacent.

(** The nodes 0 to 4 in a row, as a handle graph. *)
Definition row_handle_graph : HandleGraph.t (Z * bool) :=
  pair_graph (λ h go_left,
    if xorb h.2 go_left
    then (if bool_decide (0 < h.1)%Z then [((h.1 - 1)%Z, h.2)] else [])
    else (if bool_decide (h.1 < 4)%Z then [((h.1 + 1)%Z, h.2)] else [])).

Section net_graph_vocabulary.
Context {handle_t : Type} `{Countable handle_t}.

(** The connectivity of every chain start and of every unary boundary is
    filed under the id of the handle. *)
Definition filed (ng : @NetGraph.t handle_t _ _) : Prop :=
  (∀ h, is_Some (NetGraph.chain_ends_by_start ng !! h) →
        is_Some (NetGraph.connectivity ng
                 !! HandleGraph.get_id (NetGraph.graph ng) h))
  ∧ (∀ h, h ∈ NetGraph.unary_boundaries ng →
          is_Some (NetGraph.connectivity ng
                   !! HandleGraph.get_id (NetGraph.graph ng) h)).

(** The two laws of a handle graph that the net graph relies on: a handle
    made for an id has that id, and flipping a handle keeps its id. *)
Definition lawful (g : HandleGraph.t handle_t) : Prop :=
  (∀ id is_reverse,
     HandleGraph.get_id g (HandleGraph.get_handle g id is_reverse) = id)
  ∧ (∀ h, HandleGraph.get_id g (HandleGraph.flip g h) = HandleGraph.get_id g h).


End net_graph_vocabulary.

(** An iteratee that never asks to stop. *)
Definition never_stops {A S} (iteratee : A → S → bool * S) : Prop :=
  ∀ h s, (iteratee h s).1 = true.


(** The net graph of the snarl [P] over the row of nodes, with the chain of
    [A] and [B] as its one child, built without internal connectivity. *)
Definition row_net_graph : @NetGraph.t (Z * bool) _ _ :=
  NetGraph.Build row_handle_graph (0%Z, false) (4%Z, false) false ∅
    {[ (1%Z, false) := (2%Z, false) ]} {[ (2%Z, true) := (1%Z, true) ]}
    {[ 1%Z := (false, false, true) ]}.

(** The iteratee that collects the handles it is called on. *)
Definition collect_handles {A} (h : A) (s : list A) : bool * list A :=
  (true, h :: s).

(** The record at position [q] names the record at position [i] as its
    parent. *)
Definition child_of (records : list Snarl) (q i : nat) : Prop :=
  ∃ r s, records !! q = Some r ∧ records !! i = Some s
         ∧ has_parent r = true
         ∧ SnarlManager.key_form (Snarl_parent r) = SnarlManager.key_form s.

(** Every record that names a parent has that parent in the store, at a
    lower position. *)
Definition parents_first (records : list Snarl) : Prop :=
  ∀ q r, records !! q = Some r → has_parent r = true →
         ∃ i, i < q ∧ child_of records q i.

(** The record at [x] is the record at [p] or below it in the tree. *)
Definition below (records : list Snarl) (x p : nat) : Prop :=
  rtc (child_of records) x p.

(** In the list [l], read after the snarls [seen], every snarl comes after
    its parent. *)
Fixpoint parents_before (records : list Snarl) (seen l : list nat) : Prop :=
  match l with
  | [] => True
  | x :: l' =>
      (∀ i, child_of records x i → i ∈ seen)
      ∧ parents_before records (x :: seen) l'
  end.

(** What a call of [process] on the snarl [p] calls the lambda on. *)
Definition subtree (records : list Snarl) (p : nat) (called : list nat) : Prop :=
  (∀ x, x ∈ called ↔ below records x p)
  ∧ NoDup called
  ∧ ∀ seen, (∀ i, child_of records p i → i ∈ seen) →
            parents_before records seen called.


(** The fields of a line, separated by [sep]. *)
Fixpoint joined (sep : ascii) (fields : list Sim.text) : Sim.text :=
  match fields with
  | [] => []
  | [field] => field
  | field :: fields' => field ++ sep :: joined sep fields'
  end.

(** The columns the tokenizer finds in a line of the fields [fields]: an
    empty last field is not a column. *)
Definition columns (fields : list Sim.text) : list Sim.text :=
  match last fields with
  | Some [] => removelast fields
  | _ => fields
  end.

(** A table: the header and the lines, each ended by a newline. *)
Definition table (header : Sim.text) (lines : list Sim.text) : Sim.text :=
  header ++ Sim.newline :: concat ((λ line, line ++ [Sim.newline]) <$> lines).

(** A row of the table that [vg rna -i] writes: the name of the transcript
    path, the name of the transcript, the haplotypes, and two more
    columns. *)
Record entry : Type := Entry {
  path_name : Sim.text;
  second_column : Sim.text;
  transcript_name : Sim.text;
  fourth_column : Sim.text;
  haplotypes : list Sim.text }.

Definition entry_line (e : entry) : Sim.text :=
  joined Sim.tab [path_name e; second_column e; transcript_name e;
                  fourth_column e; joined Sim.comma (haplotypes e)].

Definition plain (field : Sim.text) : Prop :=
  (Sim.tab ∉ field) ∧ (Sim.newline ∉ field).

(** The fields of an entry hold no tab and no newline, the names of its
    haplotypes no comma, and its list of haplotypes is written with at
    least one character. *)
Definition well_formed (e : entry) : Prop :=
  plain (path_name e) ∧ plain (second_column e) ∧ plain (transcript_name e)
  ∧ plain (fourth_column e)
  ∧ Forall (λ h, plain h ∧ (Sim.comma ∉ h)) (haplotypes e)
  ∧ joined Sim.comma (haplotypes e) ≠ [].

(** What the parser returns for an entry: the name of the transcript path,
    the name of the transcript and the number of haplotypes. *)
Definition read_entry (e : entry) : Sim.text * Sim.text * nat :=
  (path_name e, transcript_name e, length (haplotypes e)).

(** A table with one entry that has two haplotypes. *)
Definition entry_two : entry :=
  Entry ["t"; "1"]%char ["9"]%char ["g"]%char ["-"]%char
        [["h"; "a"]; ["h"; "b"]]%char.

Definition table_two : Sim.text :=
  table ["i"; "d"]%char [entry_line entry_two].

(** Every record of the store is filed in [index_of] under its own key, at
    its own position. *)
Definition own_records (m : SnarlManager.t) : Prop :=
  ∀ i s, SnarlManager.snarls m !! i = Some s →
         SnarlManager.index_of m !! SnarlManager.key_form s = Some i.

(** The managers that [build_indexes] has built from the records and in
    which snarls were then flipped, each flip giving the flipped snarl a key
    that no record of the store has. *)
Inductive flipped_from (records : list Snarl) : SnarlManager.t → Prop :=
  | flipped_from_built : flipped_from records (SnarlManager.make records)
  | flipped_from_flip m p s m' :
      flipped_from records m →
      SnarlManager.snarls m !! p = Some s →
      (∀ r, r ∈ SnarlManager.snarls m →
            SnarlManager.key_form r
            ≠ SnarlManager.key_form (SnarlManager.flipped s)) →
      SnarlManager.flip m p = Ok m' →
      flipped_from records m'.

(** A second record with the boundaries of [A], of another type. *)
Definition snarl_A_twin : Snarl :=
  mk_snarl UNCLASSIFIED (node_visit 1 false) (node_visit 2 false)
           (Some snarl_P).

(** The row of nodes with one more node, 5, whose right side is joined to
    both sides of node 1 and to both sides of node 3.  What is to the left
    of a handle is what is to the right of the flipped handle, flipped. *)
Definition hub_handle_graph : HandleGraph.t (Z * bool) :=
  pair_graph (λ h go_left,
    let out := if go_left then (h.1, negb h.2) else h in
    let right :=
      if bool_decide (out = (5%Z, false))
      then [(1%Z, false); (3%Z, true); (1%Z, true); (3%Z, false)]
      else if bool_decide (out.1 = 5%Z) then []
      else HandleGraph.adjacent row_handle_graph out false
           ++ (if bool_decide (out.1 = 1%Z ∨ out.1 = 3%Z)
               then [(5%Z, true)] else []) in
    if go_left then (λ other, (other.1, negb other.2)) <$> right else right).

(** The net graph of the snarl [P] over that graph, with the chain of [A]
    and [B] as its one child: node 2 is filed as the end of the chain. *)
Definition hub_net_graph : @NetGraph.t (Z * bool) _ _ :=
  NetGraph.Build hub_handle_graph (0%Z, false) (4%Z, false) true ∅
    {[ (1%Z, false) := (2%Z, false) ]} {[ (2%Z, true) := (1%Z, true) ]}
    {[ 1%Z := (false, false, true) ]}.

(** The snarl 1 -> 3 in [P]: the chain of [A] and [B] as one snarl. *)
Definition snarl_AB : Snarl :=
  mk_snarl ULTRABUBBLE (node_visit 1 false) (node_visit 3 false) (Some snarl_P).

(** * Properties *)

Import SnarlManager.

(** ** Tree queries *)

(** The top-level snarls of a freshly built manager are the records without
    a parent, in the order of the store. *)
Lemma first_pass_snarls i todo m : snarls (first_pass i todo m) = snarls m.
Proof.
  revert i m. induction todo as [|s todo IH]; intros i m; simpl; [done|].
  rewrite IH. unfold index_record. by destruct (has_parent s).
Qed.

Lemma second_pass_snarls i todo m : snarls (second_pass i todo m) = snarls m.
Proof.
  revert i m. induction todo as [|s todo IH]; intros i m; simpl; [done|].
  rewrite IH. unfold link_record. by destruct (children m !! key_form s).
Qed.

Lemma second_pass_roots i todo m : roots (second_pass i todo m) = roots m.
Proof.
  revert i m. induction todo as [|s todo IH]; intros i m; simpl; [done|].
  rewrite IH. unfold link_record. by destruct (children m !! key_form s).
Qed.

Lemma second_pass_index_of i todo m :
  index_of (second_pass i todo m) = index_of m.
Proof.
  revert i m. induction todo as [|s todo IH]; intros i m; simpl; [done|].
  rewrite IH. unfold link_record. by destruct (children m !! key_form s).
Qed.

Lemma second_pass_snarl_into i todo m :
  snarl_into (second_pass i todo m) = snarl_into m.
Proof.
  revert i m. induction todo as [|s todo IH]; intros i m; simpl; [done|].
  rewrite IH. unfold link_record. by destruct (children m !! key_form s).
Qed.

Lemma snarls_make records : snarls (make records) = records.
Proof.
  unfold make, build_indexes. by rewrite second_pass_snarls, first_pass_snarls.
Qed.

Lemma first_pass_roots i todo m :
  roots (first_pass i todo m) = roots m ++ top_level_from i todo.
Proof.
  revert i m. induction todo as [|s todo IH]; intros i m; simpl.
  { by rewrite app_nil_r. }
  rewrite IH. unfold index_record.
  destruct (has_parent s); simpl; [done|]. by rewrite <-app_assoc.
Qed.

Lemma roots_make records : roots (make records) = top_level_from 0 records.
Proof.
  unfold make, build_indexes. by rewrite second_pass_roots, first_pass_roots.
Qed.

Lemma elem_of_top_level_from i records p :
  p ∈ top_level_from i records ↔
  ∃ s, i ≤ p ∧ records !! (p - i) = Some s ∧ has_parent s = false.
Proof.
  revert i. induction records as [|s records IH]; intros i; simpl.
  { split; [by intros ?%elem_of_nil|]. intros (s & _ & Hs & _).
    by rewrite lookup_nil in Hs. }
  rewrite elem_of_app, IH. split.
  - intros [Hp|(s' & Hle & Hs' & Hpar)].
    + destruct (has_parent s) eqn:Hpar; [by apply elem_of_nil in Hp|].
      apply list_elem_of_singleton in Hp as ->. exists s.
      by rewrite Nat.sub_diag.
    + exists s'. split; [lia|]. split; [|done].
      by replace (p - i) with (S (p - S i)) by lia.
  - intros (s' & Hle & Hs' & Hpar).
    destruct (decide (p = i)) as [->|Hne].
    + left. rewrite Nat.sub_diag in Hs'. simpl in Hs'. simplify_eq.
      rewrite Hpar. by apply list_elem_of_singleton.
    + right. exists s'. split; [lia|]. split; [|done].
      by replace (p - i) with (S (p - S i)) in Hs' by lia.
Qed.

(** C10: [children_of] with a null pointer does not fail and returns the
    sequence [top_level_snarls] returns, the root snarls; after the indexes
    are built these are the records without a parent, in store order. *)
Theorem children_of_null_is_top_level :
  (∀ m : SnarlManager.t,
     children_of m None = Ok (top_level_snarls m)
     ∧ top_level_snarls m = roots m)
  ∧ (∀ (records : list Snarl) (p : nat),
       p ∈ top_level_snarls (make records) ↔
       ∃ s, records !! p = Some s ∧ has_parent s = false).
Proof.
  split; [done|]. intros records p.
  unfold top_level_snarls. rewrite roots_make, elem_of_top_level_from.
  rewrite Nat.sub_0_r. split.
  - intros (s & _ & ? & ?). eauto.
  - intros (s & ? & ?). exists s. split; [lia|done].
Qed.

(** ** Chain boundary helpers *)

(** On a chain of one snarl [get_end] is the end of that snarl. *)
Lemma get_end_singleton mem p s :
  mem !! p = Some s → get_end mem [p] = Ok (end_ s).
Proof. intros Hp. unfold get_end, end_backward, deref. simpl. by rewrite Hp. Qed.

(** [get_end] reads the first snarl of the chain, whatever its length. *)
Lemma get_end_reads_front mem chain v :
  get_end mem chain = Ok v →
  ∃ p f, chain !! 0 = Some p ∧ mem !! p = Some f
         ∧ (v = end_ f ∨ v = reverse (start f)).
Proof.
  unfold get_end. destruct (end_backward mem chain) as [eb|]; [|done].
  simpl. destruct chain as [|p chain]; [done|]. simpl. unfold deref.
  destruct (mem !! p) as [f|] eqn:Hp; [|done]. simpl. intros [= <-].
  exists p, f. destruct eb; auto.
Qed.

(** C2: on the chain [A; B] of the two siblings 1 -> 2 and 2 -> 3 the end of
    the last snarl is not shared with [A], so that [end_backward] is false
    and the end visit of the last snarl [B] is node 3; [get_end] returns
    node 2, the end of the first snarl [A]. *)
Theorem get_end_returns_end_of_first :
  end_backward (snarls two_siblings) [1; 2] = Ok false
  ∧ (end_ <$> (back [1; 2] ≫= deref (snarls two_siblings)))
    = Ok (node_visit 3 false)
  ∧ get_end (snarls two_siblings) [1; 2] = Ok (node_visit 2 false).
Proof. by vm_compute. Qed.

(** ** Chain walking *)


(** With a neighbour, it builds the visit to it and reaches the end of its
    body without returning it. *)
Lemma next_in_chain_neighbor m v p s n nx :
  node_id v = 0%Z → manage m (snarl v) = Ok p → snarls m !! p = Some s →
  out_neighbor m p (backward v) = Ok (Some n) → snarls m !! n = Some nx →
  next_in_chain m v = Err (missing_return (visit_to_next (backward v) s nx)).
Proof.
  intros Hid Hp Hs Hn Hnx. unfold next_in_chain, deref.
  rewrite Hid, Hp. simpl. rewrite Hs. simpl. rewrite Hn. simpl.
  by rewrite Hnx.
Qed.

(** The visit that is built is the one the walk needs: the boundaries of
    the neighbour, and the orientation in which the shared node is
    entered. *)
Lemma visit_to_next_fields b s nx :
  has_snarl (visit_to_next b s nx) = true
  ∧ start (snarl (visit_to_next b s nx)) = start nx
  ∧ end_ (snarl (visit_to_next b s nx)) = end_ nx
  ∧ backward (visit_to_next b s nx)
    = (if b then bool_decide (node_id (end_ nx) = node_id (start s))
       else negb (bool_decide (node_id (start nx) = node_id (end_ s)))).
Proof. by destruct b. Qed.

(** A visit that [next_in_chain] returns is empty. *)
Lemma next_in_chain_returns_empty m v w :
  next_in_chain m v = Ok w → w = default_Visit.
Proof.
  unfold next_in_chain.
  destruct (assert _); [|done]. simpl.
  destruct (manage m (snarl v)) as [p|]; [|done]. simpl.
  destruct (deref (snarls m) p) as [h|]; [|done]. simpl.
  destruct (out_neighbor m p (backward v)) as [[n|]|]; simpl; [|congruence|done].
  by destruct (deref (snarls m) n).
Qed.

(** So is the composition the round trip of a visit with a neighbour
    starts with. *)
Lemma prev_of_next_neighbor m v p s n nx :
  node_id v = 0%Z → manage m (snarl v) = Ok p → snarls m !! p = Some s →
  out_neighbor m p (backward v) = Ok (Some n) → snarls m !! n = Some nx →
  (next_in_chain m v ≫= prev_in_chain m)
  = Err (missing_return (visit_to_next (backward v) s nx)).
Proof.
  intros Hid Hp Hs Hn Hnx.
  by rewrite (next_in_chain_neighbor m v p s n nx).
Qed.

Lemma prev_in_chain_returns_empty m v w :
  prev_in_chain m v = Ok w → w = reverse default_Visit.
Proof.
  unfold prev_in_chain.
  destruct (next_in_chain m (reverse v)) as [w'|] eqn:Hnext; [|done].
  apply next_in_chain_returns_empty in Hnext as ->. by intros [= <-].
Qed.

(** A walk of [chains_of] that starts on a visit without a snarl adds
    nothing. *)
Lemma walk_left_no_snarl m fuel w chain seen :
  has_snarl w = false → walk_left m fuel w chain seen = Ok (chain, seen).
Proof. intros Hw. destruct fuel; simpl; by rewrite Hw. Qed.

Lemma walk_right_no_snarl m fuel w chain seen :
  has_snarl w = false → walk_right m fuel w chain seen = Ok (chain, seen).
Proof. intros Hw. destruct fuel; simpl; by rewrite Hw. Qed.

(** The chains that [chains_of] returns, when it returns, have one snarl
    each: a walk that finds a neighbour does not come back. *)
Lemma chain_from_Ok m fuel child seen r :
  chain_from m fuel child seen = Ok r → r = ([child], {[child]} ∪ seen).
Proof.
  unfold chain_from. destruct (deref (snarls m) child) as [c|]; [|done]. simpl.
  destruct (prev_in_chain m _) as [wl|] eqn:Hl; [|done]. simpl.
  apply prev_in_chain_returns_empty in Hl as ->.
  rewrite walk_left_no_snarl by done. simpl.
  destruct (next_in_chain m _) as [wr|] eqn:Hr; [|done]. simpl.
  apply next_in_chain_returns_empty in Hr as ->.
  rewrite walk_right_no_snarl by done. by intros [= <-].
Qed.

Lemma chains_loop_Ok m fuel todo seen to_return r :
  NoDup todo → (∀ c, c ∈ todo → c ∉ seen) →
  chains_loop m fuel todo seen to_return = Ok r →
  r = to_return ++ ((λ c, [c]) <$> todo).
Proof.
  revert seen to_return.
  induction todo as [|child todo IH]; intros seen to_return Hnd Hseen; simpl.
  { intros [= <-]. by rewrite app_nil_r. }
  apply NoDup_cons in Hnd as [Hchild Hnd].
  rewrite decide_False by (apply Hseen; by left).
  destruct (chain_from m fuel child seen) as [[chain seen']|] eqn:Hchain;
    [|done].
  apply chain_from_Ok in Hchain as [= -> ->]. simpl.
  intros Hr. apply IH in Hr; [|done|].
  - by rewrite Hr, <-app_assoc.
  - intros c Hc [->%elem_of_singleton|Hin]%elem_of_union; [done|].
    apply (Hseen c); [by right|done].
Qed.

Lemma chains_of_Ok m fuel snarl cs chains :
  children_of m snarl = Ok cs → NoDup cs →
  chains_of m fuel snarl = Ok chains → chains = (λ c, [c]) <$> cs.
Proof.
  intros Hcs Hnd. unfold chains_of. rewrite Hcs. simpl.
  intros Hr. apply chains_loop_Ok in Hr; [done..|].
  intros c _. apply not_elem_of_empty.
Qed.

(** C1: in the store of the two siblings the visit to [A] forward leaves
    through node 2, which [B] shares; [next_in_chain] builds the forward
    visit to [B] and ends without returning it, so that the call has no
    value. *)
Theorem next_in_chain_missing_return :
  manage two_siblings (snarl (snarl_visit snarl_A false)) = Ok 1
  ∧ out_neighbor two_siblings 1 false = Ok (Some 2)
  ∧ next_in_chain two_siblings (snarl_visit snarl_A false)
    = Err (missing_return (snarl_visit snarl_B false))
  ∧ is_Ok (next_in_chain two_siblings (snarl_visit snarl_A false)) = false.
Proof. by vm_compute. Qed.

(** C6: in the store of the two siblings the visit to [A] forward has the
    neighbour [B]; [next_in_chain] has no value there, and
    [prev_in_chain] of it has none either. *)
Theorem prev_of_next_has_no_value :
  out_neighbor two_siblings 1 false = Ok (Some 2)
  ∧ (next_in_chain two_siblings (snarl_visit snarl_A false)
     ≫= prev_in_chain two_siblings)
    = Err (missing_return (snarl_visit snarl_B false)).
Proof. by vm_compute. Qed.

(** C5: for the parent [P] of the two siblings, [chains_of] reaches the
    missing return of [next_in_chain] on the first child and produces no
    chains, however long the walks are allowed to be. *)
Theorem chains_of_has_no_value :
  children_of two_siblings (Some 0) = Ok [1; 2]
  ∧ ∀ fuel : nat,
      chains_of two_siblings fuel (Some 0)
      = Err (missing_return (snarl_visit snarl_B false)).
Proof. split; [by vm_compute|]. intros [|fuel]; by vm_compute. Qed.

(** ** flip *)

Lemma flipped_flipped s : flipped (flipped s) = s.
Proof.
  destruct s as [ty [sid ssn sb] [eid esn eb] par ssr esr ser].
  unfold flipped, set_start, set_end, set_backward, set_node_id. simpl.
  by rewrite !negb_involutive.
Qed.

Lemma key_form_flipped s :
  key_form (flipped s)
  = ((node_id (end_ s), negb (backward (end_ s))),
     (node_id (start s), negb (backward (start s)))).
Proof. done. Qed.

(** Flipping exchanges the two keys of the record in [snarl_into]. *)
Lemma start_key_flipped s : start_key (flipped s) = end_key s.
Proof. done. Qed.

Lemma end_key_flipped s : end_key (flipped s) = start_key s.
Proof. unfold end_key, start_key. simpl. by rewrite negb_involutive. Qed.

(** The key of a record is unchanged by the flip exactly when the record
    starts and ends on one node in opposite orientations, as a unary snarl
    does. *)
Lemma key_form_flipped_same s :
  key_form (flipped s) = key_form s ↔
  node_id (start s) = node_id (end_ s)
  ∧ backward (end_ s) = negb (backward (start s)).
Proof.
  rewrite key_form_flipped. unfold key_form. split.
  - intros [= -> Hb _ _]. split; [done|]. by destruct (backward (end_ s)), (backward (start s)).
  - intros [-> ->]. by rewrite negb_involutive.
Qed.

Section rekey.
Context {K V : Type} `{Countable K}.
Implicit Types (m : gmap K V) (d v : V).

Lemma rekey_same d k m : rekey d k k m = delete k m.
Proof.
  unfold rekey, subscript. destruct (m !! k) as [v|] eqn:Hk.
  - rewrite Hk. by rewrite delete_insert_eq.
  - rewrite lookup_insert_eq. by rewrite delete_insert_eq, delete_insert_eq.
Qed.

Lemma rekey_ne d old new m :
  old ≠ new →
  rekey d old new m = delete old (<[new := default d (m !! old)]> m).
Proof.
  intros Hne. unfold rekey, subscript.
  destruct (m !! old) as [v|] eqn:Hold; simpl.
  - by destruct (m !! new); [|rewrite insert_insert_eq].
  - rewrite lookup_insert_ne by done.
    destruct (m !! new); [|rewrite insert_insert_eq];
      rewrite insert_insert_ne by done;
      by rewrite delete_insert_eq.
Qed.

Lemma lookup_rekey_other d old new m k :
  k ≠ old → k ≠ new → rekey d old new m !! k = m !! k.
Proof.
  intros Ho Hn. destruct (decide (old = new)) as [->|Hne].
  - rewrite rekey_same. by rewrite lookup_delete_ne.
  - rewrite rekey_ne by done.
    by rewrite lookup_delete_ne, lookup_insert_ne.
Qed.

Lemma lookup_rekey_new d old new m :
  old ≠ new → rekey d old new m !! new = Some (default d (m !! old)).
Proof.
  intros Hne. rewrite rekey_ne by done.
  by rewrite lookup_delete_ne, lookup_insert_eq.
Qed.

Lemma lookup_rekey_old d old new m : rekey d old new m !! old = None.
Proof.
  destruct (decide (old = new)) as [->|Hne].
  - rewrite rekey_same. apply lookup_delete_eq.
  - rewrite rekey_ne by done. apply lookup_delete_eq.
Qed.

(** Moving an entry to a new key and back restores the entry. *)
Lemma lookup_rekey_rekey d old new m v :
  old ≠ new → m !! old = Some v →
  rekey d new old (rekey d old new m) !! old = Some v.
Proof.
  intros Hne Hv. rewrite lookup_rekey_new by done.
  rewrite lookup_rekey_new by done. by rewrite Hv.
Qed.

(** It restores the whole map when the new key was free. *)
Lemma rekey_rekey d old new m v :
  old ≠ new → m !! old = Some v → m !! new = None →
  rekey d new old (rekey d old new m) = m.
Proof.
  intros Hne Hv Hnew. apply map_eq. intros k.
  destruct (decide (k = old)) as [->|Ho].
  { rewrite Hv. by apply lookup_rekey_rekey. }
  destruct (decide (k = new)) as [->|Hn].
  { rewrite Hnew. apply lookup_rekey_old. }
  by rewrite !lookup_rekey_other.
Qed.

End rekey.

(** What one call of [flip] changes. *)
Lemma flip_Ok m p s :
  snarls m !! p = Some s →
  flip m p
  = Ok (Build (<[p := flipped s]> (snarls m)) (roots m)
              (rekey [] (key_form s) (key_form (flipped s)) (children m))
              (rekey None (key_form s) (key_form (flipped s)) (parent m))
              (snarl_into m)
              (rekey 0 (key_form s) (key_form (flipped s)) (index_of m))).
Proof. intros Hs. unfold flip, deref. by rewrite Hs. Qed.

(** Two flips of a record whose key the flip changes restore the record
    and its entries of the three indexes keyed by it. *)
Lemma flip_flip_entries m p s par cs i :
  snarls m !! p = Some s → key_form (flipped s) ≠ key_form s →
  parent m !! key_form s = Some par →
  children m !! key_form s = Some cs →
  index_of m !! key_form s = Some i →
  ∃ m2, (flip m p ≫= λ m1, flip m1 p) = Ok m2
        ∧ snarls m2 = snarls m
        ∧ parent m2 !! key_form s = Some par
        ∧ children m2 !! key_form s = Some cs
        ∧ index_of m2 !! key_form s = Some i
        ∧ snarl_into m2 = snarl_into m ∧ roots m2 = roots m.
Proof.
  intros Hs Hne Hpar Hcs Hi. rewrite (flip_Ok _ _ _ Hs). simpl.
  assert (Hp : p < length (snarls m)) by by eapply lookup_lt_Some.
  erewrite flip_Ok; [|simpl; by apply list_lookup_insert_eq].
  eexists. split; [done|]. simpl. rewrite flipped_flipped.
  split_and!; try done.
  - rewrite list_insert_insert_eq. by apply list_insert_id.
  - by apply lookup_rekey_rekey.
  - by apply lookup_rekey_rekey.
  - by apply lookup_rekey_rekey.
Qed.

(** They restore the whole manager when no entry was filed under the
    flipped key. *)
Lemma flip_flip m p s par cs i :
  snarls m !! p = Some s → key_form (flipped s) ≠ key_form s →
  parent m !! key_form s = Some par →
  children m !! key_form s = Some cs →
  index_of m !! key_form s = Some i →
  parent m !! key_form (flipped s) = None →
  children m !! key_form (flipped s) = None →
  index_of m !! key_form (flipped s) = None →
  (flip m p ≫= λ m1, flip m1 p) = Ok m.
Proof.
  intros Hs Hne Hpar Hcs Hi Hpar' Hcs' Hi'. rewrite (flip_Ok _ _ _ Hs). simpl.
  assert (Hp : p < length (snarls m)) by by eapply lookup_lt_Some.
  erewrite flip_Ok; [|simpl; by apply list_lookup_insert_eq].
  simpl. rewrite flipped_flipped.
  rewrite list_insert_insert_eq, (list_insert_id _ _ _ Hs).
  erewrite !rekey_rekey by done. by destruct m.
Qed.

(** C3: the store of one unary snarl has, once its indexes are built, an
    entry for the snarl in [parent], [children] and [index_of]; the key of
    a unary snarl is not changed by [flip], each call erases the entry it
    has just assigned to itself, and after two calls the boundaries of the
    snarl are as before but the three entries are gone and [manage] no
    longer finds the snarl. *)
Theorem flip_twice_unary_loses_entries :
  key_form (flipped snarl_U) = key_form snarl_U
  ∧ parent one_unary !! key_form snarl_U = Some None
  ∧ children one_unary !! key_form snarl_U = Some []
  ∧ index_of one_unary !! key_form snarl_U = Some 0
  ∧ match flip one_unary 0 ≫= (λ m1, flip m1 0) with
    | Ok m2 =>
        snarls m2 = [snarl_U]
        ∧ parent m2 !! key_form snarl_U = None
        ∧ children m2 !! key_form snarl_U = None
        ∧ index_of m2 !! key_form snarl_U = None
        ∧ manage m2 snarl_U = Err runtime_error
    | Err _ => False
    end.
Proof. by vm_compute. Qed.

(** ** The indexes after build_indexes *)

Section last_writer.
Context (P : Snarl → bool).

Lemma last_writer_snoc i records s acc :
  last_writer P i (records ++ [s]) acc
  = if P s then Some (i + length records) else last_writer P i records acc.
Proof.
  revert i acc. induction records as [|r records IH]; intros i acc; simpl.
  { by rewrite Nat.add_0_r. }
  rewrite IH. by replace (S i + length records) with (i + S (length records)) by lia.
Qed.

(** The position found is that of a record satisfying [P] after which no
    record satisfies [P]. *)
Lemma last_writer_Some i records j :
  last_writer P i records None = Some j →
  ∃ s, i ≤ j ∧ records !! (j - i) = Some s ∧ P s = true
       ∧ ∀ q s', j - i < q → records !! q = Some s' → P s' = false.
Proof.
  induction records as [|s records IH] using rev_ind; [done|].
  rewrite last_writer_snoc. destruct (P s) eqn:Hs.
  - intros [= <-]. exists s. split; [lia|].
    replace (i + length records - i) with (length records) by lia.
    split; [by apply list_lookup_middle|]. split; [done|].
    intros q s' Hq Hs'. apply lookup_lt_Some in Hs'.
    rewrite length_app in Hs'. simpl in Hs'. lia.
  - intros (s0 & Hle & Hs0 & HP & Hlast)%IH. exists s0.
    split; [done|]. split; [by apply lookup_app_l_Some|]. split; [done|].
    intros q s' Hq Hs'. apply lookup_app_Some in Hs' as [Hs'|[Hlen Hs']].
    + by eapply Hlast.
    + destruct (q - length records) as [|n]; simpl in Hs'; [|done].
      by simplify_eq.
Qed.

Lemma last_writer_None i records :
  last_writer P i records None = None ↔ ∀ s, s ∈ records → P s = false.
Proof.
  induction records as [|s records IH] using rev_ind.
  { split; [|done]. by intros _ s ?%elem_of_nil. }
  rewrite last_writer_snoc. destruct (P s) eqn:Hs.
  - split; [done|]. intros Hall. rewrite Hall in Hs; [done|].
    apply elem_of_app. right. by apply list_elem_of_singleton.
  - rewrite IH. split.
    + intros Hall s' [?|Hx]%elem_of_app; [auto|].
      by apply list_elem_of_singleton in Hx as ->.
    + intros Hall s' ?. apply Hall, elem_of_app. by left.
Qed.

(** The last record that satisfies [P] is the one found. *)
Lemma last_writer_last i records acc q s :
  records !! q = Some s → P s = true →
  (∀ q' s', q < q' → records !! q' = Some s' → P s' = false) →
  last_writer P i records acc = Some (i + q).
Proof.
  revert q. induction records as [|r records IH] using rev_ind;
    intros q Hq HP Hlast; [done|].
  rewrite last_writer_snoc.
  apply lookup_app_Some in Hq as [Hq|[Hlen Hq]].
  - assert (q < length records) by by eapply lookup_lt_Some.
    rewrite (Hlast (length records) r); [|done|by apply list_lookup_middle].
    apply IH; [done..|]. intros q' s' ? Hs'. apply (Hlast q' s'); [done|].
    by apply lookup_app_l_Some.
  - destruct (q - length records) as [|n] eqn:Hn; simpl in Hq; [|done].
    simplify_eq. rewrite HP. do 2 f_equal. lia.
Qed.

(** A record that satisfies [P] is found, or a later one is. *)
Lemma last_writer_at_least i records acc q s :
  records !! q = Some s → P s = true →
  ∃ j, last_writer P i records acc = Some j ∧ i + q ≤ j.
Proof.
  revert q. induction records as [|r records IH] using rev_ind;
    intros q Hq HP; [done|].
  rewrite last_writer_snoc.
  assert (q < length (records ++ [r])) as Hlen by by eapply lookup_lt_Some.
  rewrite length_app in Hlen. simpl in Hlen.
  destruct (P r) eqn:Hr.
  { eexists. split; [done|]. lia. }
  apply lookup_app_Some in Hq as [Hq|[? Hq]]; [by eapply IH|].
  destruct (q - length records) as [|n]; simpl in Hq; [|done].
  simplify_eq. congruence.
Qed.

End last_writer.

Lemma first_pass_index_of i todo m k :
  index_of (first_pass i todo m) !! k
  = last_writer (λ s, bool_decide (key_form s = k)) i todo (index_of m !! k).
Proof.
  revert i m. induction todo as [|s todo IH]; intros i m; simpl; [done|].
  rewrite IH. f_equal.
  assert (index_of (index_record m i s) = <[key_form s := i]> (index_of m))
    as -> by (unfold index_record; by destruct (has_parent s)).
  case_bool_decide as Hk.
  - subst k. by rewrite lookup_insert_eq.
  - by rewrite lookup_insert_ne.
Qed.

Lemma first_pass_snarl_into i todo m k :
  snarl_into (first_pass i todo m) !! k
  = last_writer (writes_to k) i todo (snarl_into m !! k).
Proof.
  revert i m. induction todo as [|s todo IH]; intros i m; simpl; [done|].
  rewrite IH. f_equal.
  assert (snarl_into (index_record m i s)
          = <[end_key s := i]> (<[start_key s := i]> (snarl_into m)))
    as -> by (unfold index_record; by destruct (has_parent s)).
  unfold writes_to. rewrite !lookup_insert.
  repeat case_decide; repeat case_bool_decide; simpl; congruence.
Qed.

Lemma index_of_make records k :
  index_of (make records) !! k
  = last_writer (λ s, bool_decide (key_form s = k)) 0 records None.
Proof.
  unfold make, build_indexes.
  by rewrite second_pass_index_of, first_pass_index_of.
Qed.

Lemma snarl_into_make records k :
  snarl_into (make records) !! k = last_writer (writes_to k) 0 records None.
Proof.
  unfold make, build_indexes.
  by rewrite second_pass_snarl_into, first_pass_snarl_into.
Qed.

(** ** manage *)

Lemma own_records_make records :
  NoDup (key_form <$> records) → own_records (make records).
Proof.
  intros Hkeys i s Hs. rewrite snarls_make in Hs. rewrite index_of_make.
  apply (last_writer_last _ 0 records None i s Hs).
  { by apply bool_decide_eq_true. }
  intros q r Hlt Hr. apply bool_decide_eq_false. intros Hk.
  assert (q = i); [|lia].
  eapply NoDup_lookup; [done| |].
  - by rewrite list_lookup_fmap, Hr.
  - rewrite list_lookup_fmap, Hs. simpl. by rewrite Hk.
Qed.

Lemma flip_own_records m p s m' :
  own_records m → snarls m !! p = Some s →
  (∀ r, r ∈ snarls m → key_form r ≠ key_form (flipped s)) →
  flip m p = Ok m' → own_records m'.
Proof.
  intros Hown Hs Hfresh. rewrite (flip_Ok _ _ _ Hs). intros [= <-] i si.
  cbn [snarls index_of].
  assert (Hp : p < length (snarls m)) by by eapply lookup_lt_Some.
  assert (Hne : key_form s ≠ key_form (flipped s))
    by (apply Hfresh; by eapply list_elem_of_lookup_2).
  destruct (decide (i = p)) as [->|Hip].
  - rewrite list_lookup_insert_eq by done. intros [= <-].
    rewrite lookup_rekey_new by done. by rewrite (Hown p s Hs).
  - rewrite list_lookup_insert_ne by done. intros Hi.
    rewrite lookup_rekey_other; [by apply Hown| |].
    + intros Hk. pose proof (Hown i si Hi) as Hindex.
      rewrite Hk, (Hown p s Hs) in Hindex. congruence.
    + apply Hfresh. by eapply list_elem_of_lookup_2.
Qed.

Lemma flipped_from_own_records records m :
  NoDup (key_form <$> records) → flipped_from records m → own_records m.
Proof.
  intros Hkeys. induction 1 as [|m p s m' _ IH Hs Hfresh Hflip].
  - by apply own_records_make.
  - by eapply flip_own_records.
Qed.

(** C9: after [build_indexes], [manage] on a copy of a record of the store
    returns the pointer to the last record of the store that has the key of
    the copy.  In a store whose keys are distinct that is the record copied,
    and it still is after any flips each of which gives the flipped snarl a
    key that no record of the store has.  In any manager, on a snarl whose
    key is not in [index_of], as is the key of a snarl that no record of
    the store built from has, [manage] throws; being a const member
    function it has no other outcome than its result, so the manager is as
    before. *)
Theorem manage_canonical :
  (∀ records i s, records !! i = Some s →
     ∃ j s', manage (make records) s = Ok j
       ∧ i ≤ j ∧ records !! j = Some s' ∧ key_form s' = key_form s
       ∧ (∀ q r, j < q → records !! q = Some r → key_form r ≠ key_form s))
  ∧ (∀ records m i s,
       NoDup (key_form <$> records) → flipped_from records m →
       snarls m !! i = Some s → manage m s = Ok i)
  ∧ (∀ records s, (∀ r, r ∈ records → key_form r ≠ key_form s) →
       manage (make records) s = Err runtime_error)
  ∧ (∀ (m : SnarlManager.t) s,
       index_of m !! key_form s = None → manage m s = Err runtime_error).
Proof.
  split_and!.
  - intros records i s Hs.
    destruct (last_writer_at_least (λ r, bool_decide (key_form r = key_form s))
                0 records None i s Hs) as (j & Hj & Hle);
      [by apply bool_decide_eq_true|].
    destruct (last_writer_Some _ _ _ _ Hj) as (s' & _ & Hs' & Hkey & Hlast).
    rewrite Nat.sub_0_r in Hs', Hlast. apply bool_decide_eq_true in Hkey.
    exists j, s'. unfold manage. rewrite index_of_make, Hj, snarls_make, Hs'.
    split_and!; [done|lia|done|done|].
    intros q r Hq Hr. specialize (Hlast q r Hq Hr).
    by apply bool_decide_eq_false in Hlast.
  - intros records m i s Hkeys Hm Hs. unfold manage.
    by rewrite (flipped_from_own_records records m Hkeys Hm i s Hs), Hs.
  - intros records s Hnone. unfold manage. rewrite index_of_make.
    replace (last_writer _ 0 records None) with (@None nat); [done|].
    symmetry. apply last_writer_None. intros r Hr.
    apply bool_decide_eq_false. by apply Hnone.
  - intros m s Hnone. unfold manage. by rewrite Hnone.
Qed.

(** In the store of the two siblings the copy of [B] is managed as the
    record at position 2, and so is, once [A] is flipped, the flipped [A]
    as the record at position 1; the flipped [B], whose key the store does
    not have, is refused; the store of the unary snarl refuses [A]. *)
Lemma manage_canonical_witness :
  (∃ j s', manage (make [snarl_P; snarl_A; snarl_B]) snarl_B = Ok j
     ∧ 2 ≤ j ∧ [snarl_P; snarl_A; snarl_B] !! j = Some s'
     ∧ key_form s' = key_form snarl_B
     ∧ (∀ q r, j < q → [snarl_P; snarl_A; snarl_B] !! q = Some r →
          key_form r ≠ key_form snarl_B))
  ∧ (∃ m', flip (make [snarl_P; snarl_A; snarl_B]) 1 = Ok m'
       ∧ snarls m' !! 1 = Some (flipped snarl_A)
       ∧ manage m' (flipped snarl_A) = Ok 1)
  ∧ manage (make [snarl_P; snarl_A; snarl_B]) (flipped snarl_B)
    = Err runtime_error
  ∧ manage one_unary snarl_A = Err runtime_error.
Proof.
  destruct manage_canonical as (Hstored & Hown & Hforeign & Habsent).
  assert (Hfresh : ∀ s r, r ∈ [snarl_P; snarl_A; snarl_B] →
            key_form s = key_form snarl_A ∨ key_form s = key_form snarl_B →
            key_form r ≠ key_form (flipped s)).
  { intros s r Hr Hs. rewrite key_form_flipped.
    repeat (apply elem_of_cons in Hr as [->|Hr]);
      [..|by apply elem_of_nil in Hr];
      destruct Hs as [Hs|Hs]; unfold key_form in Hs |- *;
      injection Hs as -> -> -> ->; discriminate. }
  split_and!.
  - apply (Hstored [snarl_P; snarl_A; snarl_B] 2 snarl_B). reflexivity.
  - destruct (flip (make [snarl_P; snarl_A; snarl_B]) 1) as [m'|] eqn:Hflip;
      [|discriminate Hflip].
    exists m'. split; [done|].
    assert (Hm' : snarls m' !! 1 = Some (flipped snarl_A)).
    { rewrite (flip_Ok _ 1 snarl_A) in Hflip by reflexivity.
      by injection Hflip as <-. }
    split; [done|].
    apply (Hown [snarl_P; snarl_A; snarl_B] m' 1 (flipped snarl_A)); [| |done].
    + apply (bool_decide_unpack _). by vm_compute.
    + apply (flipped_from_flip _ (make [snarl_P; snarl_A; snarl_B]) 1 snarl_A);
        [constructor|reflexivity| |done].
      intros r Hr. rewrite snarls_make in Hr. apply Hfresh; auto.
  - apply Hforeign. intros r Hr. apply Hfresh; auto.
  - apply Habsent. reflexivity.
Defined.

(** The pointer [manage] returns for a copy of a record is not always the
    pointer to that record: of two records with one key, the index holds the
    second. *)
Lemma manage_duplicate_key :
  [snarl_A; snarl_A_twin] !! 0 = Some snarl_A
  ∧ snarl_A_twin ≠ snarl_A
  ∧ manage (make [snarl_A; snarl_A_twin]) snarl_A = Ok 1.
Proof. split_and!; [done|discriminate|by vm_compute]. Qed.

(** ** The boundary index *)

(** An entry of [snarl_into] that points to a record is filed under one of
    the two keys of that record. *)
Lemma snarl_into_make_Some records k p :
  snarl_into (make records) !! k = Some p →
  ∃ s, records !! p = Some s ∧ (start_key s = k ∨ end_key s = k)
       ∧ ∀ q r, p < q → records !! q = Some r → writes_to k r = false.
Proof.
  rewrite snarl_into_make.
  intros (s & _ & Hs & Hw & Hlast)%last_writer_Some.
  rewrite Nat.sub_0_r in Hs, Hlast. exists s. split; [done|]. split; [|done].
  unfold writes_to in Hw. apply orb_true_iff in Hw.
  destruct Hw as [Hw|Hw]; apply bool_decide_eq_true in Hw; auto.
Qed.

(** A record keeps a key of its own unless a later record writes to it. *)
Lemma snarl_into_make_key records p s k :
  records !! p = Some s → writes_to k s = true →
  (∀ q r, p < q → records !! q = Some r → writes_to k r = false) →
  snarl_into (make records) !! k = Some p.
Proof.
  intros Hs Hw Hlast. rewrite snarl_into_make.
  by rewrite (last_writer_last _ 0 records None p s).
Qed.

Lemma writes_to_start_key s : writes_to (start_key s) s = true.
Proof. unfold writes_to. by rewrite bool_decide_eq_true_2. Qed.

Lemma writes_to_end_key s : writes_to (end_key s) s = true.
Proof.
  unfold writes_to. rewrite (bool_decide_eq_true_2 (end_key s = end_key s)) by done.
  apply orb_true_r.
Qed.

(** The entries that point to a record whose keys no later record writes
    to. *)
Lemma entries_into_make records p s :
  records !! p = Some s →
  (∀ q r, p < q → records !! q = Some r →
     writes_to (start_key s) r = false ∧ writes_to (end_key s) r = false) →
  entries_into (make records) p = <[start_key s := p]> {[end_key s := p]}.
Proof.
  intros Hs Hlast. apply map_eq. intros k. apply option_eq. intros v.
  unfold entries_into. rewrite map_lookup_filter_Some. simpl. split.
  - intros [Hk ->].
    destruct (snarl_into_make_Some _ _ _ Hk) as (s' & Hs' & Hkey & _).
    assert (s' = s) as -> by congruence.
    destruct Hkey as [<-|<-].
    + by rewrite lookup_insert_eq.
    + rewrite lookup_insert. case_decide; [done|].
      by rewrite lookup_singleton_eq.
  - rewrite lookup_insert. case_decide as Hk.
    + intros [= <-]. subst k. split; [|done].
      eapply snarl_into_make_key; [done|apply writes_to_start_key|].
      intros q r Hq Hr. by apply (Hlast q r).
    + rewrite lookup_singleton. case_decide as Hk'; [|done].
      intros [= <-]. subst k. split; [|done].
      eapply snarl_into_make_key; [done|apply writes_to_end_key|].
      intros q r Hq Hr. by apply (Hlast q r).
Qed.

(** C4, as stated, fails on a unary snarl: the store of one unary snarl on
    node 1 has the snarl at position 0, its two keys are the one key
    (1, forward), and exactly one entry of [snarl_into] points to it, not
    two. *)
Lemma unary_snarl_has_one_entry :
  snarls one_unary !! 0 = Some snarl_U
  ∧ start_key snarl_U = end_key snarl_U
  ∧ size (entries_into one_unary 0) = 1
  ∧ size (entries_into one_unary 0) ≠ 2.
Proof. split_and!; [by vm_compute..|]. by vm_compute. Qed.

(** C4, amended: after [build_indexes], an entry of [snarl_into] that points
    to a record [s] is filed under (start.id, start.backward) or under
    (end.id, not end.backward); when no later record of the store writes to
    these two keys, both point to [s], and they are the only entries that
    do: two entries, or one when the two keys are one key, as for a unary
    snarl.  One call of [flip] leaves [snarl_into] and the roots as they
    are, exchanges the two keys of the record, replaces the record by the
    flipped one, and in [parent], [children] and [index_of] touches only
    the old and the new key of the record; when the flip changes the key,
    the entry of the old key is moved to the new key. *)
Theorem snarl_into_two_keys (records : list Snarl) (p : nat) (s : Snarl) :
  records !! p = Some s →
  (∀ k, snarl_into (make records) !! k = Some p →
     k = start_key s ∨ k = end_key s)
  ∧ ((∀ q r, p < q → records !! q = Some r →
        writes_to (start_key s) r = false ∧ writes_to (end_key s) r = false) →
     snarl_into (make records) !! start_key s = Some p
     ∧ snarl_into (make records) !! end_key s = Some p
     ∧ size (entries_into (make records) p)
       = if decide (same_entry s) then 1 else 2)
  ∧ (∀ m, snarls m !! p = Some s →
       ∃ m', flip m p = Ok m'
         ∧ snarl_into m' = snarl_into m ∧ roots m' = roots m
         ∧ snarls m' = <[p := flipped s]> (snarls m)
         ∧ start_key (flipped s) = end_key s
         ∧ end_key (flipped s) = start_key s
         ∧ (∀ k, k ≠ key_form s → k ≠ key_form (flipped s) →
              parent m' !! k = parent m !! k
              ∧ children m' !! k = children m !! k
              ∧ index_of m' !! k = index_of m !! k)
         ∧ (key_form (flipped s) ≠ key_form s →
              parent m' !! key_form s = None
              ∧ children m' !! key_form s = None
              ∧ index_of m' !! key_form s = None
              ∧ parent m' !! key_form (flipped s)
                = Some (default None (parent m !! key_form s))
              ∧ children m' !! key_form (flipped s)
                = Some (default [] (children m !! key_form s))
              ∧ index_of m' !! key_form (flipped s)
                = Some (default 0 (index_of m !! key_form s)))).
Proof.
  intros Hs. split_and!.
  - intros k Hk.
    destruct (snarl_into_make_Some _ _ _ Hk) as (s' & Hs' & Hkey & _).
    assert (s' = s) as -> by congruence. destruct Hkey; auto.
  - intros Hlast.
    pose proof (entries_into_make records p s Hs Hlast) as Hentries.
    split_and!.
    + eapply snarl_into_make_key; [done|apply writes_to_start_key|].
      intros q r Hq Hr. by apply (Hlast q r).
    + eapply snarl_into_make_key; [done|apply writes_to_end_key|].
      intros q r Hq Hr. by apply (Hlast q r).
    + rewrite Hentries. unfold same_entry. case_decide as Hsame.
      * rewrite Hsame, insert_singleton_eq. apply map_size_singleton.
      * rewrite map_size_insert_None by by rewrite lookup_singleton_ne.
        by rewrite map_size_singleton.
  - intros m Hm. eexists. split; [by apply flip_Ok|]. simpl.
    split_and!; try done.
    + apply end_key_flipped.
    + intros k Ho Hn. by rewrite !lookup_rekey_other.
    + intros Hne. rewrite !lookup_rekey_old. by rewrite !lookup_rekey_new.
Qed.

(** In the store of the two siblings the record [A] has its two entries,
    and [flip] moves its entries of the other indexes to the flipped key
    and leaves [snarl_into] as it is. *)
Lemma snarl_into_two_keys_witness :
  (snarl_into two_siblings !! start_key snarl_A = Some 1
   ∧ snarl_into two_siblings !! end_key snarl_A = Some 1
   ∧ size (entries_into two_siblings 1)
     = if decide (same_entry snarl_A) then 1 else 2)
  ∧ ∃ m', flip two_siblings 1 = Ok m'
      ∧ snarl_into m' = snarl_into two_siblings
      ∧ parent m' !! key_form snarl_A = None
      ∧ parent m' !! key_form (flipped snarl_A)
        = Some (default None (parent two_siblings !! key_form snarl_A)).
Proof.
  assert (Hs : [snarl_P; snarl_A; snarl_B] !! 1 = Some snarl_A) by reflexivity.
  destruct (snarl_into_two_keys [snarl_P; snarl_A; snarl_B] 1 snarl_A Hs)
    as (_ & Hkeys & Hflip).
  split.
  - apply Hkeys. intros q r Hq Hr.
    destruct q as [|[|[|q]]];
      [lia|lia| |by rewrite lookup_ge_None_2 in Hr by (simpl; lia)].
    injection Hr as <-. by vm_compute.
  - destruct (Hflip two_siblings) as (m' & Hm' & Hinto & _ & _ & _ & _ & _ & Hmove);
      [reflexivity|].
    destruct Hmove as (Hold & _ & _ & Hnew & _); [discriminate|].
    exists m'. by split_and!.
Defined.

(** ** Edge iteration of the net graph *)

Section follow_edges_log.
Context {handle_t : Type} `{Countable handle_t} {S : Type}.
Context (iteratee : handle_t → S → bool * S).

(** *** The log records one call per handle, and none after a false *)

Lemma report_keeps_log real :
  keeps_log (NetGraph.report (NetGraph.logged iteratee) real).
Proof.
  intros [seen [s log]] (Hnd & Hseen & Hall). unfold NetGraph.report. simpl in *.
  case_decide as Hin; [done|].
  unfold NetGraph.logged. simpl. destruct (iteratee real s) as [go_on s'].
  simpl. split_and!.
  - apply NoDup_cons. split; [|done]. intros Hlog. by apply Hin, Hseen.
  - intros h [->|Hh]%elem_of_cons.
    + apply elem_of_union_l. by apply elem_of_singleton.
    + by apply elem_of_union_r, Hseen.
  - destruct go_on; [by apply Forall_cons|]. by exists real, log.
Qed.

Lemma visit_until_keeps_log (visitor : handle_t → log_state handle_t S → bool * log_state handle_t S) l :
  (∀ h, keeps_log (visitor h)) → keeps_log (visit_until visitor l).
Proof.
  intros Hv. induction l as [|h l IH]; intros st Hst; simpl; [done|].
  specialize (Hv h st Hst). destruct (visitor h st) as [[] st']; simpl in *.
  - by apply IH.
  - done.
Qed.

Lemma guarded_keeps_log c (call rest : log_state handle_t S → bool * log_state handle_t S) :
  keeps_log call → keeps_log rest → keeps_log (NetGraph.guarded c call rest).
Proof.
  intros Hcall Hrest st Hst. unfold NetGraph.guarded.
  destruct c; [|by apply Hrest].
  specialize (Hcall st Hst). destruct (call st) as [[] st']; simpl in *.
  - by apply Hrest.
  - done.
Qed.

Lemma return_true_keeps_log : keeps_log (@NetGraph.return_true (log_state handle_t S)).
Proof. by intros st Hst. Qed.

Lemma graph_follow_edges_keeps_log g h go_left
    (visitor : handle_t → log_state handle_t S → bool * log_state handle_t S) :
  (∀ h, keeps_log (visitor h)) →
  keeps_log (graph_follow_edges g h go_left visitor).
Proof. apply visit_until_keeps_log. Qed.

Lemma handle_edge_keeps_log ng other :
  keeps_log (NetGraph.handle_edge (NetGraph.logged iteratee) ng other).
Proof. apply report_keeps_log. Qed.

Lemma flip_and_handle_edge_keeps_log ng other :
  keeps_log (NetGraph.flip_and_handle_edge (NetGraph.logged iteratee) ng other).
Proof. apply report_keeps_log. Qed.

Create HintDb keeps.

Local Hint Resolve guarded_keeps_log return_true_keeps_log
  graph_follow_edges_keeps_log handle_edge_keeps_log
  flip_and_handle_edge_keeps_log : keeps.

Lemma chain_edges_keeps_log ng handle go_left forward chain_end conn :
  keeps_log (NetGraph.chain_edges (NetGraph.logged iteratee) ng handle go_left
               forward chain_end conn).
Proof.
  destruct conn as [[ss ee] se]. unfold NetGraph.chain_edges.
  destruct forward, go_left; auto 10 with keeps.
Qed.

Lemma unary_edges_keeps_log ng handle go_left conn :
  keeps_log (NetGraph.unary_edges (NetGraph.logged iteratee) ng handle go_left
               conn).
Proof.
  destruct conn as [[ss ee] se]. unfold NetGraph.unary_edges.
  case_decide; destruct go_left; auto 10 with keeps.
Qed.

Lemma run_reported (body : log_state handle_t S → bool * log_state handle_t S) s :
  keeps_log body → call_reported (NetGraph.run body (s, [])).
Proof.
  intros Hbody. unfold NetGraph.run.
  assert (Hinit : reported true ((∅, (s, [])) : log_state handle_t S)).
  { split_and!; simpl; [constructor|by intros h ?%elem_of_nil|constructor]. }
  specialize (Hbody _ Hinit).
  destruct (body (∅, (s, []))) as [go_on [seen [s' log]]]. simpl in *.
  destruct Hbody as (Hnd & _ & Hall). simpl in *. split_and!; simpl; [done| |].
  - destruct go_on.
    + intros c Hc. rewrite Forall_forall in Hall. apply Hall.
      destruct log; [done|]. simpl in Hc. by apply elem_of_cons; right.
    + destruct Hall as (h & rest & Hlog & Hall). simplify_eq. simpl.
      by apply Forall_forall.
  - destruct go_on.
    + destruct log as [|c log]; [done|]. by apply Forall_cons in Hall as [-> _].
    + destruct Hall as (h & rest & Hlog & _). by simplify_eq.
Qed.

Lemma follow_edges_reported ng handle go_left s :
  match NetGraph.follow_edges (NetGraph.logged iteratee) ng handle go_left
          (s, []) with
  | Ok r => call_reported r
  | Err e => e = out_of_range
  end.
Proof.
  unfold NetGraph.follow_edges.
  destruct (NetGraph.at_bound ng handle go_left).
  { split_and!; simpl; [constructor|by intros c ?%elem_of_nil|done]. }
  destruct (NetGraph.chain_ends_by_start ng !! handle) as [chain_end|].
  { unfold NetGraph.connectivity_at.
    destruct (NetGraph.connectivity ng !! _) as [conn|]; simpl; [|done].
    apply run_reported, chain_edges_keeps_log. }
  destruct (NetGraph.chain_ends_by_start ng !! _) as [chain_end|].
  { unfold NetGraph.connectivity_at.
    destruct (NetGraph.connectivity ng !! _) as [conn|]; simpl; [|done].
    apply run_reported, chain_edges_keeps_log. }
  case_decide.
  - unfold NetGraph.connectivity_at.
    destruct (NetGraph.connectivity ng !! _) as [conn|]; simpl; [|done].
    apply run_reported, unary_edges_keeps_log.
  - apply run_reported. auto with keeps.
Qed.

(** *** The log is an observation

    The call on the logged iteratee goes as the call on the iteratee
    itself. *)

Lemma report_same_step real :
  same_step (NetGraph.report iteratee real)
            (NetGraph.report (NetGraph.logged iteratee) real).
Proof.
  intros [seen [s log]]. unfold NetGraph.report, erase_log. simpl.
  case_decide; [done|]. unfold NetGraph.logged. simpl.
  by destruct (iteratee real s).
Qed.

Lemma visit_until_same_step
    (visitor : handle_t → gset handle_t * S → bool * (gset handle_t * S))
    (visitor' : handle_t → log_state handle_t S → bool * log_state handle_t S) l :
  (∀ h, same_step (visitor h) (visitor' h)) →
  same_step (visit_until visitor l) (visit_until visitor' l).
Proof.
  intros Hv. induction l as [|h l IH]; intros st; simpl; [done|].
  destruct (Hv h st) as [Hb Hst].
  destruct (visitor' h st) as [b' st'], (visitor h (erase_log st)) as [b st1].
  simpl in *. subst b' st1. destruct b; [apply IH|done].
Qed.

Lemma guarded_same_step c
    (call rest : gset handle_t * S → bool * (gset handle_t * S))
    (call' rest' : log_state handle_t S → bool * log_state handle_t S) :
  same_step call call' → same_step rest rest' →
  same_step (NetGraph.guarded c call rest) (NetGraph.guarded c call' rest').
Proof.
  intros Hcall Hrest st. unfold NetGraph.guarded. destruct c; [|apply Hrest].
  destruct (Hcall st) as [Hb Hst].
  destruct (call' st) as [b' st'], (call (erase_log st)) as [b st1].
  simpl in *. subst b' st1. destruct b; [apply Hrest|done].
Qed.

Lemma return_true_same_step :
  same_step (@NetGraph.return_true (gset handle_t * S))
            (@NetGraph.return_true (log_state handle_t S)).
Proof. by intros st. Qed.

Lemma graph_follow_edges_same_step g h go_left
    (visitor : handle_t → gset handle_t * S → bool * (gset handle_t * S))
    (visitor' : handle_t → log_state handle_t S → bool * log_state handle_t S) :
  (∀ h, same_step (visitor h) (visitor' h)) →
  same_step (graph_follow_edges g h go_left visitor)
            (graph_follow_edges g h go_left visitor').
Proof. apply visit_until_same_step. Qed.

Lemma handle_edge_same_step ng other :
  same_step (NetGraph.handle_edge iteratee ng other)
            (NetGraph.handle_edge (NetGraph.logged iteratee) ng other).
Proof. apply report_same_step. Qed.

Lemma flip_and_handle_edge_same_step ng other :
  same_step (NetGraph.flip_and_handle_edge iteratee ng other)
            (NetGraph.flip_and_handle_edge (NetGraph.logged iteratee) ng other).
Proof. apply report_same_step. Qed.

Create HintDb same.

Local Hint Resolve guarded_same_step return_true_same_step
  graph_follow_edges_same_step handle_edge_same_step
  flip_and_handle_edge_same_step : same.

Lemma chain_edges_same_step ng handle go_left forward chain_end conn :
  same_step
    (NetGraph.chain_edges iteratee ng handle go_left forward chain_end conn)
    (NetGraph.chain_edges (NetGraph.logged iteratee) ng handle go_left
       forward chain_end conn).
Proof.
  destruct conn as [[ss ee] se]. unfold NetGraph.chain_edges.
  destruct forward, go_left; auto 10 with same.
Qed.

Lemma unary_edges_same_step ng handle go_left conn :
  same_step (NetGraph.unary_edges iteratee ng handle go_left conn)
            (NetGraph.unary_edges (NetGraph.logged iteratee) ng handle go_left
               conn).
Proof.
  destruct conn as [[ss ee] se]. unfold NetGraph.unary_edges.
  case_decide; destruct go_left; auto 10 with same.
Qed.

Lemma run_same_call
    (body : gset handle_t * S → bool * (gset handle_t * S))
    (body' : log_state handle_t S → bool * log_state handle_t S) s log :
  same_step body body' →
  same_call (Ok (NetGraph.run body s)) (Ok (NetGraph.run body' (s, log))).
Proof.
  intros Hbody. unfold NetGraph.run, same_call.
  destruct (Hbody (∅, (s, log))) as [Hb Hst]. unfold erase_log in *.
  destruct (body' (∅, (s, log))) as [b' [seen' [s' log']]].
  simpl in *. destruct (body (∅, s)) as [b [seen s1]]. simpl in *.
  by simplify_eq.
Qed.

Lemma follow_edges_same_call ng handle go_left s log :
  same_call (NetGraph.follow_edges iteratee ng handle go_left s)
            (NetGraph.follow_edges (NetGraph.logged iteratee) ng handle go_left
               (s, log)).
Proof.
  unfold NetGraph.follow_edges.
  destruct (NetGraph.at_bound ng handle go_left); [done|].
  destruct (NetGraph.chain_ends_by_start ng !! handle) as [chain_end|].
  { unfold NetGraph.connectivity_at.
    destruct (NetGraph.connectivity ng !! _) as [conn|]; simpl; [|done].
    apply run_same_call, chain_edges_same_step. }
  destruct (NetGraph.chain_ends_by_start ng !! _) as [chain_end|].
  { unfold NetGraph.connectivity_at.
    destruct (NetGraph.connectivity ng !! _) as [conn|]; simpl; [|done].
    apply run_same_call, chain_edges_same_step. }
  case_decide.
  - unfold NetGraph.connectivity_at.
    destruct (NetGraph.connectivity ng !! _) as [conn|]; simpl; [|done].
    apply run_same_call, unary_edges_same_step.
  - apply run_same_call. auto with same.
Qed.

(** On a net graph whose connectivity is filed as the constructors file it,
    [follow_edges] throws nothing. *)
Lemma follow_edges_Ok ng handle go_left s :
  connectivity_indexed ng →
  is_Ok (NetGraph.follow_edges iteratee ng handle go_left s) = true.
Proof.
  intros Hconn. specialize (Hconn handle). unfold NetGraph.follow_edges.
  destruct (NetGraph.at_bound ng handle go_left); [done|].
  unfold NetGraph.connectivity_at.
  destruct (NetGraph.chain_ends_by_start ng !! handle) as [chain_end|].
  { destruct Hconn as [conn ->]; [left; eauto|done]. }
  destruct (NetGraph.chain_ends_by_start ng !! _) as [chain_end|].
  { destruct Hconn as [conn ->]; [right; left; eauto|done]. }
  case_decide as Hunary; [|done].
  destruct Hconn as [conn ->]; [|done]. right. right. done.
Qed.

(** X20: one call of [follow_edges] on an iteratee goes as the call on the
    logged iteratee, with the same answer.  In that call the iteratee is
    never called twice on the same handle; every call of the iteratee but
    the last has answered true, so that nothing is visited after an answer
    of false; and [follow_edges] returns the last answer, which is false
    when the iteratee has stopped the iteration and true otherwise, also
    when nothing was visited.  The one failure is the exception of
    [connectivity.at], which is thrown before anything is visited. *)
Theorem follow_edges_no_duplicates_and_stop
    (ng : NetGraph.t) (handle : handle_t) (go_left : bool) (s : S) :
  same_call (NetGraph.follow_edges iteratee ng handle go_left s)
            (NetGraph.follow_edges (NetGraph.logged iteratee) ng handle go_left
               (s, []))
  ∧ match NetGraph.follow_edges (NetGraph.logged iteratee) ng handle go_left
            (s, []) with
    | Ok r => call_reported r
    | Err e => e = out_of_range
    end.
Proof. split; [apply follow_edges_same_call|apply follow_edges_reported]. Qed.

End follow_edges_log.

(** C7: the end of a chain of two snarls is not rewritten.  For the chain
    of [A] = 1 -> 2 and [B] = 2 -> 3 the constructor files node 2, the end
    of the first snarl, as the end of the chain.  From node 5, whose
    neighbours to the right are both sides of node 1 and both sides of
    node 3, [follow_edges] calls the iteratee four times, on the handles of
    node 3 as they are as well as on those of node 1, and from node 3 to
    the left it shows node 2 as the start of the chain, before node 5.
    When the chain is the one snarl 1 -> 3, the handles of node 3 are
    rewritten and the iteratee is called on the two handles of node 1
    only. *)
Theorem follow_edges_chain_tail_not_rewritten :
  NetGraph.of_mixed_children (snarls two_siblings) (Snarl_start snarl_P)
    (Snarl_end snarl_P) [[1; 2]] hub_handle_graph true
  = Ok hub_net_graph
  ∧ NetGraph.follow_edges (NetGraph.logged collect_handles) hub_net_graph
      (5%Z, false) false ([], [])
    = Ok (true,
          ([(3%Z, false); (1%Z, true); (3%Z, true); (1%Z, false)],
           [((3%Z, false), true); ((1%Z, true), true);
            ((3%Z, true), true); ((1%Z, false), true)]))
  ∧ NetGraph.follow_edges (NetGraph.logged collect_handles) hub_net_graph
      (3%Z, false) true ([], [])
    = Ok (true,
          ([(5%Z, false); (1%Z, false)],
           [((5%Z, false), true); ((1%Z, false), true)]))
  ∧ (ng ← NetGraph.of_mixed_children [snarl_P; snarl_AB] (Snarl_start snarl_P)
            (Snarl_end snarl_P) [[1]] hub_handle_graph true;
     NetGraph.follow_edges (NetGraph.logged collect_handles) ng
       (5%Z, false) false ([], []))
    = Ok (true,
          ([(1%Z, true); (1%Z, false)],
           [((1%Z, true), true); ((1%Z, false), true)])).
Proof. split_and!; by vm_compute. Qed.

(** ** Contents of a snarl *)

Section contents.
Context (graph : VG).

Lemma get_node_same id node : get_node graph id = Ok node → node = id.
Proof. unfold get_node. case_decide; [|done]. by intros [= <-]. Qed.

Lemma push_new_with_nodes extra node st :
  push_new node (with_nodes extra st) = with_nodes extra (push_new node st).
Proof. unfold push_new. simpl. by case_decide. Qed.

Lemma insert_edge_with_nodes extra edge st :
  insert_edge edge (with_nodes extra st) = with_nodes extra (insert_edge edge st).
Proof. done. Qed.

Lemma insert_node_with_nodes extra node st :
  insert_node node (with_nodes extra st) = with_nodes extra (insert_node node st).
Proof.
  unfold insert_node, with_nodes. simpl. f_equal. by rewrite (assoc_L (∪)).
Qed.

Lemma pop_with_nodes extra st : pop (with_nodes extra st) = with_nodes extra (pop st).
Proof. done. Qed.

Lemma for_each_ignores_nodes {A} (body : A → search → result search) l :
  (∀ x, ignores_nodes (body x)) → ignores_nodes (for_each body l).
Proof.
  intros Hbody. induction l as [|x l IH]; intros extra st; simpl; [done|].
  rewrite Hbody. destruct (body x st) as [st'|e]; simpl; [|done]. apply IH.
Qed.

Lemma take_edge_ignores_nodes far edge :
  ignores_nodes (take_edge graph far edge).
Proof.
  intros extra st. unfold take_edge.
  destruct (get_node graph far) as [node|]; simpl; [|done].
  by rewrite push_new_with_nodes.
Qed.

Lemma from_start_boundary_ignores_nodes s edge :
  ignores_nodes (from_start_boundary graph s edge).
Proof.
  intros extra st. unfold from_start_boundary.
  destruct (_ && _); [apply take_edge_ignores_nodes|].
  destruct (_ && _); [apply take_edge_ignores_nodes|done].
Qed.

Lemma from_end_boundary_ignores_nodes s edge :
  ignores_nodes (from_end_boundary graph s edge).
Proof.
  intros extra st. unfold from_end_boundary.
  destruct (_ && _); [apply take_edge_ignores_nodes|].
  destruct (_ && _); [apply take_edge_ignores_nodes|done].
Qed.

Lemma stack_opposite_ignores_nodes m node forward child :
  ignores_nodes (stack_opposite m graph node forward child).
Proof.
  intros extra st. unfold stack_opposite. destruct child as [c|]; [|done].
  destruct (deref (snarls m) c) as [cs|]; simpl; [|done].
  destruct (get_node graph _) as [opposite|]; simpl; [|done].
  by rewrite push_new_with_nodes.
Qed.

Lemma shallow_edge_ignores_nodes node fs bs edge :
  ignores_nodes (shallow_edge graph node fs bs edge).
Proof.
  intros extra st. unfold shallow_edge.
  destruct (bool_decide (from edge = node)); (destruct (_ || _); [|done]);
    (destruct (get_node graph _); simpl; [|done]);
    by rewrite insert_edge_with_nodes, push_new_with_nodes.
Qed.

Lemma shallow_visit_ignores_nodes m node :
  ignores_nodes (shallow_visit m graph node).
Proof.
  intros extra st. unfold shallow_visit.
  rewrite insert_node_with_nodes, stack_opposite_ignores_nodes.
  destruct (stack_opposite m graph node true _ _) as [st1|]; simpl; [|done].
  rewrite stack_opposite_ignores_nodes.
  destruct (stack_opposite m graph node false _ _) as [st2|]; simpl; [|done].
  apply for_each_ignores_nodes. intros edge. apply shallow_edge_ignores_nodes.
Qed.

Lemma deep_edge_ignores_nodes node edge :
  ignores_nodes (deep_edge graph node edge).
Proof.
  intros extra st. unfold deep_edge.
  destruct (if bool_decide _ then _ else _) as [next|]; simpl; [|done].
  by rewrite insert_edge_with_nodes, push_new_with_nodes.
Qed.

Lemma deep_visit_ignores_nodes node : ignores_nodes (deep_visit graph node).
Proof.
  intros extra st. unfold deep_visit. rewrite insert_node_with_nodes.
  apply for_each_ignores_nodes. intros edge. apply deep_edge_ignores_nodes.
Qed.

Lemma dfs_ignores_nodes visit fuel :
  (∀ node, ignores_nodes (visit node)) → ignores_nodes (dfs visit fuel).
Proof.
  intros Hvisit. induction fuel as [|fuel IH]; intros extra st; simpl.
  { by destruct (stack st). }
  destruct (stack st) as [|node rest] eqn:Hstack; [done|].
  rewrite pop_with_nodes, Hvisit.
  destruct (visit node (pop st)) as [st'|]; simpl; [|done]. apply IH.
Qed.

(** With the boundary nodes included the search starts from the same
    state, but for these two nodes. *)
Lemma seed_include_boundary s :
  seed graph s true
  = with_nodes {[node_id (start s); node_id (end_ s)]} <$> seed graph s false.
Proof.
  unfold seed.
  destruct (get_node graph (node_id (start s))) as [start_node|] eqn:Hstart;
    simpl; [|done].
  destruct (get_node graph (node_id (end_ s))) as [end_node|] eqn:Hend;
    simpl; [|done].
  apply get_node_same in Hstart as ->. apply get_node_same in Hend as ->.
  set (st0 := Build_search [] _ ∅ ∅).
  assert (insert_node (node_id (end_ s)) (insert_node (node_id (start s)) st0)
          = with_nodes {[node_id (start s); node_id (end_ s)]} st0) as ->.
  { unfold insert_node, with_nodes. simpl. f_equal.
    rewrite (right_id_L ∅ (∪)), (left_id_L ∅ (∪)). apply (comm_L (∪)). }
  rewrite for_each_ignores_nodes
    by (intros edge; apply from_start_boundary_ignores_nodes).
  destruct (for_each (from_start_boundary graph s) _ st0) as [st1|]; simpl;
    [|done].
  apply for_each_ignores_nodes. intros edge. apply from_end_boundary_ignores_nodes.
Qed.

Lemma contents_include_boundary visit fuel s :
  (∀ node, ignores_nodes (visit node)) →
  differ_by_nodes {[node_id (start s); node_id (end_ s)]}
    (st ← seed graph s false; st ← dfs visit fuel st; Ok (nodes st, edges st))
    (st ← seed graph s true; st ← dfs visit fuel st; Ok (nodes st, edges st)).
Proof.
  intros Hvisit. rewrite seed_include_boundary.
  destruct (seed graph s false) as [st|]; simpl; [|done].
  rewrite dfs_ignores_nodes by done.
  by destruct (dfs visit fuel st) as [st'|]; simpl.
Qed.

(** *** The search loop ends *)

Lemma get_node_Ok id node :
  get_node graph id = Ok node → node ∈ node_by_id graph.
Proof. unfold get_node. case_decide; [|done]. by intros [= <-]. Qed.

Lemma get_node_Err id e : get_node graph id = Err e → e ≠ out_of_fuel.
Proof. unfold get_node. case_decide; [done|]. by intros [= <-]. Qed.

Lemma rounds_left_push_new node st :
  node ∈ node_by_id graph →
  rounds_left graph (push_new node st) = rounds_left graph st.
Proof.
  intros Hnode. unfold push_new. case_decide as Hin; [done|].
  unfold rounds_left. simpl.
  assert (node_by_id graph ∖ already_stacked st
          = {[node]} ∪ node_by_id graph ∖ ({[node]} ∪ already_stacked st)) as ->.
  { apply set_eq. intros x. rewrite elem_of_union, !elem_of_difference,
      elem_of_union, elem_of_singleton.
    destruct (decide (x = node)) as [->|]; [tauto|]. tauto. }
  rewrite (size_union {[node]}
             (node_by_id graph ∖ ({[node]} ∪ already_stacked st))).
  2:{ intros x Hx. rewrite elem_of_difference, elem_of_union. tauto. }
  rewrite size_singleton. lia.
Qed.

Lemma for_each_steady {A} (body : A → search → result search) l :
  (∀ x, steady graph (body x)) → steady graph (for_each body l).
Proof.
  intros Hbody. induction l as [|x l IH]; intros st; simpl; [done|].
  specialize (Hbody x st). destruct (body x st) as [st'|e]; simpl; [|done].
  specialize (IH st'). destruct (for_each body l st'); [lia|done].
Qed.

Lemma take_edge_steady far edge : steady graph (take_edge graph far edge).
Proof.
  intros st. unfold take_edge.
  destruct (get_node graph far) as [node|e] eqn:Hnode; simpl.
  - apply get_node_Ok in Hnode.
    by rewrite <-(rounds_left_push_new node st Hnode).
  - by eapply get_node_Err.
Qed.

Lemma Ok_steady : steady graph Ok.
Proof. by intros st. Qed.

Lemma from_start_boundary_steady s edge :
  steady graph (from_start_boundary graph s edge).
Proof.
  intros st. unfold from_start_boundary.
  destruct (_ && _); [apply take_edge_steady|].
  destruct (_ && _); [apply take_edge_steady|apply Ok_steady].
Qed.

Lemma from_end_boundary_steady s edge :
  steady graph (from_end_boundary graph s edge).
Proof.
  intros st. unfold from_end_boundary.
  destruct (_ && _); [apply take_edge_steady|].
  destruct (_ && _); [apply take_edge_steady|apply Ok_steady].
Qed.

Lemma stack_opposite_steady m node forward child :
  steady graph (stack_opposite m graph node forward child).
Proof.
  intros st. unfold stack_opposite. destruct child as [c|]; [|done].
  unfold deref. destruct (snarls m !! c) as [cs|]; simpl; [|done].
  destruct (get_node graph _) as [opposite|e] eqn:Hnode; simpl.
  - apply get_node_Ok in Hnode. by rewrite rounds_left_push_new.
  - by eapply get_node_Err.
Qed.

Lemma shallow_edge_steady node fs bs edge :
  steady graph (shallow_edge graph node fs bs edge).
Proof.
  intros st. unfold shallow_edge.
  destruct (bool_decide (from edge = node));
    (destruct (_ || _); [|apply Ok_steady]);
    (destruct (get_node graph _) as [next|e] eqn:Hnode; simpl;
     [apply get_node_Ok in Hnode; by rewrite rounds_left_push_new
     |by eapply get_node_Err]).
Qed.

Lemma deep_edge_steady node edge : steady graph (deep_edge graph node edge).
Proof.
  intros st. unfold deep_edge.
  case_bool_decide;
    (destruct (get_node graph _) as [next|e] eqn:Hnode; simpl;
     [apply get_node_Ok in Hnode; by rewrite rounds_left_push_new
     |by eapply get_node_Err]).
Qed.

Lemma shallow_visit_steady m node : steady graph (shallow_visit m graph node).
Proof.
  intros st. unfold shallow_visit.
  pose proof (stack_opposite_steady m node true (into_which_snarl m node false)
                (insert_node node st)) as H1.
  destruct (stack_opposite m graph node true _ _) as [st1|]; simpl; [|done].
  pose proof (stack_opposite_steady m node false (into_which_snarl m node true)
                st1) as H2.
  destruct (stack_opposite m graph node false _ _) as [st2|]; simpl; [|done].
  pose proof (for_each_steady
                (shallow_edge graph node (into_which_snarl m node false)
                   (into_which_snarl m node true))
                (edges_of_node graph node)
                (shallow_edge_steady node _ _) st2) as H3.
  destruct (for_each _ _ st2); [|done].
  unfold rounds_left in *. simpl in *. lia.
Qed.

Lemma deep_visit_steady node : steady graph (deep_visit graph node).
Proof.
  intros st. unfold deep_visit.
  pose proof (for_each_steady (deep_edge graph node) (edges_of_node graph node)
                (deep_edge_steady node) (insert_node node st)) as H1.
  destruct (for_each _ _ _); [|done].
  unfold rounds_left in *. simpl in *. lia.
Qed.

(** A bound of at least the rounds left is never used up. *)
Lemma dfs_enough_fuel visit fuel st :
  (∀ node, steady graph (visit node)) → rounds_left graph st ≤ fuel →
  dfs visit fuel st ≠ Err out_of_fuel.
Proof.
  intros Hvisit. revert st. induction fuel as [|fuel IH]; intros st Hfuel; simpl.
  { destruct (stack st) eqn:Hstack; [done|].
    unfold rounds_left in Hfuel. rewrite Hstack in Hfuel. simpl in Hfuel. lia. }
  destruct (stack st) as [|node rest] eqn:Hstack; [done|].
  specialize (Hvisit node (pop st)).
  destruct (visit node (pop st)) as [st'|e]; simpl; [|congruence].
  apply IH. unfold rounds_left in *. rewrite Hstack in Hfuel.
  simpl in *. rewrite Hstack in Hvisit. simpl in *. lia.
Qed.

Lemma seed_rounds_left s b :
  match seed graph s b with
  | Ok st => rounds_left graph st ≤ size (node_by_id graph)
  | Err e => e ≠ out_of_fuel
  end.
Proof.
  unfold seed.
  destruct (get_node graph (node_id (start s))) as [start_node|e] eqn:Hs;
    simpl; [|by eapply get_node_Err].
  destruct (get_node graph (node_id (end_ s))) as [end_node|e] eqn:He;
    simpl; [|by eapply get_node_Err].
  set (st0 := if b then _ else _).
  assert (Hst0 : rounds_left graph st0 ≤ size (node_by_id graph)).
  { unfold rounds_left. replace (length (stack st0)) with 0 by by destruct b.
    rewrite Nat.add_0_r. apply subseteq_size.
    intros x Hx. by apply elem_of_difference in Hx as [? _]. }
  pose proof (for_each_steady (from_start_boundary graph s)
                (edges_of_node graph start_node)
                (from_start_boundary_steady s) st0) as H1.
  destruct (for_each _ _ st0) as [st1|]; simpl; [|done].
  pose proof (for_each_steady (from_end_boundary graph s)
                (edges_of_node graph end_node)
                (from_end_boundary_steady s) st1) as H2.
  destruct (for_each _ _ st1) as [st2|]; simpl; [lia|done].
Qed.

Lemma contents_terminate visit s b :
  (∀ node, steady graph (visit node)) →
  (st ← seed graph s b; st ← dfs visit (size (node_by_id graph)) st;
   Ok (nodes st, edges st)) ≠ Err out_of_fuel.
Proof.
  intros Hvisit. pose proof (seed_rounds_left s b) as Hseed.
  destruct (seed graph s b) as [st|e]; simpl; [|congruence].
  pose proof (dfs_enough_fuel visit _ st Hvisit Hseed) as Hdfs.
  destruct (dfs visit _ st); simpl; [done|congruence].
Qed.

End contents.

(** C8: for a snarl of the store and a graph, [shallow_contents] returns
    with and without the boundary nodes the same edges, and with them the
    nodes it returns without them plus the start node and the end node of
    the snarl; so does [deep_contents].  When one call throws, because the
    graph lacks a node, the other throws the same; the search loops end
    within the bound of the model. *)
Theorem contents_boundary_flag (m : SnarlManager.t) (p : nat) (s : Snarl)
    (graph : VG) :
  snarls m !! p = Some s →
  differ_by_nodes {[node_id (start s); node_id (end_ s)]}
    (shallow_contents m p graph false) (shallow_contents m p graph true)
  ∧ differ_by_nodes {[node_id (start s); node_id (end_ s)]}
      (deep_contents m p graph false) (deep_contents m p graph true)
  ∧ (∀ b, shallow_contents m p graph b ≠ Err out_of_fuel)
  ∧ (∀ b, deep_contents m p graph b ≠ Err out_of_fuel).
Proof.
  intros Hs. unfold shallow_contents, deep_contents, deref. rewrite Hs. simpl.
  split_and!.
  - apply contents_include_boundary. intros node.
    apply shallow_visit_ignores_nodes.
  - apply contents_include_boundary. intros node. apply deep_visit_ignores_nodes.
  - intros b. apply contents_terminate. intros node. apply shallow_visit_steady.
  - intros b. apply contents_terminate. intros node. apply deep_visit_steady.
Qed.

(** The snarl [P] of the two siblings in the row graph: both queries return
    with the boundary nodes what they return without them, plus the nodes 0
    and 4. *)
Lemma contents_boundary_flag_witness :
  differ_by_nodes {[0%Z; 4%Z]}
    (shallow_contents two_siblings 0 row_graph false)
    (shallow_contents two_siblings 0 row_graph true)
  ∧ differ_by_nodes {[0%Z; 4%Z]}
      (deep_contents two_siblings 0 row_graph false)
      (deep_contents two_siblings 0 row_graph true)
  ∧ (∀ b, shallow_contents two_siblings 0 row_graph b ≠ Err out_of_fuel)
  ∧ (∀ b, deep_contents two_siblings 0 row_graph b ≠ Err out_of_fuel).
Proof.
  apply (contents_boundary_flag two_siblings 0 snarl_P row_graph). reflexivity.
Defined.

(** ** The scenarios, run *)

(** The two siblings: the parent [P] is the one top-level snarl, its
    children are [A] and [B] in store order, and both have [P] as their
    parent. *)
Example two_siblings_tree :
  top_level_snarls two_siblings = [0]
  ∧ children_of two_siblings (Some 0) = Ok [1; 2]
  ∧ children_of two_siblings (Some 1) = Ok []
  ∧ parent_of two_siblings 1 = Ok (Some 0)
  ∧ parent_of two_siblings 0 = Ok None.
Proof. by vm_compute. Qed.

(** A top-level snarl without neighbours is a chain of its own. *)
Example one_unary_chains : ∀ fuel, chains_of one_unary fuel None = Ok [[0]].
Proof. intros [|fuel]; by vm_compute. Qed.

(** In the row graph the node 5 lies inside the child [A]: the shallow
    contents of [P] leave it out and the deep contents have it; both have
    the edges at the boundaries of [P]. *)
Example shallow_and_deep_contents :
  shallow_contents two_siblings 0 row_graph false
  = Ok ({[1; 2; 3]}%Z,
        {[Build_Edge 0 1 false false; Build_Edge 3 4 false false]})
  ∧ deep_contents two_siblings 0 row_graph false
    = Ok ({[1; 2; 3; 5]}%Z,
          {[Build_Edge 0 1 false false; Build_Edge 1 2 false false;
            Build_Edge 1 5 false false; Build_Edge 5 2 false false;
            Build_Edge 2 3 false false; Build_Edge 3 4 false false]}).
Proof. by vm_compute. Qed.

(** * Further properties of the manager *)

(** ** The children index *)

Lemma first_pass_children i todo m k :
  children (first_pass i todo m) !! k
  = match children_from k i todo with
    | [] => children m !! k
    | cs => Some (default [] (children m !! k) ++ cs)
    end.
Proof.
  revert i m. induction todo as [|s todo IH]; intros i m; simpl; [done|].
  rewrite IH. clear IH.
  assert (Hstep : children (index_record m i s) !! k
    = if has_parent s && bool_decide (key_form (Snarl_parent s) = k)
      then Some (default [] (children m !! k) ++ [i]) else children m !! k).
  { unfold index_record. destruct (has_parent s); simpl; [|done].
    case_bool_decide as Hk.
    - subst k. destruct (children m !! _) as [cs|] eqn:Hcs; simpl;
        by rewrite lookup_insert_eq.
    - destruct (children m !! key_form (Snarl_parent s));
        by rewrite lookup_insert_ne. }
  rewrite Hstep.
  destruct (has_parent s && bool_decide (key_form (Snarl_parent s) = k)); simpl.
  - destruct (children_from k (S i) todo); simpl; [done|].
    by rewrite <-app_assoc.
  - done.
Qed.

Lemma second_pass_children i todo m k :
  children (second_pass i todo m) !! k
  = match children m !! k with
    | Some cs => Some cs
    | None => if bool_decide (k ∈ key_form <$> todo) then Some [] else None
    end.
Proof.
  revert i m. induction todo as [|s todo IH]; intros i m.
  { simpl. by destruct (children m !! k). }
  change (second_pass i (s :: todo) m)
    with (second_pass (S i) todo (link_record m i s)).
  rewrite fmap_cons, IH. clear IH. unfold link_record.
  destruct (decide (k = key_form s)) as [->|Hne].
  - rewrite (bool_decide_eq_true_2 (key_form s ∈ _ :: _)) by by left.
    destruct (children m !! key_form s) as [cs|] eqn:Hs; simpl.
    + by rewrite Hs.
    + by rewrite lookup_insert_eq.
  - assert (bool_decide (k ∈ key_form s :: (key_form <$> todo))
            = bool_decide (k ∈ key_form <$> todo)) as ->.
    { apply bool_decide_ext. rewrite elem_of_cons. tauto. }
    destruct (children m !! key_form s) as [cs|] eqn:Hs; simpl; [done|].
    by rewrite lookup_insert_ne.
Qed.

Lemma children_make records k :
  children (make records) !! k
  = match children_from k 0 records with
    | [] => if bool_decide (k ∈ key_form <$> records) then Some [] else None
    | cs => Some cs
    end.
Proof.
  unfold make, build_indexes. simpl.
  rewrite second_pass_children, first_pass_children. simpl.
  rewrite lookup_empty. by destruct (children_from k 0 records).
Qed.

Lemma elem_of_children_from k i records q :
  q ∈ children_from k i records ↔
  ∃ r, i ≤ q ∧ records !! (q - i) = Some r ∧ has_parent r = true
       ∧ key_form (Snarl_parent r) = k.
Proof.
  revert i. induction records as [|s records IH]; intros i; simpl.
  { split; [by intros ?%elem_of_nil|]. intros (r & _ & Hr & _).
    by rewrite lookup_nil in Hr. }
  rewrite elem_of_app, IH. split.
  - intros [Hq|(r & Hle & Hr & Hpar & Hk)].
    + destruct (has_parent s) eqn:Hpar; simpl in Hq;
        [|by apply elem_of_nil in Hq].
      case_bool_decide as Hk; [|by apply elem_of_nil in Hq].
      apply list_elem_of_singleton in Hq as ->. exists s.
      by rewrite Nat.sub_diag.
    + exists r. split; [lia|]. split; [|done].
      by replace (q - i) with (S (q - S i)) by lia.
  - intros (r & Hle & Hr & Hpar & Hk).
    destruct (decide (q = i)) as [->|Hne].
    + left. rewrite Nat.sub_diag in Hr. simpl in Hr. simplify_eq.
      rewrite Hpar. simpl. rewrite bool_decide_eq_true_2 by done.
      by apply list_elem_of_singleton.
    + right. exists r. split; [lia|]. split; [|done].
      by replace (q - i) with (S (q - S i)) in Hr by lia.
Qed.

Lemma children_from_sorted k i records :
  StronglySorted lt (children_from k i records).
Proof.
  revert i. induction records as [|s records IH]; intros i; simpl.
  { constructor. }
  destruct (has_parent s && bool_decide _); simpl; [|apply IH].
  constructor; [apply IH|]. apply Forall_forall. intros q Hq.
  apply elem_of_children_from in Hq as (r & Hle & _). lia.
Qed.

(** X1: once the indexes are built, every snarl of the store has an entry
    in the children index: [children_of] and [is_leaf] do not throw on it.
    Its children are the records that name its key as their parent, in the
    order of the store, and it is a leaf when there are none. *)
Theorem children_of_make (records : list Snarl) (p : nat) (s : Snarl) :
  records !! p = Some s →
  ∃ cs, children_of (make records) (Some p) = Ok cs
    ∧ is_leaf (make records) p = Ok (bool_decide (cs = []))
    ∧ (∀ q, q ∈ cs ↔ ∃ r, records !! q = Some r ∧ has_parent r = true
                         ∧ key_form (Snarl_parent r) = key_form s)
    ∧ StronglySorted lt cs.
Proof.
  intros Hs. exists (children_from (key_form s) 0 records).
  assert (Hcs : children (make records) !! key_form s
                = Some (children_from (key_form s) 0 records)).
  { rewrite children_make. destruct (children_from _ 0 records); [|done].
    rewrite bool_decide_eq_true_2; [done|].
    apply list_elem_of_fmap. exists s. split; [done|].
    by eapply list_elem_of_lookup_2. }
  unfold children_of, is_leaf, deref. rewrite snarls_make, Hs. simpl.
  rewrite Hcs. split_and!; [done| | |apply children_from_sorted].
  - f_equal. by destruct (children_from _ 0 records).
  - intros q. rewrite elem_of_children_from, Nat.sub_0_r. split.
    + intros (r & _ & ? & ? & ?). eauto.
    + intros (r & ? & ? & ?). exists r. split; [lia|done].
Qed.

(** In the store of the two siblings the parent [P] has the children [A]
    and [B]. *)
Lemma children_of_make_witness :
  ∃ cs, children_of two_siblings (Some 0) = Ok cs
    ∧ is_leaf two_siblings 0 = Ok (bool_decide (cs = []))
    ∧ (∀ q, q ∈ cs ↔ ∃ r, [snarl_P; snarl_A; snarl_B] !! q = Some r
                         ∧ has_parent r = true
                         ∧ key_form (Snarl_parent r) = key_form snarl_P)
    ∧ StronglySorted lt cs.
Proof.
  apply (children_of_make [snarl_P; snarl_A; snarl_B] 0 snarl_P). reflexivity.
Defined.

(** ** The parent index *)

Lemma last_writer_acc P i records acc :
  last_writer P i records acc
  = match last_writer P i records None with Some j => Some j | None => acc end.
Proof.
  induction records as [|s records IH] using rev_ind; [done|].
  rewrite !last_writer_snoc. by destruct (P s).
Qed.

Lemma last_writer_ext P Q i records acc :
  (∀ s, P s = Q s) → last_writer P i records acc = last_writer Q i records acc.
Proof.
  intros HPQ. revert i acc.
  induction records as [|s records IH]; intros i acc; simpl; [done|].
  by rewrite HPQ, IH.
Qed.

Lemma names_key_cons mem k c cs :
  names_key mem k (c :: cs)
  = bool_decide (key_form <$> mem !! c = Some k) || names_key mem k cs.
Proof.
  unfold names_key. rewrite <-bool_decide_or. apply bool_decide_ext.
  apply Exists_cons.
Qed.

Lemma names_key_true mem k cs :
  names_key mem k cs = true ↔
  ∃ c r, c ∈ cs ∧ mem !! c = Some r ∧ key_form r = k.
Proof.
  unfold names_key. rewrite bool_decide_eq_true, Exists_exists. split.
  - intros (c & Hc & Hk). destruct (mem !! c) as [r|] eqn:Hr; [|done].
    simpl in Hk. exists c, r. split_and!; [done..|congruence].
  - intros (c & r & Hc & Hr & Hk). exists c. split; [done|].
    rewrite Hr. simpl. by rewrite Hk.
Qed.

Lemma foldl_mark_parent mem i par cs k :
  foldl (mark_parent mem i) par cs !! k
  = if names_key mem k cs then Some (Some i) else par !! k.
Proof.
  revert par. induction cs as [|c cs IH]; intros par; [done|].
  simpl. rewrite IH, names_key_cons. unfold mark_parent.
  destruct (names_key mem k cs); [by rewrite orb_true_r|].
  rewrite orb_false_r. destruct (mem !! c) as [r|]; simpl.
  - case_bool_decide as Hk.
    + simplify_eq. by rewrite lookup_insert_eq.
    + rewrite lookup_insert_ne; [done|congruence].
  - done.
Qed.

Lemma parent_link_record m i s :
  parent (link_record m i s)
  = foldl (mark_parent (snarls m) i) (parent m)
          (default [] (children m !! key_form s)).
Proof. unfold link_record. by destruct (children m !! key_form s). Qed.

Lemma children_link_record m i s k :
  default [] (children (link_record m i s) !! k)
  = default [] (children m !! k).
Proof.
  unfold link_record. destruct (children m !! key_form s) eqn:Hs; [done|].
  simpl. destruct (decide (k = key_form s)) as [->|Hne].
  - by rewrite lookup_insert_eq, Hs.
  - by rewrite lookup_insert_ne.
Qed.

Lemma snarls_link_record m i s : snarls (link_record m i s) = snarls m.
Proof. unfold link_record. by destruct (children m !! key_form s). Qed.

Lemma second_pass_parent i todo m k :
  parent (second_pass i todo m) !! k
  = match last_writer
            (λ s, names_key (snarls m) k (default [] (children m !! key_form s)))
            i todo None with
    | Some j => Some (Some j)
    | None => parent m !! k
    end.
Proof.
  revert i m. induction todo as [|s todo IH]; intros i m; [done|].
  simpl. rewrite IH. clear IH.
  rewrite (last_writer_ext _
    (λ s, names_key (snarls m) k (default [] (children m !! key_form s))))
    by (intros s'; by rewrite snarls_link_record, children_link_record).
  rewrite parent_link_record, foldl_mark_parent.
  destruct (names_key (snarls m) k (default [] (children m !! key_form s))).
  - rewrite (last_writer_acc _ (S i) todo (Some i)).
    by destruct (last_writer _ (S i) todo None).
  - done.
Qed.

Lemma first_pass_parent i todo m k :
  parent (first_pass i todo m) !! k
  = match last_writer (λ s, negb (has_parent s) && bool_decide (key_form s = k))
            i todo None with
    | Some _ => Some None
    | None => parent m !! k
    end.
Proof.
  revert i m. induction todo as [|s todo IH]; intros i m; [done|].
  simpl. rewrite IH. clear IH.
  assert (Hstep : parent (index_record m i s) !! k
    = if negb (has_parent s) && bool_decide (key_form s = k)
      then Some None else parent m !! k).
  { unfold index_record. destruct (has_parent s); simpl; [done|].
    case_bool_decide as Hk.
    - subst k. by rewrite lookup_insert_eq.
    - by rewrite lookup_insert_ne. }
  rewrite Hstep.
  destruct (negb (has_parent s) && bool_decide (key_form s = k)).
  - rewrite (last_writer_acc _ (S i) todo (Some i)).
    by destruct (last_writer _ (S i) todo None).
  - done.
Qed.

Lemma children_first_pass_default records k :
  default [] (children (first_pass 0 records (Build records [] ∅ ∅ ∅ ∅)) !! k)
  = children_from k 0 records.
Proof.
  rewrite first_pass_children. simpl. rewrite lookup_empty.
  by destruct (children_from k 0 records).
Qed.

Lemma parent_make records k :
  parent (make records) !! k
  = match last_writer
            (λ s, names_key records k (children_from (key_form s) 0 records))
            0 records None with
    | Some j => Some (Some j)
    | None =>
        match last_writer
                (λ s, negb (has_parent s) && bool_decide (key_form s = k))
                0 records None with
        | Some _ => Some None
        | None => None
        end
    end.
Proof.
  unfold make, build_indexes. simpl.
  rewrite second_pass_parent, first_pass_snarls. simpl.
  rewrite (last_writer_ext _
    (λ s, names_key records k (children_from (key_form s) 0 records)))
    by (intros s; by rewrite children_first_pass_default).
  destruct (last_writer _ 0 records None); [done|].
  rewrite first_pass_parent. simpl. by rewrite lookup_empty.
Qed.

(** In a store with distinct keys the position of a record is given by its
    key. *)
Lemma key_form_position records i j r r' :
  NoDup (key_form <$> records) →
  records !! i = Some r → records !! j = Some r' →
  key_form r = key_form r' → i = j.
Proof.
  intros Hnd Hi Hj Hk. eapply NoDup_lookup; [done| |].
  - rewrite list_lookup_fmap, Hi. done.
  - rewrite list_lookup_fmap, Hj. simpl. by rewrite Hk.
Qed.

(** X2: in a store with distinct keys, after the indexes are built: a
    record without a parent is a root, with a null parent; a record whose
    parent is the record at position [i] has that record as its parent and
    is one of its children; and for a record that names a parent the store
    does not have, [parent_of] and [is_root] throw. *)
Theorem parent_of_make (records : list Snarl) (p : nat) (s : Snarl) :
  NoDup (key_form <$> records) → records !! p = Some s →
  (has_parent s = false →
     parent_of (make records) p = Ok None ∧ is_root (make records) p = Ok true)
  ∧ (∀ i r, has_parent s = true → records !! i = Some r →
       key_form r = key_form (Snarl_parent s) →
       parent_of (make records) p = Ok (Some i)
       ∧ is_root (make records) p = Ok false
       ∧ ∃ cs, children_of (make records) (Some i) = Ok cs ∧ p ∈ cs)
  ∧ (has_parent s = true →
     (∀ r, r ∈ records → key_form r ≠ key_form (Snarl_parent s)) →
     parent_of (make records) p = Err out_of_range
     ∧ is_root (make records) p = Err out_of_range).
Proof.
  intros Hnd Hs.
  assert (Hwriter : ∀ j, last_writer
            (λ s', names_key records (key_form s)
                     (children_from (key_form s') 0 records)) 0 records None
            = Some j →
          ∃ r, records !! j = Some r ∧ has_parent s = true
               ∧ key_form (Snarl_parent s) = key_form r).
  { intros j (r & _ & Hr & Hnames & _)%last_writer_Some.
    rewrite Nat.sub_0_r in Hr. exists r. split; [done|].
    apply names_key_true in Hnames as (c & rc & Hc & Hrc & Hk).
    assert (c = p) as -> by by eapply key_form_position.
    apply elem_of_children_from in Hc as (s' & _ & Hs' & Hpar & Hpk).
    rewrite Nat.sub_0_r in Hs'. assert (s' = s) as -> by congruence.
    by split. }
  unfold parent_of, is_root, deref. rewrite snarls_make, Hs. simpl.
  rewrite parent_make. split_and!.
  - intros Hroot.
    destruct (last_writer _ 0 records None) as [j|] eqn:Hj.
    { destruct (Hwriter _ eq_refl) as (r & _ & Hpar & _). congruence. }
    destruct (last_writer_at_least
                (λ s', negb (has_parent s') && bool_decide (key_form s' = key_form s))
                0 records None p s Hs) as (j & -> & _); [|done].
    rewrite Hroot. simpl. by apply bool_decide_eq_true.
  - intros i r Hpar Hr Hkey.
    destruct (last_writer_at_least
                (λ s', names_key records (key_form s)
                         (children_from (key_form s') 0 records))
                0 records None i r Hr) as (j & Hj & _).
    { apply names_key_true. exists p, s. split_and!; [|done..].
      apply elem_of_children_from. exists s. rewrite Nat.sub_0_r.
      split_and!; [lia|done..]. }
    rewrite Hj. destruct (Hwriter j Hj) as (r' & Hr' & _ & Hk').
    assert (j = i) as ->.
    { eapply key_form_position; [done..|]. congruence. }
    split_and!; [done..|].
    destruct (children_of_make records i r Hr) as (cs & Hcs & _ & Hin & _).
    exists cs. split; [done|]. apply Hin. eauto.
  - intros Hpar Hnone.
    destruct (last_writer _ 0 records None) as [j|] eqn:Hj.
    { destruct (Hwriter _ eq_refl) as (r & Hr & _ & Hk). exfalso.
      eapply Hnone; [by eapply list_elem_of_lookup_2|done]. }
    destruct (last_writer (λ s', negb (has_parent s') && _) 0 records None)
      as [j|] eqn:Hj'; [|done].
    apply last_writer_Some in Hj' as (r & _ & Hr & Hroot & _).
    rewrite Nat.sub_0_r in Hr. apply andb_true_iff in Hroot as [Hroot Hk].
    apply bool_decide_eq_true in Hk.
    assert (j = p) as -> by by eapply key_form_position.
    simplify_eq. by rewrite Hpar in Hroot.
Qed.

(** In the store of the two siblings [A] has the parent [P]; [P] is a
    root; and alone in a store, [A] names a parent that is not there. *)
Lemma parent_of_make_witness :
  (parent_of two_siblings 0 = Ok None ∧ is_root two_siblings 0 = Ok true)
  ∧ (parent_of two_siblings 1 = Ok (Some 0)
     ∧ is_root two_siblings 1 = Ok false
     ∧ ∃ cs, children_of two_siblings (Some 0) = Ok cs ∧ 1 ∈ cs)
  ∧ (parent_of (make [snarl_A]) 0 = Err out_of_range
     ∧ is_root (make [snarl_A]) 0 = Err out_of_range).
Proof.
  assert (Hnd : NoDup (key_form <$> [snarl_P; snarl_A; snarl_B])).
  { apply (bool_decide_unpack _). by vm_compute. }
  assert (Hnd1 : NoDup (key_form <$> [snarl_A])).
  { apply (bool_decide_unpack _). by vm_compute. }
  split; [|split].
  - apply (proj1 (parent_of_make [snarl_P; snarl_A; snarl_B] 0 snarl_P Hnd
                    eq_refl)). reflexivity.
  - apply (proj1 (proj2 (parent_of_make [snarl_P; snarl_A; snarl_B] 1 snarl_A
                           Hnd eq_refl)) 0 snarl_P); reflexivity.
  - apply (proj2 (proj2 (parent_of_make [snarl_A] 0 snarl_A Hnd1 eq_refl)));
      [reflexivity|].
    intros r Hr. apply list_elem_of_singleton in Hr as ->. discriminate.
Defined.

(** ** flip and the queries *)


(** X3: flipping a snarl whose key the flip changes, and that has its
    entries in the indexes, keeps the queries on it: the flipped value is
    managed at the same position, with the same children and the same
    parent, the roots and [into_which_snarl] are as before; the value it
    had before the flip is no longer managed.  The queries on a snarl with
    another key than the old and the new one are as before. *)
Theorem flip_keeps_queries (m : SnarlManager.t) (p : nat) (s : Snarl)
    (cs : list nat) (par : option nat) :
  snarls m !! p = Some s → key_form (flipped s) ≠ key_form s →
  index_of m !! key_form s = Some p →
  children m !! key_form s = Some cs → parent m !! key_form s = Some par →
  ∃ m', flip m p = Ok m'
    ∧ snarls m' !! p = Some (flipped s)
    ∧ manage m' (flipped s) = Ok p
    ∧ manage m' s = Err runtime_error
    ∧ children_of m' (Some p) = Ok cs
    ∧ parent_of m' p = Ok par
    ∧ top_level_snarls m' = top_level_snarls m
    ∧ (∀ id reverse,
         into_which_snarl m' id reverse = into_which_snarl m id reverse)
    ∧ (∀ q r, q ≠ p → snarls m !! q = Some r →
         key_form r ≠ key_form s → key_form r ≠ key_form (flipped s) →
         manage m' r = manage m r
         ∧ children_of m' (Some q) = children_of m (Some q)
         ∧ parent_of m' q = parent_of m q).
Proof.
  intros Hs Hne Hi Hcs Hpar. eexists. split; [by apply flip_Ok|].
  assert (Hp : p < length (snarls m)) by by eapply lookup_lt_Some.
  assert (Hp' : <[p := flipped s]> (snarls m) !! p = Some (flipped s))
    by by apply list_lookup_insert_eq.
  unfold manage, children_of, parent_of, deref. simpl. rewrite Hp'. simpl.
  rewrite !lookup_rekey_new by done. rewrite Hi, Hcs, Hpar. simpl.
  rewrite Hp', lookup_rekey_old. split_and!; try done.
  intros q r Hq Hr Hold Hnew.
  rewrite !lookup_rekey_other by done.
  rewrite list_lookup_insert_ne by done. rewrite Hr. simpl.
  rewrite !lookup_rekey_other by done.
  split; [|done].
  destruct (index_of m !! key_form r) as [j|]; [|done].
  destruct (decide (j = p)) as [->|Hj].
  - by rewrite Hp', Hs.
  - by rewrite list_lookup_insert_ne.
Qed.

(** Flipping [A] in the store of the two siblings. *)
Lemma flip_keeps_queries_witness :
  ∃ m', flip two_siblings 1 = Ok m'
    ∧ manage m' (flipped snarl_A) = Ok 1
    ∧ manage m' snarl_A = Err runtime_error
    ∧ children_of m' (Some 1) = Ok []
    ∧ parent_of m' 1 = Ok (Some 0)
    ∧ manage m' snarl_B = manage two_siblings snarl_B.
Proof.
  destruct (flip_keeps_queries two_siblings 1 snarl_A [] (Some 0))
    as (m' & Hflip & _ & Hnew & Hold & Hcs & Hpar & _ & _ & Hother);
    [reflexivity|discriminate|reflexivity..|].
  exists m'. split_and!; [done..|].
  apply (Hother 2 snarl_B); [lia|reflexivity|discriminate|discriminate].
Defined.

(** ** The boundary indexes made on demand *)

Lemma boundary_index_from_lookup i todo index k :
  boundary_index_from i todo index !! k
  = last_writer (writes_to k) i todo (index !! k).
Proof.
  revert i index. induction todo as [|s todo IH]; intros i index; [done|].
  simpl. rewrite IH. f_equal. unfold writes_to. rewrite !lookup_insert.
  repeat case_decide; repeat case_bool_decide; simpl; congruence.
Qed.

Lemma start_index_from_lookup i todo index k :
  start_index_from i todo index !! k
  = last_writer (λ s, bool_decide (start_key s = k)) i todo (index !! k).
Proof.
  revert i index. induction todo as [|s todo IH]; intros i index; [done|].
  simpl. rewrite IH. f_equal. rewrite lookup_insert.
  case_decide; case_bool_decide; congruence.
Qed.

Lemma end_index_from_lookup i todo index k :
  end_index_from i todo index !! k
  = last_writer (λ s, bool_decide (end_key s = k)) i todo (index !! k).
Proof.
  revert i index. induction todo as [|s todo IH]; intros i index; [done|].
  simpl. rewrite IH. f_equal. rewrite lookup_insert.
  case_decide; case_bool_decide; congruence.
Qed.

Lemma last_writer_insert P i records acc p s s' :
  records !! p = Some s → P s' = P s →
  last_writer P i (<[p := s']> records) acc = last_writer P i records acc.
Proof.
  revert i acc p. induction records as [|r records IH]; intros i acc p; [done|].
  destruct p as [|p]; simpl.
  - intros [= ->] ->. done.
  - intros Hp HP. by apply IH.
Qed.

Lemma writes_to_flipped k s : writes_to k (flipped s) = writes_to k s.
Proof.
  unfold writes_to. rewrite start_key_flipped, end_key_flipped.
  apply orb_comm.
Qed.

(** X4: the boundary index made on demand is the index [snarl_into] that
    [build_indexes] has made, and neither changes when a snarl is flipped:
    after any flips the two still agree. *)
Theorem snarl_boundary_index_is_snarl_into :
  (∀ records : list Snarl,
     snarl_boundary_index (make records) = snarl_into (make records))
  ∧ (∀ (m m' : SnarlManager.t) (p : nat),
       flip m p = Ok m' →
       snarl_boundary_index m' = snarl_boundary_index m
       ∧ snarl_into m' = snarl_into m).
Proof.
  split.
  - intros records. apply map_eq. intros k. unfold snarl_boundary_index.
    by rewrite boundary_index_from_lookup, snarls_make, snarl_into_make.
  - intros m m' p. unfold flip, deref.
    destruct (snarls m !! p) as [s|] eqn:Hs; [|done]. simpl.
    intros [= <-]. split; [|done]. apply map_eq. intros k.
    unfold snarl_boundary_index. simpl.
    rewrite !boundary_index_from_lookup.
    apply (last_writer_insert _ _ _ _ _ s); [done|]. apply writes_to_flipped.
Qed.

(** In the store of the two siblings, before and after flipping [A]. *)
Lemma snarl_boundary_index_is_snarl_into_witness :
  ∃ m', flip two_siblings 1 = Ok m'
    ∧ snarl_boundary_index m' = snarl_boundary_index two_siblings
    ∧ snarl_into m' = snarl_into two_siblings.
Proof.
  destruct (flip two_siblings 1) as [m'|] eqn:Hflip; [|discriminate].
  exists m'. split; [done|].
  by apply (proj2 snarl_boundary_index_is_snarl_into two_siblings m' 1).
Defined.

(** X5: an entry of the boundary index is an entry of the start index or of
    the end index, under the same key, and the start and the end index have
    no entries under other keys than the boundary index. *)
Theorem boundary_index_covered (m : SnarlManager.t) (k : Z * bool) :
  (∀ p, snarl_boundary_index m !! k = Some p →
     snarl_start_index m !! k = Some p ∨ snarl_end_index m !! k = Some p)
  ∧ (snarl_boundary_index m !! k = None ↔
     snarl_start_index m !! k = None ∧ snarl_end_index m !! k = None).
Proof.
  unfold snarl_boundary_index, snarl_start_index, snarl_end_index.
  rewrite boundary_index_from_lookup, start_index_from_lookup,
    end_index_from_lookup, !lookup_empty.
  split.
  - intros p Hp.
    destruct (last_writer_Some _ _ _ _ Hp) as (s & _ & Hs & Hw & Hlast).
    rewrite Nat.sub_0_r in Hs, Hlast.
    unfold writes_to in Hw. apply orb_true_iff in Hw as [Hw|Hw].
    + left. rewrite (last_writer_last _ 0 (snarls m) None p s); [done..|].
      intros q r Hq Hr. specialize (Hlast q r Hq Hr).
      unfold writes_to in Hlast. by apply orb_false_iff in Hlast as [? _].
    + right. rewrite (last_writer_last _ 0 (snarls m) None p s); [done..|].
      intros q r Hq Hr. specialize (Hlast q r Hq Hr).
      unfold writes_to in Hlast. by apply orb_false_iff in Hlast as [_ ?].
  - rewrite !last_writer_None. unfold writes_to. split.
    + intros Hall. split; intros s Hs; specialize (Hall s Hs);
        apply orb_false_iff in Hall; tauto.
    + intros [H1 H2] s Hs. by rewrite H1, H2.
Qed.

(** In the store of the two siblings node 2 is entered forward into [B]:
    the entry of the boundary index is one of the start index. *)
Lemma boundary_index_covered_witness :
  snarl_start_index two_siblings !! (2%Z, false) = Some 2
  ∨ snarl_end_index two_siblings !! (2%Z, false) = Some 2.
Proof.
  apply (proj1 (boundary_index_covered two_siblings (2%Z, false)) 2).
  reflexivity.
Defined.

(** ** Chain neighbours *)

(** X6: after the indexes are built, a snarl that still has its own two
    entries of [snarl_into] is a chain neighbour of each of its chain
    neighbours: if one of [snarl_sharing_start] and [snarl_sharing_end]
    leads from [a] to [b], one of them leads from [b] back to [a]. *)
Theorem chain_neighbour_symmetric (records : list Snarl) (a b : nat)
    (sa : Snarl) :
  records !! a = Some sa →
  snarl_into (make records) !! start_key sa = Some a →
  snarl_into (make records) !! end_key sa = Some a →
  snarl_sharing_start (make records) a = Ok (Some b)
  ∨ snarl_sharing_end (make records) a = Ok (Some b) →
  snarl_sharing_start (make records) b = Ok (Some a)
  ∨ snarl_sharing_end (make records) b = Ok (Some a).
Proof.
  intros Ha Hstart Hend Hab.
  assert (Hlink : ∃ k, snarl_into (make records) !! k = Some b ∧ a ≠ b
            ∧ (k = (node_id (start sa), negb (backward (start sa)))
               ∨ k = (node_id (end_ sa), backward (end_ sa)))).
  { unfold snarl_sharing_start, snarl_sharing_end, deref, into_which_snarl
      in Hab.
    rewrite snarls_make, Ha in Hab. simpl in Hab.
    destruct Hab as [Hab|Hab]; case_decide as Hself; simplify_eq;
      eexists; (split; [done|]); (split; [congruence|]); auto. }
  destruct Hlink as (k & Hk & Hne & Hkey).
  destruct (snarl_into_make_Some _ _ _ Hk) as (sb & Hb & Hkb & _).
  unfold snarl_sharing_start, snarl_sharing_end, deref, into_which_snarl.
  rewrite snarls_make, Hb. simpl.
  unfold start_key, end_key in *.
  destruct sa as [ta [sida ssna sba] [eida esna eba] pa f1a f2a f3a].
  destruct sb as [tb [sidb ssnb sbb] [eidb esnb ebb] pb f1b f2b f3b].
  simpl in *.
  destruct Hkey as [-> | ->], Hkb as [Hkb|Hkb]; injection Hkb as Hid Hbw;
    subst; clear Ha Hb Hab;
    repeat match goal with x : bool |- _ => destruct x end;
    simpl in *; try discriminate;
    first [ left; rewrite Hstart; by rewrite decide_False by congruence
          | left; rewrite Hend; by rewrite decide_False by congruence
          | right; rewrite Hstart; by rewrite decide_False by congruence
          | right; rewrite Hend; by rewrite decide_False by congruence ].
Qed.

(** In the store of the two siblings [A] leads to [B], and [B] back to
    [A]. *)
Lemma chain_neighbour_symmetric_witness :
  snarl_sharing_start two_siblings 2 = Ok (Some 1)
  ∨ snarl_sharing_end two_siblings 2 = Ok (Some 1).
Proof.
  apply (chain_neighbour_symmetric [snarl_P; snarl_A; snarl_B] 1 2 snarl_A);
    [reflexivity..|]. right. reflexivity.
Defined.

(** ** Chains of snarls without neighbours *)






(** ** Building the indexes again *)

(** X8: [build_indexes] is to be run once.  Run again on a built manager,
    it leaves [index_of] and [snarl_into] as they are, but appends every
    top-level snarl to the roots a second time. *)
Theorem build_indexes_twice (records : list Snarl) :
  index_of (build_indexes (make records)) = index_of (make records)
  ∧ snarl_into (build_indexes (make records)) = snarl_into (make records)
  ∧ top_level_snarls (build_indexes (make records))
    = top_level_snarls (make records) ++ top_level_snarls (make records).
Proof.
  split_and!.
  - apply map_eq. intros k. unfold build_indexes at 1.
    rewrite second_pass_index_of, first_pass_index_of, snarls_make.
    rewrite last_writer_acc, index_of_make.
    by destruct (last_writer _ 0 records None).
  - apply map_eq. intros k. unfold build_indexes at 1.
    rewrite second_pass_snarl_into, first_pass_snarl_into, snarls_make.
    rewrite last_writer_acc, snarl_into_make.
    by destruct (last_writer _ 0 records None).
  - unfold top_level_snarls, build_indexes at 1.
    by rewrite second_pass_roots, first_pass_roots, snarls_make, roots_make.
Qed.

(** ** Chain iterators *)

Section chain_iteration.
Context (mem : list Snarl).

Lemma fold_break_collect l (acc : list (nat * bool)) :
  fold_break collect l acc = Ok (acc ++ l).
Proof.
  revert acc. induction l as [|x l IH]; intros acc; simpl.
  - by rewrite app_nil_r.
  - by rewrite IH, <-app_assoc.
Qed.

Lemma element_middle (pre post : list nat) p :
  element (pre ++ p :: post) (length pre) = Ok p.
Proof. unfold element. by rewrite list_lookup_middle. Qed.

Lemma equal_refl it : ChainIterator.equal it it = true.
Proof.
  unfold ChainIterator.equal.
  by rewrite !Nat.eqb_refl, !Bool.eqb_reflx.
Qed.

Lemma equal_pos a b :
  ChainIterator.pos a ≠ ChainIterator.pos b → ChainIterator.equal a b = false.
Proof.
  intros Hne. unfold ChainIterator.equal.
  rewrite (proj2 (Nat.eqb_neq _ _) Hne). by rewrite !andb_false_r.
Qed.

Lemma equal_is_rend a b :
  ChainIterator.is_rend a ≠ ChainIterator.is_rend b →
  ChainIterator.equal a b = false.
Proof.
  intros Hne. unfold ChainIterator.equal.
  rewrite (proj2 (Bool.eqb_false_iff _ _) Hne). by rewrite !andb_false_r.
Qed.

Lemma chain_for_stop {A} chain stop
    (body : nat * bool → A → result (A * bool)) fuel acc :
  chain_for mem chain stop body fuel stop acc = Ok acc.
Proof. destruct fuel; simpl; by rewrite equal_refl. Qed.

Lemma chain_for_step {A} chain stop
    (body : nat * bool → A → result (A * bool)) fuel it acc :
  ChainIterator.equal it stop = false →
  chain_for mem chain stop body (S fuel) it acc
  = x ← ChainIterator.star chain it;
    '(acc', stop_now) ← body x acc;
    if stop_now : bool then Ok acc'
    else it' ← ChainIterator.increment mem chain it;
         chain_for mem chain stop body fuel it' acc'.
Proof. intros Hne. simpl. by rewrite Hne. Qed.

Lemma star_middle pre p post go b cs ce rend :
  ChainIterator.star (pre ++ p :: post)
    (ChainIterator.Build go b (length pre) cs ce rend) = Ok (p, b).
Proof. unfold ChainIterator.star. simpl. by rewrite element_middle. Qed.

Lemma increment_right_last pre p sp b n :
  mem !! p = Some sp → n = S (length pre) →
  ChainIterator.increment mem (pre ++ [p])
    (ChainIterator.Build false b (length pre) 0 n false)
  = Ok (ChainIterator.Build false false n 0 n false).
Proof.
  intros Hp ->. unfold ChainIterator.increment. simpl.
  rewrite element_middle. simpl. unfold deref. rewrite Hp. simpl.
  by rewrite decide_True.
Qed.

Lemma increment_right_next pre p sp q sq rest b n :
  mem !! p = Some sp → mem !! q = Some sq → S (length pre) ≠ n →
  ChainIterator.increment mem (pre ++ p :: q :: rest)
    (ChainIterator.Build false b (length pre) 0 n false)
  = Ok (ChainIterator.Build false
          (bool_decide (node_id (start sq) ≠ leaving sp b))
          (S (length pre)) 0 n false).
Proof.
  intros Hp Hq Hn. unfold ChainIterator.increment. simpl.
  rewrite element_middle. simpl. unfold deref. rewrite Hp. simpl.
  rewrite decide_False by done.
  replace (pre ++ p :: q :: rest) with ((pre ++ [p]) ++ q :: rest)
    by by rewrite <-app_assoc.
  replace (S (length pre)) with (length (pre ++ [p]))
    by (rewrite length_app; simpl; lia).
  rewrite element_middle. simpl. rewrite Hq. simpl. by destruct b.
Qed.

(** A loop to the right from a position of the chain goes through the
    snarls from there on. *)
Lemma chain_for_right {A} (body : nat * bool → A → result (A * bool))
    pre p sp rest b n fuel acc :
  mem !! p = Some sp → Forall (λ q, is_Some (mem !! q)) rest →
  n = length (pre ++ p :: rest) → length rest < fuel →
  chain_for mem (pre ++ p :: rest) (ChainIterator.Build false false n 0 n false)
    body fuel (ChainIterator.Build false b (length pre) 0 n false) acc
  = fold_break body ((p, b) :: orient_right mem (leaving sp b) rest) acc.
Proof.
  revert pre p sp b fuel acc.
  induction rest as [|q rest IH]; intros pre p sp b fuel acc Hp Hrest Hn Hfuel;
    (destruct fuel as [|fuel]; [simpl in Hfuel; lia|]);
    rewrite length_app in Hn; simpl in Hn;
    (rewrite chain_for_step by (apply equal_pos; simpl; lia));
    rewrite star_middle; cbn [mbind result_bind fold_break];
    (destruct (body (p, b) acc) as [[acc' []]|]; cbn [mbind result_bind];
       [done| |done]).
  - rewrite (increment_right_last pre p sp) by (done || lia).
    cbn [mbind result_bind orient_right fold_break]. apply chain_for_stop.
  - apply Forall_cons in Hrest as [[sq Hq] Hrest].
    rewrite (increment_right_next pre p sp q sq) by (done || lia).
    cbn [mbind result_bind orient_right]. rewrite Hq.
    replace (pre ++ p :: q :: rest) with ((pre ++ [p]) ++ q :: rest)
      by by rewrite <-app_assoc.
    replace (S (length pre)) with (length (pre ++ [p]))
      by (rewrite length_app; simpl; lia).
    apply (IH (pre ++ [p]) q sq); [done..| |simpl in Hfuel; lia].
    rewrite !length_app. simpl. lia.
Qed.

Lemma increment_left_first q sq post b n :
  mem !! q = Some sq →
  ChainIterator.increment mem (q :: post)
    (ChainIterator.Build true b 0 0 n false)
  = Ok (ChainIterator.Build true false 0 0 n true).
Proof.
  intros Hq. unfold ChainIterator.increment, element, deref. simpl.
  by rewrite Hq.
Qed.

Lemma increment_left_next pre p sp q sq post b n :
  mem !! p = Some sp → mem !! q = Some sq →
  ChainIterator.increment mem ((pre ++ [p]) ++ q :: post)
    (ChainIterator.Build true b (length (pre ++ [p])) 0 n false)
  = Ok (ChainIterator.Build true
          (bool_decide (node_id (end_ sp) ≠ entering sq b))
          (length pre) 0 n false).
Proof.
  intros Hp Hq. unfold ChainIterator.increment.
  cbn [ChainIterator.pos ChainIterator.go_left ChainIterator.backward
       ChainIterator.chain_start ChainIterator.chain_end
       ChainIterator.is_rend].
  rewrite element_middle. cbn [mbind result_bind]. unfold deref.
  rewrite Hq. cbn [mbind result_bind].
  rewrite decide_False by (rewrite length_app; simpl; lia).
  replace (pred (length (pre ++ [p]))) with (length pre)
    by (rewrite length_app; simpl; lia).
  rewrite <-app_assoc. cbn [app]. rewrite element_middle.
  cbn [mbind result_bind]. rewrite Hp. cbn [mbind result_bind].
  by destruct b.
Qed.

(** A loop to the left from a position of the chain goes through the snarls
    from there back to the first. *)
Lemma chain_for_left {A} (body : nat * bool → A → result (A * bool))
    pre q sq post b n fuel acc :
  mem !! q = Some sq → Forall (λ p, is_Some (mem !! p)) pre →
  length pre < fuel →
  chain_for mem (pre ++ q :: post) (ChainIterator.Build true false 0 0 n true)
    body fuel (ChainIterator.Build true b (length pre) 0 n false) acc
  = fold_break body ((q, b) :: orient_left mem (entering sq b) (rev pre)) acc.
Proof.
  revert q sq post b fuel acc.
  induction pre as [|p pre IH] using rev_ind;
    intros q sq post b fuel acc Hq Hpre Hfuel;
    (destruct fuel as [|fuel]; [simpl in Hfuel; lia|]);
    (rewrite chain_for_step by by apply equal_is_rend);
    rewrite star_middle; cbn [mbind result_bind fold_break];
    (destruct (body (q, b) acc) as [[acc' []]|]; cbn [mbind result_bind];
       [done| |done]).
  - cbn [app length]. rewrite (increment_left_first q sq) by done.
    cbn [mbind result_bind rev orient_left fold_break]. apply chain_for_stop.
  - apply Forall_app in Hpre as [Hpre [[sp Hp] _]%Forall_cons].
    rewrite (increment_left_next pre p sp q sq) by done.
    cbn [mbind result_bind]. rewrite rev_app_distr. cbn [rev app orient_left].
    rewrite Hp. rewrite <-app_assoc. cbn [app].
    apply (IH p sp); [done..|]. rewrite length_app in Hfuel. simpl in Hfuel. lia.
Qed.

Lemma start_backward_Ok chain :
  Forall (λ p, is_Some (mem !! p)) chain →
  ∃ sb, start_backward mem chain = Ok sb.
Proof.
  intros Hvalid. unfold start_backward. case_decide as Hlen; [|by eexists].
  destruct chain as [|p [|q chain]]; simpl in Hlen; [lia..|].
  apply Forall_cons in Hvalid as [[sp Hp] [[sq Hq] _]%Forall_cons].
  unfold front, second, deref. simpl. rewrite Hp, Hq. simpl. by eexists.
Qed.

Lemma end_backward_Ok chain :
  Forall (λ p, is_Some (mem !! p)) chain →
  ∃ eb, end_backward mem chain = Ok eb.
Proof.
  intros Hvalid. unfold end_backward. case_decide as Hlen; [|by eexists].
  assert (Hrev : Forall (λ p, is_Some (mem !! p)) (rev chain)).
  { apply Forall_forall. intros x Hx. rewrite Forall_forall in Hvalid.
    apply Hvalid. apply list_elem_of_In. apply in_rev.
    by apply list_elem_of_In. }
  unfold back, next_to_last.
  assert (Hlast : last chain = rev chain !! 0).
  { rewrite <-(rev_involutive chain) at 1. destruct (rev chain); [done|].
    simpl. by rewrite last_snoc. }
  rewrite Hlast.
  destruct (rev chain) as [|q [|p rchain]] eqn:Hr.
  - apply (f_equal (@length nat)) in Hr. rewrite length_rev in Hr.
    simpl in Hr. lia.
  - apply (f_equal (@length nat)) in Hr. rewrite length_rev in Hr.
    simpl in Hr. lia.
  - apply Forall_cons in Hrev as [[sq Hq] [[sp Hp] _]%Forall_cons].
    unfold deref. simpl. rewrite Hp, Hq. simpl. by eexists.
Qed.

(** The loop from [chain_begin] to [chain_end] and the loop from
    [chain_rbegin] to [chain_rend], as loops over lists. *)
Lemma chain_for_forward {A} (body : nat * bool → A → result (A * bool))
    chain acc :
  Forall (λ p, is_Some (mem !! p)) chain →
  (first ← chain_begin mem chain;
   chain_for mem chain (chain_end chain) body (length chain) first acc)
  = fold_break body (forward_list mem chain) acc.
Proof.
  intros Hvalid. unfold chain_begin, forward_list.
  destruct chain as [|p rest]; [apply chain_for_stop|].
  destruct (start_backward_Ok _ Hvalid) as [sb Hsb]. rewrite Hsb.
  cbn [mbind result_bind].
  apply Forall_cons in Hvalid as [[sp Hp] Hrest]. rewrite Hp.
  apply (chain_for_right body [] p sp rest); [done..|simpl; lia].
Qed.

Lemma chain_rbegin_snoc pre q :
  chain_rbegin mem (pre ++ [q])
  = eb ← end_backward mem (pre ++ [q]);
    Ok (ChainIterator.Build true eb (length pre) 0 (length (pre ++ [q])) false).
Proof.
  unfold chain_rbegin.
  replace (pred (length (pre ++ [q]))) with (length pre)
    by (rewrite length_app; simpl; lia).
  by destruct pre.
Qed.

Lemma chain_for_reverse {A} (body : nat * bool → A → result (A * bool))
    chain acc :
  Forall (λ p, is_Some (mem !! p)) chain →
  (first ← chain_rbegin mem chain;
   chain_for mem chain (chain_rend chain) body (length chain) first acc)
  = fold_break body (reverse_list mem chain) acc.
Proof.
  intros Hvalid. unfold reverse_list.
  destruct chain as [|q pre _] using rev_ind;
    [cbn [chain_rbegin mbind result_bind]; apply chain_for_stop|].
  destruct (end_backward_Ok _ Hvalid) as [eb Heb].
  rewrite chain_rbegin_snoc, Heb. cbn [mbind result_bind].
  apply Forall_app in Hvalid as [Hpre [[sq Hq] _]%Forall_cons].
  rewrite rev_app_distr. cbn [rev app]. rewrite Hq.
  apply (chain_for_left body pre q sq []); [done..|].
  rewrite length_app. simpl. lia.
Qed.

Lemma orient_right_fst shared rest :
  Forall (λ p, is_Some (mem !! p)) rest →
  (orient_right mem shared rest).*1 = rest.
Proof.
  revert shared. induction rest as [|q rest IH]; intros shared Hvalid; [done|].
  apply Forall_cons in Hvalid as [[sq Hq] Hrest]. simpl. rewrite Hq. simpl.
  by rewrite IH.
Qed.

Lemma orient_left_fst shared rest :
  Forall (λ p, is_Some (mem !! p)) rest →
  (orient_left mem shared rest).*1 = rest.
Proof.
  revert shared. induction rest as [|q rest IH]; intros shared Hvalid; [done|].
  apply Forall_cons in Hvalid as [[sq Hq] Hrest]. simpl. rewrite Hq. simpl.
  by rewrite IH.
Qed.

Lemma orient_right_chained p sp b rest :
  mem !! p = Some sp →
  chained (meet mem) ((p, b) :: orient_right mem (leaving sp b) rest).
Proof.
  revert p sp b. induction rest as [|q rest IH]; intros p sp b Hp i x y Hx Hy.
  { by destruct i. }
  cbn [orient_right] in Hx, Hy.
  destruct (mem !! q) as [sq|] eqn:Hq; [|by destruct i].
  destruct i as [|i].
  - injection Hx as <-. injection Hy as <-.
    intros sx sy Hsx Hsy Hshare. cbn [fst snd] in *.
    assert (sx = sp) as -> by congruence.
    assert (sy = sq) as -> by congruence.
    unfold entering. case_bool_decide as Hstart; [|done]. by destruct Hshare.
  - exact (IH q sq _ Hq i x y Hx Hy).
Qed.

Lemma orient_left_chained q sq b rest :
  mem !! q = Some sq →
  chained (meet_left mem) ((q, b) :: orient_left mem (entering sq b) rest).
Proof.
  revert q sq b. induction rest as [|p rest IH]; intros q sq b Hq i y x Hy Hx.
  { by destruct i. }
  cbn [orient_left] in Hx, Hy.
  destruct (mem !! p) as [sp|] eqn:Hp; [|by destruct i].
  destruct i as [|i].
  - injection Hx as <-. injection Hy as <-.
    intros sx sy Hsx Hsy Hshare. cbn [fst snd] in *.
    assert (sx = sp) as -> by congruence.
    assert (sy = sq) as -> by congruence.
    unfold leaving. case_bool_decide as Hend; [|done]. by destruct Hshare.
  - exact (IH p sp _ Hp i y x Hy Hx).
Qed.

End chain_iteration.

(** X9: on a chain of snarls of the store, the loop from [chain_begin] to
    [chain_end] ends within one round for each snarl, without leaving the
    chain, and goes through the snarls of the chain in order; the first has
    the orientation [start_backward] says, and each next one is oriented so
    that it is entered through the node the one before is left through,
    when it has that node as a boundary. *)
Theorem forward_iteration (mem : list Snarl) (chain : list nat) :
  Forall (λ p, is_Some (mem !! p)) chain →
  ∃ items, forward_items mem chain = Ok items
    ∧ items.*1 = chain
    ∧ (∀ x, head items = Some x → start_backward mem chain = Ok x.2)
    ∧ chained (meet mem) items.
Proof.
  intros Hvalid. exists (forward_list mem chain).
  unfold forward_items. rewrite chain_for_forward by done.
  rewrite fold_break_collect. split; [done|].
  unfold forward_list. destruct chain as [|p rest].
  { split_and!; [done|done|]. by intros []. }
  destruct (start_backward_Ok mem _ Hvalid) as [sb Hsb]. rewrite Hsb.
  apply Forall_cons in Hvalid as [[sp Hp] Hrest]. rewrite Hp.
  split_and!.
  - simpl. by rewrite orient_right_fst.
  - by intros x [= <-].
  - by apply orient_right_chained.
Qed.

(** The chain of the two siblings is gone through as [A] forward, then [B]
    forward. *)
Lemma forward_iteration_witness :
  ∃ items, forward_items (snarls two_siblings) [1; 2] = Ok items
    ∧ items.*1 = [1; 2]
    ∧ (∀ x, head items = Some x →
         start_backward (snarls two_siblings) [1; 2] = Ok x.2)
    ∧ chained (meet (snarls two_siblings)) items.
Proof.
  apply (forward_iteration (snarls two_siblings) [1; 2]).
  repeat constructor; by eexists.
Defined.

(** X10: on a chain of snarls of the store, the loop from [chain_rbegin] to
    [chain_rend] ends within one round for each snarl and goes through the
    snarls of the chain from the last to the first; the last has the
    orientation [end_backward] says, and each next one is oriented so that
    it is left through the node the one after it is entered through, when
    it has that node as a boundary. *)
Theorem reverse_iteration (mem : list Snarl) (chain : list nat) :
  Forall (λ p, is_Some (mem !! p)) chain →
  ∃ items, reverse_items mem chain = Ok items
    ∧ items.*1 = rev chain
    ∧ (∀ x, head items = Some x → end_backward mem chain = Ok x.2)
    ∧ chained (meet_left mem) items.
Proof.
  intros Hvalid. exists (reverse_list mem chain).
  unfold reverse_items. rewrite chain_for_reverse by done.
  rewrite fold_break_collect. split; [done|].
  assert (Hrev : Forall (λ p, is_Some (mem !! p)) (rev chain)).
  { apply Forall_forall. intros x Hx. rewrite Forall_forall in Hvalid.
    apply Hvalid. apply list_elem_of_In. apply in_rev.
    by apply list_elem_of_In. }
  unfold reverse_list. destruct (rev chain) as [|q rest].
  { split_and!; [done|done|]. by intros []. }
  destruct (end_backward_Ok mem _ Hvalid) as [eb Heb]. rewrite Heb.
  apply Forall_cons in Hrev as [[sq Hq] Hrest]. rewrite Hq.
  split_and!.
  - simpl. by rewrite orient_left_fst.
  - by intros x [= <-].
  - by apply orient_left_chained.
Qed.

Lemma reverse_iteration_witness :
  ∃ items, reverse_items (snarls two_siblings) [1; 2] = Ok items
    ∧ items.*1 = rev [1; 2]
    ∧ (∀ x, head items = Some x →
         end_backward (snarls two_siblings) [1; 2] = Ok x.2)
    ∧ chained (meet_left (snarls two_siblings)) items.
Proof.
  apply (reverse_iteration (snarls two_siblings) [1; 2]).
  repeat constructor; by eexists.
Defined.

(** X11: at the ends of a chain iterator.  The loops over an empty chain
    start at their end.  Incrementing the forward iterator that is past the
    end reads the chain past its end; incrementing the reverse end iterator
    of a chain whose first snarl is in the store leaves it as it is. *)
Theorem iterator_ends (mem : list Snarl) :
  chain_begin mem [] = Ok (chain_end [])
  ∧ chain_rbegin mem [] = Ok (chain_rend [])
  ∧ (∀ chain, ChainIterator.increment mem chain (chain_end chain)
              = Err undefined_behaviour)
  ∧ (∀ p sp chain, mem !! p = Some sp →
       ChainIterator.increment mem (p :: chain) (chain_rend (p :: chain))
       = Ok (chain_rend (p :: chain))).
Proof.
  split; [reflexivity|]. split; [reflexivity|]. split.
  - intros chain. unfold ChainIterator.increment, element, chain_end.
    cbn [ChainIterator.pos]. by rewrite (lookup_ge_None_2 chain (length chain)).
  - intros p sp chain Hp.
    unfold ChainIterator.increment, element, deref, chain_rend. simpl.
    by rewrite Hp.
Qed.

Lemma iterator_ends_witness :
  ChainIterator.increment (snarls two_siblings) [1; 2] (chain_rend [1; 2])
  = Ok (chain_rend [1; 2]).
Proof.
  apply (proj2 (proj2 (proj2 (iterator_ends (snarls two_siblings))))
           1 snarl_A [2]).
  reflexivity.
Defined.

(** ** The connectivity of a chain *)

Section chain_connectivity.
Context (mem : list Snarl).

Lemma from_left_step x sx acc :
  mem !! x.1 = Some sx →
  from_left mem x acc
  = let turn := acc.1 || (if x.2 then end_self_reachable sx
                          else start_self_reachable sx) in
    if negb (start_end_reachable sx) then Ok ((turn, false), true)
    else Ok ((turn, acc.2), false).
Proof. intros Hx. unfold from_left, deref. by rewrite Hx. Qed.

Lemma from_right_step x sx acc :
  mem !! x.1 = Some sx →
  from_right mem x acc
  = if (if x.2 then start_self_reachable sx else end_self_reachable sx)
    then Ok (true, true)
    else if negb (start_end_reachable sx) then Ok (acc, true)
    else Ok (acc, false).
Proof. intros Hx. unfold from_right, deref. by rewrite Hx. Qed.

Lemma from_left_fold items ll lr :
  Forall (λ x, is_Some (mem !! x.1)) items →
  ∃ ll', fold_break (from_left mem) items (ll, lr)
         = Ok (ll', lr && forallb (through mem) items.*1)
    ∧ (ll' = true → ll = true ∨ ∃ x, x ∈ items ∧ turnaround mem x.1 = true).
Proof.
  revert ll lr. induction items as [|x items IH]; intros ll lr Hvalid.
  { exists ll. simpl. rewrite andb_true_r. auto. }
  apply Forall_cons in Hvalid as [[sx Hx] Hvalid].
  cbn [fold_break fmap list_fmap forallb].
  rewrite (from_left_step x sx _ Hx). cbn [fst snd].
  assert (through mem x.1 = start_end_reachable sx) as ->
    by (unfold through; by rewrite Hx).
  assert (Hturn : ∀ b : bool,
            (if b then end_self_reachable sx else start_self_reachable sx) = true →
            turnaround mem x.1 = true).
  { intros b Hb. unfold turnaround. rewrite Hx.
    destruct b; rewrite Hb; [apply orb_true_r|done]. }
  destruct (start_end_reachable sx); cbn [negb mbind result_bind].
  - destruct (IH (ll || (if x.2 then end_self_reachable sx
                         else start_self_reachable sx)) lr Hvalid)
      as (ll' & -> & Hll').
    exists ll'. split; [done|]. intros Hl. destruct (Hll' Hl) as [Hor|Hex].
    + apply orb_true_iff in Hor as [?|Hself]; [by left|].
      right. exists x. split; [by left|]. by eapply Hturn.
    + right. destruct Hex as (y & Hy & Hty). exists y. split; [by right|done].
  - eexists. split; [by rewrite andb_false_r|].
    intros [?|Hself]%orb_true_iff; [by left|].
    right. exists x. split; [by left|]. by eapply Hturn.
Qed.

Lemma from_right_fold items rr :
  Forall (λ x, is_Some (mem !! x.1)) items →
  ∃ rr', fold_break (from_right mem) items rr = Ok rr'
    ∧ (rr' = true → rr = true ∨ ∃ x, x ∈ items ∧ turnaround mem x.1 = true).
Proof.
  revert rr. induction items as [|x items IH]; intros rr Hvalid.
  { exists rr. auto. }
  apply Forall_cons in Hvalid as [[sx Hx] Hvalid].
  cbn [fold_break]. rewrite (from_right_step x sx _ Hx).
  destruct (if x.2 then start_self_reachable sx else end_self_reachable sx)
    eqn:Hself; cbn [mbind result_bind].
  - exists true. split; [done|]. intros _. right. exists x. split; [by left|].
    unfold turnaround. rewrite Hx.
    destruct x.2; rewrite Hself; [done|apply orb_true_r].
  - destruct (start_end_reachable sx); cbn [negb mbind result_bind].
    + destruct (IH rr Hvalid) as (rr' & -> & Hrr').
      exists rr'. split; [done|]. intros Hr. destruct (Hrr' Hr) as [?|Hex].
      * by left.
      * right. destruct Hex as (y & Hy & Hty). exists y.
        split; [by right|done].
    + exists rr. auto.
Qed.

Lemma forward_list_valid chain :
  Forall (λ p, is_Some (mem !! p)) chain →
  (forward_list mem chain).*1 = chain
  ∧ Forall (λ x, is_Some (mem !! x.1)) (forward_list mem chain).
Proof.
  intros Hvalid.
  assert (Hfst : (forward_list mem chain).*1 = chain).
  { unfold forward_list. destruct chain as [|p rest]; [done|].
    destruct (start_backward_Ok mem _ Hvalid) as [sb ->].
    apply Forall_cons in Hvalid as [[sp Hp] Hrest]. rewrite Hp. simpl.
    by rewrite orient_right_fst. }
  split; [done|]. rewrite <-Hfst in Hvalid.
  apply Forall_forall. intros x Hx. rewrite Forall_forall in Hvalid.
  apply Hvalid. apply list_elem_of_fmap. eauto.
Qed.

Lemma reverse_list_valid chain :
  Forall (λ p, is_Some (mem !! p)) chain →
  (reverse_list mem chain).*1 = rev chain
  ∧ Forall (λ x, is_Some (mem !! x.1)) (reverse_list mem chain).
Proof.
  intros Hvalid.
  assert (Hrev : Forall (λ p, is_Some (mem !! p)) (rev chain)).
  { apply Forall_forall. intros x Hx. rewrite Forall_forall in Hvalid.
    apply Hvalid. apply list_elem_of_In. apply in_rev.
    by apply list_elem_of_In. }
  assert (Hfst : (reverse_list mem chain).*1 = rev chain).
  { unfold reverse_list. destruct (rev chain) as [|q rest]; [done|].
    destruct (end_backward_Ok mem _ Hvalid) as [eb ->].
    apply Forall_cons in Hrev as [[sq Hq] Hrest]. rewrite Hq. simpl.
    by rewrite orient_left_fst. }
  split; [done|]. rewrite <-Hfst in Hrev.
  apply Forall_forall. intros x Hx. rewrite Forall_forall in Hrev.
  apply Hrev. apply list_elem_of_fmap. eauto.
Qed.

End chain_connectivity.

(** X12: the connectivity [add_chain_child] works out for a chain of snarls
    of the store.  The chain can be crossed exactly when every one of its
    snarls can be crossed from start to end, and it has a turnaround, from
    the left or from the right, only when one of its snarls has a boundary
    that reaches itself. *)
Theorem chain_connectivity_crossing (mem : list Snarl) (chain : list nat) :
  Forall (λ p, is_Some (mem !! p)) chain →
  ∃ left_left right_right,
    chain_connectivity mem chain
    = Ok (left_left, right_right, forallb (through mem) chain)
    ∧ (left_left = true ∨ right_right = true →
       ∃ p, p ∈ chain ∧ turnaround mem p = true).
Proof.
  intros Hvalid. unfold chain_connectivity.
  destruct (forward_list_valid mem chain Hvalid) as [Hf Hfv].
  destruct (reverse_list_valid mem chain Hvalid) as [Hr Hrv].
  destruct (from_left_fold mem _ false true Hfv) as (ll & Hll & Hturn_l).
  destruct (from_right_fold mem _ false Hrv) as (rr & Hrr & Hturn_r).
  pose proof (chain_for_forward mem (from_left mem) chain (false, true) Hvalid)
    as Hloop_l.
  pose proof (chain_for_reverse mem (from_right mem) chain false Hvalid)
    as Hloop_r.
  destruct (chain_begin mem chain) as [first|]; cbn [mbind result_bind] in *;
    [|by rewrite Hll in Hloop_l].
  rewrite Hloop_l, Hll. cbn [mbind result_bind].
  destruct (chain_rbegin mem chain) as [rfirst|]; cbn [mbind result_bind] in *;
    [|by rewrite Hrr in Hloop_r].
  rewrite Hloop_r, Hrr. cbn [mbind result_bind]. rewrite Hf.
  exists ll, rr. split; [done|].
  assert (Hin : ∀ items : list (nat * bool),
            (∃ x, x ∈ items ∧ turnaround mem x.1 = true) →
            ∃ p, p ∈ items.*1 ∧ turnaround mem p = true).
  { intros items (x & Hx & Ht). exists x.1. split; [|done].
    apply list_elem_of_fmap. eauto. }
  intros [Hl|Hrt].
  - destruct (Hturn_l Hl) as [?|Hex]; [done|].
    apply Hin in Hex. by rewrite Hf in Hex.
  - destruct (Hturn_r Hrt) as [?|Hex]; [done|].
    apply Hin in Hex as (p & Hp & Ht). rewrite Hr in Hp. exists p.
    split; [|done]. apply list_elem_of_In, in_rev. by apply list_elem_of_In.
Qed.

(** The chain of the two siblings can be crossed and has no turnaround. *)
Lemma chain_connectivity_crossing_witness :
  ∃ left_left right_right,
    chain_connectivity (snarls two_siblings) [1; 2]
    = Ok (left_left, right_right, forallb (through (snarls two_siblings)) [1; 2])
    ∧ (left_left = true ∨ right_right = true →
       ∃ p, p ∈ [1; 2] ∧ turnaround (snarls two_siblings) p = true).
Proof.
  apply (chain_connectivity_crossing (snarls two_siblings) [1; 2]).
  repeat constructor; by eexists.
Defined.

(** ** Construction of a net graph *)

Section net_graph_construction.
Context {handle_t : Type} `{Countable handle_t}.

Local Abbreviation net_graph := (@NetGraph.t handle_t _ _).

Lemma create_filed start_visit end_visit (g : HandleGraph.t handle_t) uic :
  filed (NetGraph.create start_visit end_visit g uic).
Proof.
  split; simpl.
  - intros h [x Hx]. by rewrite lookup_empty in Hx.
  - intros h Hh. by apply elem_of_empty in Hh.
Qed.

Lemma is_Some_insert_keep {V} (m : gmap Z V) k v k' :
  is_Some (m !! k') → is_Some (<[k := v]> m !! k').
Proof.
  intros Hm. apply lookup_insert_is_Some.
  destruct (decide (k = k')); [by left|by right].
Qed.

Lemma add_unary_child_filed (ng ng' : net_graph) unary :
  lawful (NetGraph.graph ng) → filed ng →
  NetGraph.add_unary_child ng unary = Ok ng' →
  NetGraph.graph ng' = NetGraph.graph ng ∧ filed ng'.
Proof.
  intros [Hid _] [Hchain Hunary]. unfold NetGraph.add_unary_child.
  unfold assert.
  destruct (bool_decide (node_id _ = _)); cbn [mbind result_bind]; [|done].
  destruct (bool_decide (backward _ = _)); cbn [mbind result_bind]; [|done].
  intros [= <-]. split; [done|]. split; cbn.
  - intros h Hh. by apply is_Some_insert_keep, Hchain.
  - intros h [Hh|Hh]%elem_of_union.
    + apply elem_of_singleton in Hh as ->. rewrite Hid.
      apply lookup_insert_is_Some. by left.
    + by apply is_Some_insert_keep, Hunary.
Qed.

Lemma add_chain_child_filed mem (ng ng' : net_graph) chain :
  filed ng →
  NetGraph.add_chain_child mem ng chain = Ok ng' →
  NetGraph.graph ng' = NetGraph.graph ng ∧ filed ng'.
Proof.
  intros [Hchain Hunary]. unfold NetGraph.add_chain_child.
  destruct (get_start mem chain) as [sv|];
    cbn [fmap result_fmap mbind result_bind]; [|done].
  destruct (get_end mem chain) as [ev|];
    cbn [fmap result_fmap mbind result_bind]; [|done].
  destruct (if NetGraph.use_internal_connectivity ng then _ else _)
    as [conn|]; cbn [mbind result_bind]; [|done].
  intros [= <-]. split; [done|]. split; cbn.
  - intros h Hh. apply lookup_insert_is_Some in Hh as [<-|[_ Hh]].
    + apply lookup_insert_is_Some. by left.
    + by apply is_Some_insert_keep, Hchain.
  - intros h Hh. by apply is_Some_insert_keep, Hunary.
Qed.

Lemma add_child_filed mem (ng ng' : net_graph) chain :
  lawful (NetGraph.graph ng) → filed ng →
  NetGraph.add_child mem chain ng = Ok ng' →
  NetGraph.graph ng' = NetGraph.graph ng ∧ filed ng'.
Proof.
  intros Hlaw Hfiled. unfold NetGraph.add_child.
  destruct chain as [|only [|? ?]];
    try by apply add_chain_child_filed.
  destruct (deref mem only) as [f|]; cbn [mbind result_bind]; [|done].
  destruct (type f);
    (by apply add_chain_child_filed) || (by apply add_unary_child_filed).
Qed.

Lemma for_each_filed {A} (body : A → net_graph → result net_graph) l :
  (∀ x ng ng', lawful (NetGraph.graph ng) → filed ng → body x ng = Ok ng' →
               NetGraph.graph ng' = NetGraph.graph ng ∧ filed ng') →
  ∀ ng ng', lawful (NetGraph.graph ng) → filed ng →
    SnarlManager.for_each body l ng = Ok ng' →
    NetGraph.graph ng' = NetGraph.graph ng ∧ filed ng'.
Proof.
  intros Hbody. induction l as [|x l IH]; intros ng ng' Hlaw Hfiled; simpl.
  { by intros [= <-]. }
  destruct (body x ng) as [ng1|] eqn:Hx; cbn [mbind result_bind]; [|done].
  destruct (Hbody x ng ng1 Hlaw Hfiled Hx) as [Hg1 Hf1].
  intros Hrest. destruct (IH ng1 ng') as [Hg' Hf']; [by rewrite Hg1|done..|].
  split; [congruence|done].
Qed.

Lemma filed_indexed (ng : net_graph) :
  lawful (NetGraph.graph ng) → filed ng → connectivity_indexed ng.
Proof.
  intros [_ Hflip] [Hchain Hunary] h [Hh|[Hh|[Hh|Hh]]].
  - by apply Hchain.
  - rewrite <-Hflip. by apply Hchain.
  - by apply Hunary.
  - rewrite <-Hflip. by apply Hunary.
Qed.

Lemma of_mixed_children_filed mem start_visit end_visit chains
    (g : HandleGraph.t handle_t) uic (ng : net_graph) :
  lawful g →
  NetGraph.of_mixed_children mem start_visit end_visit chains g uic = Ok ng →
  NetGraph.graph ng = g ∧ filed ng.
Proof.
  intros Hlaw Hng. unfold NetGraph.of_mixed_children in Hng.
  eapply (for_each_filed (NetGraph.add_child mem)) in Hng;
    [done| |done|apply create_filed].
  intros x ng1 ng2. apply add_child_filed.
Qed.

Lemma of_children_filed mem start_visit end_visit chains unary_snarls
    (g : HandleGraph.t handle_t) uic (ng : net_graph) :
  lawful g →
  NetGraph.of_children mem start_visit end_visit chains unary_snarls g uic
  = Ok ng →
  NetGraph.graph ng = g ∧ filed ng.
Proof.
  intros Hlaw. unfold NetGraph.of_children.
  destruct (SnarlManager.for_each _ unary_snarls _) as [ng1|] eqn:Hunary;
    cbn [mbind result_bind]; [|done].
  intros Hchains.
  eapply for_each_filed in Hunary as [Hg1 Hf1];
    [| |done|apply create_filed].
  - eapply for_each_filed in Hchains as [Hg Hf]; [| |by rewrite Hg1|done].
    + split; [by rewrite Hg|done].
    + intros x ng2 ng3 _. cbn beta. apply add_chain_child_filed.
  - intros x ng2 ng3 Hl Hf. cbn beta.
    destruct (deref mem x) as [u|]; cbn [mbind result_bind]; [|done].
    by apply add_unary_child_filed.
Qed.

End net_graph_construction.

(** X13: the constructors of a net graph file the connectivity of every
    child where [follow_edges] looks for it.  Over a backing graph in which
    the handle made for an id has that id and flipping keeps the id, a net
    graph that one of the two constructors has built is over that backing
    graph, and [follow_edges] on it throws nothing, whatever the handle,
    the direction and the iteratee. *)
Theorem constructed_follow_edges {handle_t : Type} `{Countable handle_t}
    (mem : list Snarl) (start_visit end_visit : Visit)
    (chains : list Chain) (unary_snarls : list nat)
    (g : HandleGraph.t handle_t) (uic : bool)
    (ng : @NetGraph.t handle_t _ _) :
  lawful g →
  NetGraph.of_mixed_children mem start_visit end_visit chains g uic = Ok ng
  ∨ NetGraph.of_children mem start_visit end_visit chains unary_snarls g uic
    = Ok ng →
  NetGraph.graph ng = g
  ∧ ∀ {S : Type} (iteratee : handle_t → S → bool * S) handle go_left s,
      is_Ok (NetGraph.follow_edges iteratee ng handle go_left s) = true.
Proof.
  intros Hlaw Hng.
  assert (NetGraph.graph ng = g ∧ filed ng) as [Hg Hfiled].
  { destruct Hng as [Hng|Hng].
    - by eapply of_mixed_children_filed.
    - by eapply of_children_filed. }
  split; [done|]. intros S iteratee handle go_left s.
  apply follow_edges_Ok, filed_indexed; [by rewrite Hg|done].
Qed.

Lemma constructed_follow_edges_witness :
  match NetGraph.of_mixed_children (snarls two_siblings)
          (Snarl_start snarl_P) (Snarl_end snarl_P) [[1; 2]]
          row_handle_graph true with
  | Ok ng =>
      is_Ok (NetGraph.follow_edges collect_handles ng (1%Z, false) false [])
      = true
  | Err _ => False
  end.
Proof.
  destruct (NetGraph.of_mixed_children _ _ _ _ _ _) as [ng|e] eqn:Hng.
  - apply (constructed_follow_edges (snarls two_siblings)
             (Snarl_start snarl_P) (Snarl_end snarl_P) [[1; 2]] []
             row_handle_graph true ng).
    + split; intros; reflexivity.
    + left. exact Hng.
  - vm_compute in Hng. discriminate Hng.
Defined.

(** The net graph of the scenario is what the constructor builds. *)
Example row_net_graph_built :
  NetGraph.of_mixed_children (snarls two_siblings) (Snarl_start snarl_P)
    (Snarl_end snarl_P) [[1; 2]] row_handle_graph false
  = Ok row_net_graph.
Proof. by vm_compute. Qed.

(** ** What [follow_edges] reports *)

Section follow_edges_reports.
Context {handle_t : Type} `{Countable handle_t} {S : Type}.
Context (iteratee : handle_t → S → bool * S) (Hgo : never_stops iteratee).





End follow_edges_reports.



(** ** The preorder traversal *)

Section preorder.
Context (records : list Snarl).
Context (Hkeys : NoDup (key_form <$> records)) (Hfirst : parents_first records).

Lemma child_of_parent q i i' :
  child_of records q i → child_of records q i' → i = i'.
Proof.
  intros (r & s & Hq & Hi & _ & Hk) (r' & s' & Hq' & Hi' & _ & Hk').
  assert (r' = r) as -> by congruence.
  eapply key_form_position; [done..|congruence].
Qed.

Lemma child_of_lt q i : child_of records q i → i < q.
Proof.
  intros Hc. pose proof Hc as (r & s & Hq & _ & Hpar & _).
  destruct (Hfirst q r Hq Hpar) as (i' & Hlt & Hc').
  by rewrite (child_of_parent q i i' Hc Hc').
Qed.

Lemma below_le x p : below records x p → p ≤ x.
Proof.
  induction 1 as [|x y p Hc _ IH]; [done|].
  apply child_of_lt in Hc. lia.
Qed.

Lemma below_linear x a b :
  below records x a → below records x b →
  below records a b ∨ below records b a.
Proof.
  intros Ha. revert b. induction Ha as [|x y a Hc Hya IH]; intros b Hb.
  { by left. }
  apply rtc_inv in Hb as [<-|(y' & Hc' & Hyb)].
  - right. by eapply rtc_l.
  - rewrite <-(child_of_parent x y y' Hc Hc') in Hyb. by apply IH.
Qed.

Lemma siblings_apart p c c' :
  child_of records c p → child_of records c' p → below records c c' → c = c'.
Proof.
  intros Hc Hc' Hb. apply rtc_inv in Hb as [?|(y & Hy & Hb)]; [done|].
  rewrite <-(child_of_parent c p y Hc Hy) in Hb.
  apply below_le in Hb. apply child_of_lt in Hc'. lia.
Qed.

Lemma roots_apart c c' r :
  records !! c = Some r → has_parent r = false → below records c c' → c = c'.
Proof.
  intros Hc Hpar Hb. apply rtc_inv in Hb as [?|(y & Hy & _)]; [done|].
  destruct Hy as (r' & _ & Hc' & _ & Hpar' & _). congruence.
Qed.

Lemma below_root x s :
  records !! x = Some s →
  ∃ c r, records !! c = Some r ∧ has_parent r = false ∧ below records x c.
Proof.
  revert s. induction (lt_wf x) as [x _ IH]. intros s Hx.
  destruct (has_parent s) eqn:Hpar.
  - destruct (Hfirst x s Hx Hpar) as (i & Hlt & Hc).
    pose proof Hc as (_ & si & _ & Hi & _).
    destruct (IH i Hlt si Hi) as (c & r & Hc' & Hr & Hb).
    exists c, r. split_and!; [done..|]. by eapply rtc_l.
  - exists x, s. split_and!; [done..|]. apply rtc_refl.
Qed.

Lemma below_valid x p s :
  records !! p = Some s → below records x p → is_Some (records !! x).
Proof.
  intros Hp Hb. apply rtc_inv in Hb as [->|(y & (r & _ & Hx & _) & _)];
    by eexists.
Qed.

Lemma parents_before_mono seen seen' l :
  (∀ i, i ∈ seen → i ∈ seen') →
  parents_before records seen l → parents_before records seen' l.
Proof.
  revert seen seen'. induction l as [|x l IH]; intros seen seen' Hsub; [done|].
  intros [Hx Hl]. split; [by auto|]. apply (IH (x :: seen)); [|done].
  intros i [->|Hi]%elem_of_cons; [by left|]. right. by apply Hsub.
Qed.

Lemma parents_before_app seen l l' :
  parents_before records seen l →
  parents_before records (rev l ++ seen) l' →
  parents_before records seen (l ++ l').
Proof.
  revert seen. induction l as [|x l IH]; intros seen; [done|].
  intros [Hx Hl] Hl'. split; [done|]. apply IH; [done|].
  simpl in Hl'. by rewrite <-(assoc_L (++)) in Hl'.
Qed.

Lemma parents_before_split seen l1 q l2 i :
  parents_before records seen (l1 ++ q :: l2) → child_of records q i →
  i ∈ l1 ∨ i ∈ seen.
Proof.
  revert seen. induction l1 as [|x l1 IH]; intros seen; simpl.
  { intros [Hq _] Hc. right. by apply Hq. }
  intros [_ Hl] Hc. destruct (IH _ Hl Hc) as [?|[->|?]%elem_of_cons].
  - left. by right.
  - left. by left.
  - by right.
Qed.

(** The loop over the children, or over the roots. *)
Lemma for_each_concat (f : nat → result (list nat)) cs outs acc :
  Forall2 (λ c out, f c = Ok out) cs outs →
  for_each (λ c called, sub ← f c; Ok (called ++ sub)) cs acc
  = Ok (acc ++ concat outs).
Proof.
  intros Hall. revert acc. induction Hall as [|c out cs outs Hc _ IH];
    intros acc; simpl.
  { by rewrite app_nil_r. }
  rewrite Hc. cbn [mbind result_bind]. by rewrite IH, (assoc_L (++)).
Qed.

Lemma Forall2_choice {A B} (R : A → B → Prop) l :
  (∀ x, x ∈ l → ∃ y, R x y) → ∃ k, Forall2 R l k.
Proof.
  induction l as [|x l IH]; intros Hall.
  { exists []. constructor. }
  destruct (Hall x) as [y Hy]; [by left|].
  destruct IH as [k Hk]; [intros x' Hx'; apply Hall; by right|].
  exists (y :: k). by constructor.
Qed.

Lemma concat_subtrees hs outs :
  Forall2 (λ h out, subtree records h out) hs outs →
  NoDup hs →
  (∀ h h', h ∈ hs → h' ∈ hs → below records h h' → h = h') →
  NoDup (concat outs)
  ∧ ∀ x, x ∈ concat outs ↔ ∃ h, h ∈ hs ∧ below records x h.
Proof.
  intros Hall. induction Hall as [|h out hs outs Hh _ IH]; intros Hnd Hapart.
  { split; [constructor|]. intros x. split; [by intros ?%elem_of_nil|].
    by intros (h & ?%elem_of_nil & _). }
  apply NoDup_cons in Hnd as [Hfresh Hnd].
  destruct IH as [IHnd IHin]; [done| |].
  { intros h1 h2 H1 H2. apply Hapart; by right. }
  destruct Hh as (Hin & Hout & _). cbn [concat]. split.
  - apply NoDup_app. split_and!; [done| |done].
    intros x Hx%Hin (h' & Hh' & Hx')%IHin.
    destruct (below_linear x h h' Hx Hx') as [Hb|Hb].
    + apply Hapart in Hb; [|by left|by right]. by subst h'.
    + apply Hapart in Hb; [|by right|by left]. by subst h'.
  - intros x. rewrite elem_of_app, Hin, IHin. split.
    + intros [Hx|(h' & Hh' & Hx)]; [exists h|exists h']; split; try done.
      * by left.
      * by right.
    + intros (h' & [->|Hh']%elem_of_cons & Hx); [by left|].
      right. by exists h'.
Qed.

Lemma concat_parents_before hs outs seen :
  Forall2 (λ h out, subtree records h out) hs outs →
  (∀ h i, h ∈ hs → child_of records h i → i ∈ seen) →
  parents_before records seen (concat outs).
Proof.
  intros Hall. revert seen.
  induction Hall as [|h out hs outs Hh _ IH]; intros seen Hseen; [done|].
  cbn [concat]. destruct Hh as (_ & _ & Hbefore).
  apply parents_before_app.
  - apply Hbefore. intros i. apply Hseen. by left.
  - apply IH. intros h' i Hh' Hc. apply elem_of_app. right.
    apply (Hseen h'); [by right|done].
Qed.

Lemma NoDup_children_from k i l : NoDup (children_from k i l).
Proof.
  revert i. induction l as [|s l IH]; intros i; simpl; [constructor|].
  destruct (has_parent s && bool_decide _); simpl; [|apply IH].
  constructor; [|apply IH].
  intros (r & Hle & _)%elem_of_children_from. lia.
Qed.

Lemma NoDup_top_level_from i l : NoDup (top_level_from i l).
Proof.
  revert i. induction l as [|s l IH]; intros i; simpl; [constructor|].
  destruct (has_parent s); simpl; [apply IH|].
  constructor; [|apply IH].
  intros (r & Hle & _)%elem_of_top_level_from. lia.
Qed.

Lemma children_of_make_from p s :
  records !! p = Some s →
  children_of (make records) (Some p)
  = Ok (children_from (key_form s) 0 records).
Proof.
  intros Hs. unfold children_of, deref. rewrite snarls_make, Hs.
  cbn [mbind result_bind]. rewrite children_make.
  destruct (children_from _ 0 records); [|done].
  rewrite bool_decide_eq_true_2; [done|].
  apply list_elem_of_fmap. exists s. split; [done|].
  by eapply list_elem_of_lookup_2.
Qed.

Lemma elem_of_children p s c :
  records !! p = Some s →
  c ∈ children_from (key_form s) 0 records ↔ child_of records c p.
Proof.
  intros Hs. rewrite elem_of_children_from, Nat.sub_0_r. split.
  - intros (r & _ & Hc & Hpar & Hk). by exists r, s.
  - intros (r & s' & Hc & Hs' & Hpar & Hk). exists r.
    split_and!; [lia|done..|congruence].
Qed.

Lemma process_make fuel p s :
  records !! p = Some s → length records - p ≤ fuel →
  ∃ called, process (make records) fuel p = Ok called
            ∧ subtree records p called.
Proof.
  revert p s. induction fuel as [|fuel IH]; intros p s Hs Hfuel.
  { apply lookup_lt_Some in Hs. lia. }
  cbn [process]. rewrite (children_of_make_from p s Hs).
  cbn [mbind result_bind].
  set (cs := children_from (key_form s) 0 records).
  assert (Hcs : ∀ c, c ∈ cs ↔ child_of records c p)
    by (intros c; by apply elem_of_children).
  destruct (Forall2_choice
              (λ c out, process (make records) fuel c = Ok out
                        ∧ subtree records c out) cs) as [outs Houts].
  { intros c Hc%Hcs. pose proof Hc as (r & _ & Hr & _).
    apply child_of_lt in Hc. apply (IH c r Hr).
    apply lookup_lt_Some in Hr. lia. }
  rewrite (for_each_concat (process (make records) fuel) cs outs []);
    [|by eapply Forall2_impl; [done|]; intros c out [? _]].
  cbn [mbind result_bind app]. eexists. split; [done|].
  assert (Hsub : Forall2 (λ h out, subtree records h out) cs outs)
    by (by eapply Forall2_impl; [done|]; intros c out [_ ?]).
  destruct (concat_subtrees cs outs Hsub) as [Hnd Hin].
  { apply NoDup_children_from. }
  { intros c c' Hc%Hcs Hc'%Hcs. by apply siblings_apart with p. }
  split_and!.
  - intros x. rewrite elem_of_cons, Hin. split.
    + intros [->|(c & Hc%Hcs & Hx)]; [apply rtc_refl|].
      by eapply rtc_r.
    + intros [->|(c & Hx & Hc)]%rtc_inv_r; [by left|].
      right. exists c. by rewrite Hcs.
  - constructor; [|done].
    intros (c & Hc%Hcs & Hp%below_le)%Hin. apply child_of_lt in Hc. lia.
  - intros seen Hseen. split; [done|].
    apply (concat_parents_before cs); [done|].
    intros c i Hc%Hcs Hi. rewrite (child_of_parent c i p Hi Hc). by left.
Qed.

End preorder.

(** X16: the preorder traversal reaches every snarl once.  In a store with
    distinct keys in which every record that names a parent has it at a
    lower position, [for_each_snarl_preorder] calls the lambda on every
    snarl of the store exactly once, and on a snarl only after its parent;
    a recursion as deep as the store is long is enough for that. *)
Theorem preorder_visits_all (records : list Snarl) (fuel : nat) :
  NoDup (key_form <$> records) → parents_first records →
  length records ≤ fuel →
  ∃ called,
    for_each_snarl_preorder (make records) fuel = Ok called
    ∧ called ≡ₚ seq 0 (length records)
    ∧ ∀ before q after i,
        called = before ++ q :: after → child_of records q i → i ∈ before.
Proof.
  intros Hkeys Hfirst Hfuel.
  unfold for_each_snarl_preorder, for_each_top_level_snarl.
  rewrite roots_make.
  assert (Hroots : ∀ c, c ∈ top_level_from 0 records ↔
                        ∃ r, records !! c = Some r ∧ has_parent r = false).
  { intros c. rewrite elem_of_top_level_from, Nat.sub_0_r. split.
    - intros (r & _ & ? & ?). eauto.
    - intros (r & ? & ?). exists r. split; [lia|done]. }
  destruct (Forall2_choice
              (λ c out, process (make records) fuel c = Ok out
                        ∧ subtree records c out) (top_level_from 0 records))
    as [outs Houts].
  { intros c (r & Hr & _)%Hroots. apply (process_make records Hkeys Hfirst _ _ r Hr).
    lia. }
  rewrite (for_each_concat (process (make records) fuel) _ outs []);
    [|by eapply Forall2_impl; [done|]; intros c out [? _]].
  cbn [app]. eexists. split; [done|].
  assert (Hsub : Forall2 (λ h out, subtree records h out)
                   (top_level_from 0 records) outs)
    by (by eapply Forall2_impl; [done|]; intros c out [_ ?]).
  destruct (concat_subtrees records Hkeys _ outs Hsub) as [Hnd Hin].
  { apply NoDup_top_level_from. }
  { intros c c' (r & Hr & Hpar)%Hroots _. by apply roots_apart with r. }
  split.
  - apply NoDup_Permutation; [done|apply NoDup_seq|].
    intros x. rewrite Hin, elem_of_seq. split.
    + intros (c & (r & Hr & _)%Hroots & Hx).
      destruct (below_valid records x c r Hr Hx) as [s Hs].
      apply lookup_lt_Some in Hs. lia.
    + intros [_ Hx]. apply lookup_lt_is_Some in Hx as [s Hs].
      destruct (below_root records Hfirst x s Hs) as (c & r & Hr & Hpar & Hb).
      exists c. split; [|done]. apply Hroots. eauto.
  - intros before q after i Hcalled Hc.
    assert (Hbefore : parents_before records [] (concat outs)).
    { apply (concat_parents_before records (top_level_from 0 records));
        [done|].
      intros c j (r & Hr & Hpar)%Hroots (r' & _ & Hr' & _ & Hpar' & _).
      congruence. }
    rewrite Hcalled in Hbefore.
    destruct (parents_before_split records [] before q after i Hbefore Hc)
      as [?|?%elem_of_nil]; done.
Qed.

(** In the store of the two siblings: [P], then [A], then [B]. *)
Lemma preorder_visits_all_witness :
  ∃ called,
    for_each_snarl_preorder (make [snarl_P; snarl_A; snarl_B]) 3 = Ok called
    ∧ called ≡ₚ seq 0 3
    ∧ ∀ before q after i,
        called = before ++ q :: after →
        child_of [snarl_P; snarl_A; snarl_B] q i → i ∈ before.
Proof.
  apply (preorder_visits_all [snarl_P; snarl_A; snarl_B] 3).
  - apply (bool_decide_unpack _). by vm_compute.
  - intros q r Hq Hpar. exists 0.
    destruct q as [|[|[|q]]]; simpl in Hq; [| | |done];
      injection Hq as <-; [done| |]; (split; [lia|]);
      [exists snarl_A, snarl_P|exists snarl_B, snarl_P]; by split_and!.
  - simpl. lia.
Defined.

(** * Tables read by the subcommand sim *)


Section tables.
Import Sim.

Lemma read_until_token delim token rest :
  delim ∉ token →
  read_until delim (token ++ delim :: rest) = (token, rest).
Proof.
  induction token as [|c token IH]; intros Hfree; simpl.
  { by rewrite Ascii.eqb_refl. }
  apply not_elem_of_cons in Hfree as [Hc Hfree].
  destruct (Ascii.eqb_spec c delim) as [->|_]; [done|].
  by rewrite IH.
Qed.

Lemma read_until_end delim token :
  delim ∉ token → read_until delim token = (token, []).
Proof.
  induction token as [|c token IH]; intros Hfree; simpl; [done|].
  apply not_elem_of_cons in Hfree as [Hc Hfree].
  destruct (Ascii.eqb_spec c delim) as [->|_]; [done|].
  by rewrite IH.
Qed.

Lemma getline_token delim token rest :
  delim ∉ token →
  getline delim (token ++ delim :: rest) = Some (token, rest).
Proof.
  intros Hfree. unfold getline.
  rewrite <-(read_until_token delim token rest Hfree).
  by destruct token.
Qed.

Lemma getline_end delim token :
  delim ∉ token → token ≠ [] → getline delim token = Some (token, []).
Proof.
  intros Hfree Hne. unfold getline. rewrite read_until_end by done.
  by destruct token.
Qed.

Lemma columns_cons field field' fields :
  columns (field :: field' :: fields) = field :: columns (field' :: fields).
Proof.
  unfold columns. rewrite last_cons_cons.
  destruct (last (field' :: fields)) as [[|c l]|]; done.
Qed.

Lemma tokens_loop_joined fields fuel tokens :
  Forall (λ field, tab ∉ field) fields →
  length (joined tab fields) ≤ fuel →
  tokens_loop fuel (joined tab fields) tokens
  = Returns (tokens ++ columns fields).
Proof.
  revert fuel tokens.
  induction fields as [|field [|field' fields] IH]; intros fuel tokens Hfree.
  - intros _. destruct fuel; simpl; by rewrite app_nil_r.
  - apply Forall_cons in Hfree as [Hfree _]. cbn [joined].
    destruct field as [|c field].
    { intros _. destruct fuel; simpl; by rewrite app_nil_r. }
    intros Hfuel. destruct fuel as [|fuel]; [simpl in Hfuel; lia|].
    cbn [tokens_loop]. rewrite getline_end by done.
    by destruct fuel.
  - apply Forall_cons in Hfree as [Hfree Hrest].
    change (joined tab (field :: field' :: fields))
      with (field ++ tab :: joined tab (field' :: fields)).
    rewrite length_app. cbn [length]. intros Hfuel.
    destruct fuel as [|fuel]; [lia|].
    cbn [tokens_loop]. rewrite getline_token by done.
    rewrite IH; [|done|lia]. by rewrite columns_cons, <-(assoc_L (++)).
Qed.


Lemma elem_of_joined c sep fields :
  c ∈ joined sep fields → c = sep ∨ ∃ field, field ∈ fields ∧ c ∈ field.
Proof.
  induction fields as [|field [|field' fields] IH].
  - by intros ?%elem_of_nil.
  - intros Hc. right. exists field. split; [by left|done].
  - change (joined sep (field :: field' :: fields))
      with (field ++ sep :: joined sep (field' :: fields)).
    intros [Hc|[->|Hc]%elem_of_cons]%elem_of_app.
    + right. exists field. split; [by left|done].
    + by left.
    + destruct (IH Hc) as [?|(f & Hf & Hcf)]; [by left|].
      right. exists f. split; [by right|done].
Qed.

Lemma count_joined sep fields :
  Forall (λ field, sep ∉ field) fields →
  count_occ ascii_dec (joined sep fields) sep = pred (length fields).
Proof.
  assert (Hnone : ∀ field : text, sep ∉ field →
            count_occ ascii_dec field sep = 0).
  { intros field Hfree. apply count_occ_not_In. intros Hin.
    by apply Hfree, list_elem_of_In. }
  induction fields as [|field [|field' fields] IH]; intros Hfree.
  - done.
  - apply Forall_cons in Hfree as [Hfree _]. by apply Hnone.
  - apply Forall_cons in Hfree as [Hfree Hrest].
    change (joined sep (field :: field' :: fields))
      with (field ++ sep :: joined sep (field' :: fields)).
    rewrite count_occ_app, Hnone by done.
    rewrite count_occ_cons_eq by done. by rewrite IH.
Qed.

Lemma haplotypes_field e :
  well_formed e →
  plain (joined comma (haplotypes e))
  ∧ 1 + count_occ ascii_dec (joined comma (haplotypes e)) comma
    = length (haplotypes e).
Proof.
  intros (_ & _ & _ & _ & Hnames & Hne). split.
  - rewrite Forall_forall in Hnames.
    split; intros [?|(h & Hh & Hc)]%elem_of_joined; try done;
      by destruct (Hnames h Hh) as [[? ?] _].
  - rewrite count_joined.
    + destruct (haplotypes e); [done|]. simpl. lia.
    + eapply Forall_impl; [done|]. by intros h [_ ?].
Qed.

Lemma entry_line_plain e : well_formed e → newline ∉ entry_line e.
Proof.
  intros He. pose proof (haplotypes_field e He) as [[_ Hh] _].
  destruct He as ([_ ?] & [_ ?] & [_ ?] & [_ ?] & _).
  intros [?|(f & Hf & Hc)]%elem_of_joined; [done|].
  repeat (apply elem_of_cons in Hf as [->|Hf]; [done|]).
  by apply elem_of_nil in Hf.
Qed.

Lemma tokens_loop_entry e fuel :
  well_formed e → length (entry_line e) ≤ fuel →
  tokens_loop fuel (entry_line e) []
  = Returns [path_name e; second_column e; transcript_name e;
             fourth_column e; joined comma (haplotypes e)].
Proof.
  intros He Hfuel. pose proof (haplotypes_field e He) as [[Hh _] _].
  unfold entry_line. rewrite tokens_loop_joined; [| |done].
  - destruct He as (_ & _ & _ & _ & _ & Hne). cbn [app].
    repeat rewrite columns_cons. unfold columns. cbn [last].
    by destruct (joined comma (haplotypes e)).
  - destruct He as ([? _] & [? _] & [? _] & [? _] & _).
    by repeat constructor.
Qed.

Lemma lines_loop_line fuel line rest return_val :
  newline ∉ line →
  lines_loop (S fuel) (line ++ newline :: rest) return_val
  = match tokens_loop (S fuel) line [] with
    | Returns tokens =>
        if decide (length tokens ≠ 5) then Exits 1 (length tokens)
        else
          lines_loop fuel rest
            (return_val
             ++ [(nth 0 tokens [], nth 2 tokens [],
                  1 + count_occ ascii_dec (nth 4 tokens []) comma)])
    | Exits status columns => Exits status columns
    | Out_of_fuel => Out_of_fuel
    end.
Proof. intros Hline. cbn [lines_loop]. by rewrite getline_token. Qed.

Lemma lines_loop_entries es tail fuel return_val :
  Forall well_formed es →
  length (concat ((λ line, line ++ [newline]) <$> (entry_line <$> es)) ++ tail)
  ≤ fuel →
  ∃ fuel', length tail ≤ fuel'
    ∧ lines_loop fuel
        (concat ((λ line, line ++ [newline]) <$> (entry_line <$> es)) ++ tail)
        return_val
      = lines_loop fuel' tail (return_val ++ (read_entry <$> es)).
Proof.
  revert fuel return_val. induction es as [|e es IH];
    intros fuel return_val Hes Hfuel.
  { exists fuel. by rewrite app_nil_r. }
  apply Forall_cons in Hes as [He Hes].
  rewrite !fmap_cons in *. cbn [concat] in *.
  rewrite <-!(assoc_L (++)) in *. cbn [app] in *.
  rewrite length_app in Hfuel. cbn [length] in Hfuel.
  destruct fuel as [|fuel]; [lia|].
  rewrite lines_loop_line by by apply entry_line_plain.
  rewrite tokens_loop_entry; [|done|lia].
  destruct (haplotypes_field e He) as [_ Hcount].
  cbn [length nth]. rewrite decide_False by (intros Hne; by apply Hne).
  rewrite Hcount.
  destruct (IH fuel (return_val ++ [read_entry e]) Hes)
    as (fuel' & ? & Hloop); [lia|].
  exists fuel'. split; [done|].
  rewrite <-(assoc_L (++)) in Hloop. exact Hloop.
Qed.

Lemma lines_loop_done fuel return_val :
  lines_loop fuel [] return_val = Returns return_val.
Proof. by destruct fuel. Qed.

End tables.

(** X17: the table of haplotype transcripts is read back.  From a header
    without a newline and one line for each entry, every line ended by a
    newline, [parse_haplotype_transcript_file] returns, for every entry in
    order, the name of its transcript path, the name of its transcript and
    the number of its haplotypes; the header is skipped whatever it holds.
    As many rounds as the table has characters are enough. *)
Theorem parse_table (header : Sim.text) (es : list entry) (fuel : nat) :
  Sim.newline ∉ header → Forall well_formed es →
  length (table header (entry_line <$> es)) ≤ fuel →
  Sim.parse_haplotype_transcript_file fuel (table header (entry_line <$> es))
  = Sim.Returns (read_entry <$> es).
Proof.
  intros Hheader Hes Hfuel. unfold Sim.parse_haplotype_transcript_file, table.
  rewrite getline_token by done.
  unfold table in Hfuel. rewrite length_app in Hfuel. cbn [length] in Hfuel.
  destruct (lines_loop_entries es [] fuel [] Hes) as (fuel' & _ & Hloop).
  { rewrite app_nil_r. lia. }
  rewrite app_nil_r in Hloop. rewrite Hloop. apply lines_loop_done.
Qed.

(** X18: a line that has not five columns stops the program.  After a
    header and any number of lines of well-formed entries, a line of fields
    of which the tokenizer finds another number of columns than five, an
    empty last field not being a column, makes
    [parse_haplotype_transcript_file] exit with status 1, naming that
    number, whatever follows the line.  An empty line is such a line. *)
Theorem parse_table_exits (header : Sim.text) (es : list entry)
    (fields : list Sim.text) (rest : Sim.text) (fuel : nat) :
  Sim.newline ∉ header → Forall well_formed es → Forall plain fields →
  length (columns fields) ≠ 5 →
  length (table header (entry_line <$> es)
          ++ joined Sim.tab fields ++ Sim.newline :: rest) ≤ fuel →
  Sim.parse_haplotype_transcript_file fuel
    (table header (entry_line <$> es)
     ++ joined Sim.tab fields ++ Sim.newline :: rest)
  = Sim.Exits 1 (length (columns fields)).
Proof.
  intros Hheader Hes Hfields Hcolumns.
  unfold Sim.parse_haplotype_transcript_file, table.
  rewrite <-(assoc_L (++)). cbn [app]. rewrite length_app. cbn [length].
  intros Hfuel. rewrite getline_token by done.
  destruct (lines_loop_entries es (joined Sim.tab fields ++ Sim.newline :: rest)
              fuel [] Hes) as (fuel' & Hfuel' & ->); [lia|].
  rewrite length_app in Hfuel'. cbn [length] in Hfuel'.
  destruct fuel' as [|fuel']; [lia|].
  rewrite lines_loop_line.
  - rewrite tokens_loop_joined; [|by eapply Forall_impl; [done|]; intros f [? _]|lia].
    cbn [app]. by rewrite decide_True.
  - rewrite Forall_forall in Hfields.
    intros [?|(f & Hf & Hc)]%elem_of_joined; [done|].
    by destruct (Hfields f Hf) as [_ ?].
Qed.

Ltac absent :=
  let H := fresh in
  intros H; repeat (apply elem_of_cons in H as [H|H]; [discriminate H|]);
  by apply elem_of_nil in H.

Lemma entry_two_well_formed : well_formed entry_two.
Proof.
  unfold well_formed, plain. cbn.
  split_and!; [absent..| |discriminate].
  repeat constructor; absent.
Qed.

Lemma parse_table_witness :
  Sim.parse_haplotype_transcript_file 40 table_two
  = Sim.Returns [read_entry entry_two].
Proof.
  apply (parse_table ["i"; "d"]%char [entry_two] 40).
  - absent.
  - constructor; [apply entry_two_well_formed|constructor].
  - simpl. lia.
Defined.

Lemma parse_table_exits_witness :
  Sim.parse_haplotype_transcript_file 40
    (table ["i"; "d"]%char [entry_line entry_two]
     ++ joined Sim.tab [["t"; "2"]%char; []] ++ Sim.newline :: [])
  = Sim.Exits 1 1.
Proof.
  apply (parse_table_exits ["i"; "d"]%char [entry_two]
           [["t"; "2"]%char; []] [] 40).
  - absent.
  - constructor; [apply entry_two_well_formed|constructor].
  - unfold plain. repeat constructor; absent.
  - simpl. lia.
  - simpl. lia.
Defined.

(** X19: the last line needs no newline.  A table whose last line is the
    line of a well-formed entry and is not ended by a newline is read as if
    it were. *)
Theorem parse_table_unfinished (header : Sim.text) (es : list entry)
    (e : entry) (fuel : nat) :
  Sim.newline ∉ header → Forall well_formed es → well_formed e →
  length (table header (entry_line <$> es) ++ entry_line e) ≤ fuel →
  Sim.parse_haplotype_transcript_file fuel
    (table header (entry_line <$> es) ++ entry_line e)
  = Sim.Returns (read_entry <$> (es ++ [e])).
Proof.
  intros Hheader Hes He.
  unfold Sim.parse_haplotype_transcript_file, table.
  rewrite <-(assoc_L (++)). cbn [app]. rewrite length_app. cbn [length].
  intros Hfuel. rewrite getline_token by done.
  destruct (lines_loop_entries es (entry_line e) fuel [] Hes)
    as (fuel' & Hfuel' & ->); [lia|].
  assert (Hline : entry_line e ≠ []).
  { unfold entry_line. cbn [joined]. by destruct (path_name e). }
  destruct fuel' as [|fuel'];
    [destruct (entry_line e); [done|simpl in Hfuel'; lia]|].
  cbn [Sim.lines_loop].
  rewrite getline_end by (by apply entry_line_plain || done).
  rewrite tokens_loop_entry by done.
  destruct (haplotypes_field e He) as [_ Hcount].
  cbn [length nth]. rewrite decide_False by (intros Hne; by apply Hne).
  rewrite Hcount, lines_loop_done, fmap_app. done.
Qed.

Lemma parse_table_unfinished_witness :
  Sim.parse_haplotype_transcript_file 40
    (table [] [] ++ entry_line entry_two)
  = Sim.Returns [read_entry entry_two].
Proof.
  apply (parse_table_unfinished [] [] entry_two 40).
  - absent.
  - constructor.
  - apply entry_two_well_formed.
  - simpl. lia.
Defined.
